(** * Plakar snapshot engine: a shallow embedding of its encryption, header,
    VFS index and S3 backend code, with the properties its specification
    states and others the code shows.

    Go data is rendered as follows.  A [string] is a byte string (Rocq's
    [string], one [ascii] per byte); a [[]byte] is a [list byte]; [uint64]
    counters are [Z] with the wrap-around modulo [2^64] written out; a Go
    [map] is a [gmap]; a struct is a [Record]; a function returning
    [(T, error)] returns a [result T]. *)

From Stdlib Require Import ZArith List String Ascii Bool Lia.
From Stdlib Require Import Permutation DecimalString.
From Stdlib.Strings Require Import Byte.
From Stdlib Require OrderedTypeEx.
From stdpp Require Import base tactics option list gmap strings sorting.
From Equations Require Import Equations.

Local Open Scope string_scope.
Local Open Scope Z_scope.
Local Open Scope list_scope.

(** * Part I: the embedding *)

(** ** Results of fallible Go functions *)

Inductive result (E A : Type) : Type :=
| Ok (a : A)
| Err (e : E).
Arguments Ok {E A} a.
Arguments Err {E A} e.

(** ** The [strings] and [path/filepath] functions the code calls *)

Module GoStrings.

(** [strings.Split(s, sep)] for a separator of one byte: the pieces of [s]
    between the separators, one more than there are separators. *)
Fixpoint Split (s : string) (sep : ascii) : list string :=
  match s with
  | EmptyString => [EmptyString]
  | String c s' =>
      if Ascii.eqb c sep then EmptyString :: Split s' sep
      else match Split s' sep with
           | x :: xs => String c x :: xs
           | [] => [String c EmptyString]
           end
  end.

(** [strings.Join(elems, sep)]. *)
Fixpoint Join (elems : list string) (sep : string) : string :=
  match elems with
  | [] => EmptyString
  | [x] => x
  | x :: xs => x +:+ sep +:+ Join xs sep
  end.

(** [strings.HasPrefix(s, prefix)]. *)
Definition HasPrefix (s pre : string) : bool := String.prefix pre s.

(** The UTF-8 encodings of the code points [unicode.IsSpace] accepts:
    U+0009..U+000D, U+0020, U+0085, U+00A0, U+1680, U+2000..U+200A,
    U+2028, U+2029, U+202F, U+205F and U+3000. *)
Definition space_encodings : list (list N) :=
  ([ [9]; [10]; [11]; [12]; [13]; [32];
     [194; 133]; [194; 160];
     [225; 154; 128];
     [226; 128; 128]; [226; 128; 129]; [226; 128; 130]; [226; 128; 131];
     [226; 128; 132]; [226; 128; 133]; [226; 128; 134]; [226; 128; 135];
     [226; 128; 136]; [226; 128; 137]; [226; 128; 138];
     [226; 128; 168]; [226; 128; 169]; [226; 128; 175];
     [226; 129; 159];
     [227; 128; 128] ])%N.

Definition space_strings : list string :=
  map (fun bs => string_of_list_ascii (map ascii_of_N bs)) space_encodings.

(** The rest of [s] after one leading white-space rune, if it starts with one. *)
Fixpoint strip_one (sps : list string) (s : string) : option string :=
  match sps with
  | [] => None
  | sp :: sps' =>
      if String.prefix sp s
      then Some (String.substring (String.length sp) (String.length s - String.length sp) s)
      else strip_one sps' s
  end.

Fixpoint trim_left (fuel : nat) (s : string) : string :=
  match fuel with
  | O => s
  | S fuel' =>
      match strip_one space_strings s with
      | Some s' => trim_left fuel' s'
      | None => s
      end
  end.

Definition string_rev (s : string) : string :=
  string_of_list_ascii (rev (list_ascii_of_string s)).

Fixpoint trim_right (fuel : nat) (r : string) : string :=
  match fuel with
  | O => r
  | S fuel' =>
      match strip_one (map string_rev space_strings) r with
      | Some r' => trim_right fuel' r'
      | None => r
      end
  end.

(** [strings.TrimSpace(s)]: [s] without its leading and trailing white
    space.  A rune takes at least one byte, so [length s] rounds suffice. *)
Definition TrimSpace (s : string) : string :=
  let l := trim_left (String.length s) s in
  string_rev (trim_right (String.length l) (string_rev l)).

End GoStrings.

Module Filepath.
Import GoStrings.

(** One path element of [filepath.Clean]'s scan.  [out] holds the elements
    written so far, last first.  An empty element and [.] are dropped; [..]
    removes the last element written unless there is none to remove (the
    [dotdot] mark of the source: nothing written yet, or only [..] elements
    of a path that is not rooted), in which case a path that is not rooted
    keeps the [..] and a rooted one drops it. *)
Definition clean_elem (rooted : bool) (out : list string) (e : string) : list string :=
  if String.eqb e "" then out
  else if String.eqb e "." then out
  else if String.eqb e ".." then
    match out with
    | top :: rest => if String.eqb top ".." then e :: out else rest
    | [] => if rooted then [] else [e]
    end
  else e :: out.

(** What [Clean] returns once the scan is over: the elements written,
    joined by [/], after the leading [/] of a rooted path; [.] when a path
    that is not rooted has none left. *)
Definition render (rooted : bool) (out : list string) : string :=
  if rooted then "/" +:+ Join (rev out) "/"
  else match out with
       | [] => "."
       | _ => Join (rev out) "/"
       end.

(** [filepath.Clean(path)] with [/] as the separator.  The source scans the
    bytes of [path] and writes to a buffer; its cases are per path element,
    so the scan is over the elements [/] separates. *)
Definition Clean (path : string) : string :=
  match path with
  | EmptyString => "."
  | String c _ =>
      let rooted := Ascii.eqb c "/" in
      render rooted (fold_left (clean_elem rooted) (Split path "/") [])
  end.

(** [filepath.ToSlash(path)]: the separator is already [/]. *)
Definition ToSlash (path : string) : string := path.

End Filepath.

(** ** Three-way comparisons and the orders they give *)

Module Ordering.

Section Comparisons.
Context {A : Type}.

(** The laws of a three-way comparison of a total preorder. *)
Record Lawful (c : A -> A -> comparison) : Prop := {
  law_refl : forall a, c a a = Eq;
  law_sym : forall a b, c b a = CompOpp (c a b);
  law_trans : forall a b d, c a b = Lt -> c b d = Lt -> c a d = Lt;
  law_eq : forall a b x, c a b = Eq -> c a x = c b x
}.

(** Lists compared element by element, a proper prefix first. *)
Fixpoint lex_cmp (c : A -> A -> comparison) (a b : list A) : comparison :=
  match a, b with
  | [], [] => Eq
  | [], _ :: _ => Lt
  | _ :: _, [] => Gt
  | x :: a', y :: b' =>
      match c x y with
      | Eq => lex_cmp c a' b'
      | r => r
      end
  end.

(** The first position at which two lists both have an element and the
    elements differ. *)
Fixpoint first_diff (eqb : A -> A -> bool) (a b : list A) : option (A * A) :=
  match a, b with
  | x :: a', y :: b' => if eqb x y then first_diff eqb a' b' else Some (x, y)
  | _, _ => None
  end.

(** One comparison after another: the second decides where the first
    finds no difference. *)
Definition then_cmp (c1 c2 : A -> A -> comparison) (a b : A) : comparison :=
  match c1 a b with
  | Eq => c2 a b
  | r => r
  end.

Definition ltb_of (c : A -> A -> comparison) (a b : A) : bool :=
  match c a b with
  | Lt => true
  | _ => false
  end.

(** What [sort.Slice] asks of [less]. *)
Record StrictWeakOrder (less : A -> A -> bool) : Prop := {
  swo_irrefl : forall a, less a a = false;
  swo_trans : forall a b c, less a b = true -> less b c = true -> less a c = true;
  swo_negtrans : forall a b c, less a b = false -> less b c = false -> less a c = false
}.

(** No element is less than one before it. *)
Definition sorted_by (less : A -> A -> bool) : list A -> Prop :=
  StronglySorted (fun a b => less b a = false).

End Comparisons.

End Ordering.

(** ** The VFS index (package [vfs]) *)

Module VFS.
Import GoStrings Filepath.

Inductive error := ErrNotExist | ErrInvalid.

(** [uint64] arithmetic wraps around. *)
Definition u64 (z : Z) : Z := z mod 2 ^ 64.

(** *** [os.FileMode] *)

Definition ModeDir : Z := Z.shiftl 1 31.
Definition ModeSymlink : Z := Z.shiftl 1 27.
Definition ModeDevice : Z := Z.shiftl 1 26.
Definition ModeNamedPipe : Z := Z.shiftl 1 25.
Definition ModeSocket : Z := Z.shiftl 1 24.
Definition ModeCharDevice : Z := Z.shiftl 1 21.
Definition ModeIrregular : Z := Z.shiftl 1 19.
Definition ModeType : Z :=
  Z.lor ModeDir (Z.lor ModeSymlink (Z.lor ModeNamedPipe
    (Z.lor ModeSocket (Z.lor ModeDevice (Z.lor ModeCharDevice ModeIrregular))))).

Definition IsDir (m : Z) : bool := negb (Z.land m ModeDir =? 0).
Definition IsRegular (m : Z) : bool := Z.land m ModeType =? 0.

(** *** [FileInfo]

    The struct is declared in a file of the package that is not among the
    sources; the code reads it through [Name()], [Size()], [Mode()], [Dev()]
    and [Ino()] only, so it is the record of these.  [Size] is an [int64],
    [Mode] an [os.FileMode], [Dev] and [Ino] are [uint64]. *)
Record FileInfo := mkFileInfo {
  Name : string;
  Size : Z;
  Mode : Z;
  Dev : Z;
  Ino : Z
}.

(** The zero value, which a Go map returns for a key it does not hold. *)
Definition zeroFileInfo : FileInfo := mkFileInfo "" 0 0 0 0.

#[warnings="-register-all"]
Inductive FilesystemNode := FsNode {
  Inode : string;
  Children : gmap string FilesystemNode
}.

Record Filesystem := mkFilesystem {
  Root : FilesystemNode;
  Inodes : gmap string FileInfo;
  pathnameID : Z;
  Pathnames : gmap string Z;
  pathnamesInverse : gmap Z string;
  scannedDirectories : list string;
  statInfo : gmap string FileInfo;
  Symlinks : gmap string string;
  nFiles : Z;
  nDirectories : Z;
  totalSize : Z
}.

Definition NewFilesystem : Filesystem :=
  mkFilesystem (FsNode "" ∅) ∅ 0 ∅ ∅ [] ∅ ∅ 0 0 0.

(** Field updates. *)
Definition set_Root (r : FilesystemNode) (f : Filesystem) : Filesystem :=
  mkFilesystem r (Inodes f) (pathnameID f) (Pathnames f) (pathnamesInverse f)
    (scannedDirectories f) (statInfo f) (Symlinks f) (nFiles f) (nDirectories f) (totalSize f).
Definition set_Inodes (m : gmap string FileInfo) (f : Filesystem) : Filesystem :=
  mkFilesystem (Root f) m (pathnameID f) (Pathnames f) (pathnamesInverse f)
    (scannedDirectories f) (statInfo f) (Symlinks f) (nFiles f) (nDirectories f) (totalSize f).
Definition set_pathnameID (z : Z) (f : Filesystem) : Filesystem :=
  mkFilesystem (Root f) (Inodes f) z (Pathnames f) (pathnamesInverse f)
    (scannedDirectories f) (statInfo f) (Symlinks f) (nFiles f) (nDirectories f) (totalSize f).
Definition set_Pathnames (m : gmap string Z) (f : Filesystem) : Filesystem :=
  mkFilesystem (Root f) (Inodes f) (pathnameID f) m (pathnamesInverse f)
    (scannedDirectories f) (statInfo f) (Symlinks f) (nFiles f) (nDirectories f) (totalSize f).
Definition set_pathnamesInverse (m : gmap Z string) (f : Filesystem) : Filesystem :=
  mkFilesystem (Root f) (Inodes f) (pathnameID f) (Pathnames f) m
    (scannedDirectories f) (statInfo f) (Symlinks f) (nFiles f) (nDirectories f) (totalSize f).
Definition set_statInfo (m : gmap string FileInfo) (f : Filesystem) : Filesystem :=
  mkFilesystem (Root f) (Inodes f) (pathnameID f) (Pathnames f) (pathnamesInverse f)
    (scannedDirectories f) m (Symlinks f) (nFiles f) (nDirectories f) (totalSize f).
Definition set_nFiles (z : Z) (f : Filesystem) : Filesystem :=
  mkFilesystem (Root f) (Inodes f) (pathnameID f) (Pathnames f) (pathnamesInverse f)
    (scannedDirectories f) (statInfo f) (Symlinks f) z (nDirectories f) (totalSize f).
Definition set_nDirectories (z : Z) (f : Filesystem) : Filesystem :=
  mkFilesystem (Root f) (Inodes f) (pathnameID f) (Pathnames f) (pathnamesInverse f)
    (scannedDirectories f) (statInfo f) (Symlinks f) (nFiles f) z (totalSize f).
Definition set_totalSize (z : Z) (f : Filesystem) : Filesystem :=
  mkFilesystem (Root f) (Inodes f) (pathnameID f) (Pathnames f) (pathnamesInverse f)
    (scannedDirectories f) (statInfo f) (Symlinks f) (nFiles f) (nDirectories f) z.

(** The [%d] verb of [fmt.Sprintf]. *)
Definition fmt_d (z : Z) : string := NilZero.string_of_int (Z.to_int z).

(** The inode record a key names: [filesystem.Inodes[key]]. *)
Definition inodeOf (f : Filesystem) (key : string) : FileInfo :=
  default zeroFileInfo (Inodes f !! key).

(** [addInode]: the key [dev,ino]; a new key stores the record and adds
    its size to [totalSize]. *)
Definition addInode (f : Filesystem) (fileinfo : FileInfo) : Filesystem * string :=
  let key := fmt_d (Dev fileinfo) +:+ "," +:+ fmt_d (Ino fileinfo) in
  match Inodes f !! key with
  | None =>
      (set_totalSize (u64 (totalSize f + u64 (Size fileinfo)))
         (set_Inodes (<[key := fileinfo]> (Inodes f)) f), key)
  | Some _ => (f, key)
  end.

(** [addPathname]: in the branch that interns a new pathname the value
    returned is [pathnameId], the variable the failed map lookup left at
    its zero value. *)
Definition addPathname (f : Filesystem) (pathname : string) : Filesystem * Z :=
  match Pathnames f !! pathname with
  | None =>
      let pathnameId := 0 in
      (set_pathnameID (u64 (pathnameID f + 1))
         (set_pathnamesInverse (<[pathnameID f := pathname]> (pathnamesInverse f))
            (set_Pathnames (<[pathname := pathnameID f]> (Pathnames f)) f)),
       pathnameId)
  | Some pathnameId => (f, pathnameId)
  end.

(** The node [buildTree] creates for an atom that has none. *)
Definition emptyNode : FilesystemNode := FsNode "" ∅.

(** The descent of [buildTree] from node [p] along [atoms], creating the
    missing nodes, and the assignment [p.Inode = inodeKey] at its end.  The
    source walks pointers and updates in place; here the updated tree is
    rebuilt along the path. *)
Fixpoint descend (atoms : list string) (inodeKey : string) (p : FilesystemNode)
  : FilesystemNode :=
  match atoms with
  | [] => FsNode inodeKey (Children p)
  | atom :: rest =>
      let tmp := default emptyNode (Children p !! atom) in
      FsNode (Inode p) (<[atom := descend rest inodeKey tmp]> (Children p))
  end.

Definition buildTree (f : Filesystem) (pathname : string) (fileinfo : FileInfo)
  : Filesystem :=
  let '(f, inodeKey) := addInode f fileinfo in
  let pathname := ToSlash (Clean pathname) in
  let '(f, _) := addPathname f pathname in
  let atoms := if String.eqb pathname "/" then [] else tail (Split pathname "/") in
  let f := set_Root (descend atoms inodeKey (Root f)) f in
  let f := set_statInfo (<[pathname := fileinfo]> (statInfo f)) f in
  if IsRegular (Mode fileinfo) then set_nFiles (u64 (nFiles f + 1)) f
  else if IsDir (Mode fileinfo) then set_nDirectories (u64 (nDirectories f + 1)) f
  else f.

(** The loop of [Lookup]: one child per atom, [os.ErrNotExist] at the first
    atom the current node has no child for. *)
Fixpoint walk (p : FilesystemNode) (atoms : list string) : result error FilesystemNode :=
  match atoms with
  | [] => Ok p
  | atom :: rest =>
      match Children p !! atom with
      | None => Err ErrNotExist
      | Some tmp => walk tmp rest
      end
  end.

(** The first lines of every lookup: clean, forward slashes, [.] is [/]. *)
Definition canonical (pathname : string) : string :=
  let pathname := ToSlash (Clean pathname) in
  if String.eqb pathname "." then "/" else pathname.

Definition Lookup (f : Filesystem) (pathname : string) : result error FilesystemNode :=
  let pathname := canonical pathname in
  if String.eqb pathname "/" then Ok (Root f)
  else walk (Root f) (tail (Split pathname "/")).

(** Go's order on strings: byte by byte, a proper prefix first. *)
Definition string_lt (a b : string) : Prop := String.compare a b = Lt.
Definition string_le (a b : string) : Prop := String.compare a b <> Gt.

#[local] Instance string_le_dec : RelDecision string_le.
Proof. intros a b. unfold string_le. destruct (String.compare a b); [left|left|right]; congruence. Defined.

(** [sort.Strings]: the order on strings is total, so the result is the one
    ascending arrangement of the input whatever the algorithm. *)
Definition sort_Strings (l : list string) : list string := merge_sort string_le l.

Definition LookupChildren (f : Filesystem) (pathname : string) : result error (list string) :=
  let pathname := canonical pathname in
  match Lookup f pathname with
  | Err _ => Err ErrNotExist
  | Ok parent =>
      let parentInode := inodeOf f (Inode parent) in
      if negb (IsDir (Mode parentInode)) then Err ErrInvalid
      else Ok (sort_Strings (map fst (map_to_list (Children parent))))
  end.

(** [_reindex].  The source recurses on the child's pathname and resolves
    it again from the root, so the recursion is on [fuel], the depth still
    allowed; [None] when it is used up.  The children are visited in the
    order [map_to_list] gives (Go leaves the order open). *)
Fixpoint _reindex (fuel : nat) (pathname : string) (f : Filesystem) : option Filesystem :=
  match fuel with
  | O => None
  | S fuel' =>
      match Lookup f pathname with
      | Err _ => Some f
      | Ok node =>
          let pathnameInode := inodeOf f (Inode node) in
          let f := set_statInfo (<[pathname := pathnameInode]> (statInfo f)) f in
          let f := set_totalSize (u64 (totalSize f + u64 (Size pathnameInode))) f in
          fold_left
            (fun (acc : option Filesystem) (kv : string * FilesystemNode) =>
               match acc with
               | None => None
               | Some f =>
                   let nodeInode := inodeOf f (Inode (snd kv)) in
                   let child := Clean (pathname +:+ "/" +:+ fst kv) in
                   if IsDir (Mode nodeInode) then _reindex fuel' child f
                   else Some (set_statInfo (<[child := nodeInode]> (statInfo f)) f)
               end)
            (map_to_list (Children node)) (Some f)
      end
  end.

(** The inverse map [reindex] rebuilds: one entry per pathname. *)
Definition invert (m : gmap string Z) : gmap Z string :=
  map_fold (fun pathname pathnameId acc => <[pathnameId := pathname]> acc) ∅ m.

Definition reindex (fuel : nat) (f : Filesystem) : option Filesystem :=
  let f := set_pathnamesInverse (invert (Pathnames f)) f in
  let f := set_statInfo ∅ f in
  _reindex fuel "/" f.

(** Two quantities of the tree, which the counters are compared with (the
    source has no function for them).  The number of nodes of a kind
    reachable from a node, itself included: those whose inode record
    satisfies [kind]. *)
Fixpoint count_nodes (kind : FileInfo -> bool) (f : Filesystem) (n : FilesystemNode) : Z :=
  (if kind (inodeOf f (Inode n)) then 1 else 0)
  + map_fold (fun _ c acc => count_nodes kind f c + acc) 0 (Children n).

(** The sum of the sizes of the inode records of the nodes reachable from a
    node, itself included. *)
Fixpoint sum_sizes (f : Filesystem) (n : FilesystemNode) : Z :=
  Size (inodeOf f (Inode n))
  + map_fold (fun _ c acc => sum_sizes f c + acc) 0 (Children n).

(** *** Lookups in [statInfo], listings, pathname ids, loading and scanning *)

(** [LookupInode]: the record [statInfo] holds for the pathname, if any. *)
Definition LookupInode (f : Filesystem) (pathname : string) : option FileInfo :=
  statInfo f !! canonical pathname.

Definition LookupInodeForFile (f : Filesystem) (pathname : string) : option FileInfo :=
  match statInfo f !! canonical pathname with
  | None => None
  | Some fileinfo => if negb (IsRegular (Mode fileinfo)) then None else Some fileinfo
  end.

Definition LookupInodeForDirectory (f : Filesystem) (pathname : string) : option FileInfo :=
  match statInfo f !! canonical pathname with
  | None => None
  | Some fileinfo => if negb (IsDir (Mode fileinfo)) then None else Some fileinfo
  end.

(** The four listings range over [statInfo] in the order [map_to_list]
    gives (Go leaves the order open). *)
Definition ListFiles (f : Filesystem) : list string :=
  map fst (List.filter (fun kv => IsRegular (Mode (snd kv))) (map_to_list (statInfo f))).

Definition ListDirectories (f : Filesystem) : list string :=
  map fst (List.filter (fun kv => IsDir (Mode (snd kv))) (map_to_list (statInfo f))).

Definition ListNonRegular (f : Filesystem) : list string :=
  map fst (List.filter (fun kv => negb (IsDir (Mode (snd kv))) && negb (IsRegular (Mode (snd kv))))
             (map_to_list (statInfo f))).

Definition ListStat (f : Filesystem) : list string :=
  map fst (map_to_list (statInfo f)).

(** [GetPathnameID] and [GetPathname]: a map returns the zero value for a
    key it does not hold. *)
Definition GetPathnameID (f : Filesystem) (pathname : string) : Z :=
  default 0 (Pathnames f !! pathname).

Definition GetPathname (f : Filesystem) (pathnameId : Z) : string :=
  default "" (pathnamesInverse f !! pathnameId).

(** [msgpack.Marshal] and [msgpack.Unmarshal] at type [Filesystem].  The
    library is not part of the sources.  It encodes the exported fields
    only, so what decodes is [exported f]: [Root], [Inodes], [Pathnames]
    and [Symlinks] of [f], the other fields at their zero values. *)
Definition exported (f : Filesystem) : Filesystem :=
  mkFilesystem (Root f) (Inodes f) 0 (Pathnames f) ∅ [] ∅ (Symlinks f) 0 0 0.

Record Msgpack := {
  Marshal : Filesystem -> result string (list byte);
  Unmarshal : list byte -> result string Filesystem;
  Unmarshal_Marshal : forall f data, Marshal f = Ok data -> Unmarshal data = Ok (exported f)
}.

Definition Serialize (M : Msgpack) (f : Filesystem) : result string (list byte) :=
  match Marshal M f with
  | Err err => Err err
  | Ok serialized => Ok serialized
  end.

(** [NewFilesystemFromBytes]; [None] when [reindex] runs out of [fuel]. *)
Definition NewFilesystemFromBytes (M : Msgpack) (fuel : nat) (serialized : list byte)
  : option (result string Filesystem) :=
  match Unmarshal M serialized with
  | Err err => Some (Err err)
  | Ok filesystem =>
      match reindex fuel filesystem with
      | None => None
      | Some filesystem => Some (Ok filesystem)
      end
  end.

(** A message of the importer's scan: a pathname and a value of interface
    type, which either is a [FileInfo] or is not. *)
Record ScanResult := mkScanResult {
  Pathname : string;
  Stat : option FileInfo
}.

Inductive scanError :=
| ImporterError (msg : string)
| InvalidStatType.

(** The test of [NewFilesystemFromScan] for the ancestors of a pathname:
    [LookupInodeForDirectory] finds each of the paths made of the first [i]
    atoms, for [i] from 0 to the number of atoms less two. *)
Definition ancestorsFound (fs : Filesystem) (atoms : list string) : bool :=
  forallb (fun i =>
             let path := ToSlash (Clean ("/" +:+ Join (take i atoms) "/")) in
             bool_decide (is_Some (LookupInodeForDirectory fs path)))
          (seq 0 (length atoms - 1)).

(** The paths the scan leaves out: the repository and what is below it. *)
Definition inRepository (repository pathname : string) : bool :=
  String.eqb pathname repository
  || HasPrefix (ToSlash pathname) (ToSlash repository +:+ "/").

(** The loop of [NewFilesystemFromScan] over the messages of the scan, a
    channel the importer closes after the last.  The three ways out are
    the filesystem, the error of a message that carries no [FileInfo], and
    [return nil, err] at a missing ancestor, where [err] is [nil]: neither
    a filesystem nor an error ([Ok None]). *)
Fixpoint scanLoop (repository : string) (msgs : list ScanResult) (fs : Filesystem)
  : result scanError (option Filesystem) :=
  match msgs with
  | [] => Ok (Some fs)
  | msg :: msgs' =>
      let pathname := Clean (Pathname msg) in
      if inRepository repository pathname then scanLoop repository msgs' fs
      else
        match Stat msg with
        | None => Err InvalidStatType
        | Some stat =>
            if negb (String.eqb pathname "/")
               && negb (ancestorsFound fs (Split pathname "/"))
            then Ok None
            else scanLoop repository msgs' (buildTree fs (ToSlash pathname) stat)
        end
  end.

(** [NewFilesystemFromScan], the calls of the importer given by their
    results. *)
Definition NewFilesystemFromScan (repository : string)
    (newImporter : result scanError unit) (scan : result scanError (list ScanResult))
  : result scanError (option Filesystem) :=
  match newImporter with
  | Err err => Err err
  | Ok _ =>
      match scan with
      | Err err => Err err
      | Ok msgs => scanLoop repository msgs NewFilesystem
      end
  end.

End VFS.

(** ** The snapshot header (package [header]) *)

Module HeaderPkg.
Import GoStrings Ordering.

(** [objects.Checksum], a [[32]byte]: the list of its bytes.  [cells] reads
    the 32 cells of the array by index. *)
Definition Checksum : Type := list byte.

Definition cells (c : Checksum) : list byte :=
  map (fun k => nth k c x00) (seq 0 32).

(** [time.Time] as the instant it denotes: seconds and nanoseconds.
    [Equal], [Before] and [After] compare instants. *)
Record Time := mkTime { unixSec : Z; nsec : Z }.

Definition Time_Equal (t u : Time) : bool :=
  (unixSec t =? unixSec u) && (nsec t =? nsec u).
Definition Time_Before (t u : Time) : bool :=
  (unixSec t <? unixSec u) || ((unixSec t =? unixSec u) && (nsec t <? nsec u)).
Definition Time_After (t u : Time) : bool :=
  (unixSec t >? unixSec u) || ((unixSec t =? unixSec u) && (nsec t >? nsec u)).

Record Importer := mkImporter {
  ImporterType : string;
  Origin : string;
  Directory : string
}.

Record Identity := mkIdentity {
  Identifier : list byte;
  PublicKey : list byte
}.

Record KeyValue := mkKeyValue {
  Key : string;
  Value : string
}.

(** Modelled from the spec: [vfs.Summary], declared outside the sources;
    the specification describes it as aggregate counts (files, directories,
    total size). *)
Record Summary := mkSummary {
  Files : Z;
  Directories : Z;
  TotalSize : Z
}.

Record Header := mkHeader {
  SnapshotID : Checksum;
  Version : string;
  CreationTime : Time;
  CreationDuration : Z;
  Identity_ : Identity;
  Category : string;
  Tags : list string;
  Context : list KeyValue;
  Importer_ : Importer;
  Root : Checksum;
  Index : Checksum;
  Metadata : Checksum;
  Statistics : Checksum;
  Errors : Checksum;
  Summary_ : Summary
}.

(** [msgpack.Marshal] and [msgpack.Unmarshal] at type [Header].  The
    library is not part of the sources: it is the two functions, and
    nothing is assumed of them. *)
Record Msgpack := {
  Marshal : Header -> result string (list byte);
  Unmarshal : list byte -> result string Header
}.

(** [NewFromBytes] and [Serialize]; the deferred calls of the profiler and
    the logger leave the results alone. *)
Definition NewFromBytes (M : Msgpack) (serialized : list byte) : result string Header :=
  match Unmarshal M serialized with
  | Err err => Err err
  | Ok header => Ok header
  end.

Definition Serialize (M : Msgpack) (h : Header) : result string (list byte) :=
  match Marshal M h with
  | Err err => Err err
  | Ok serialized => Ok serialized
  end.

Definition GetIndexID (h : Header) : Checksum := SnapshotID h.

(** The names of the fields of [Header], which [reflect]'s [FieldByName]
    looks a name up in. *)
Definition headerFields : list string :=
  [ "SnapshotID"; "Version"; "CreationTime"; "CreationDuration"; "Identity";
    "Category"; "Tags"; "Context"; "Importer"; "Root"; "Index"; "Metadata";
    "Statistics"; "Errors"; "Summary" ].

Definition FieldByName (name : string) : bool :=
  existsb (String.eqb name) headerFields.

(** The two errors of [ParseSortKeys], each with the key it names:
    [duplicate sort key: key] and [invalid sort key: key]. *)
Inductive error :=
| DuplicateKey (key : string)
| InvalidSortKey (key : string).

Definition Error (e : error) : string :=
  match e with
  | DuplicateKey key => "duplicate sort key: " +:+ key
  | InvalidSortKey key => "invalid sort key: " +:+ key
  end.

(** The name a key is looked up by: the key without one leading [-]. *)
Definition lookupKey (key : string) : string :=
  if HasPrefix key "-" then String.substring 1 (String.length key - 1) key else key.

(** The loop of [ParseSortKeys] over the keys still to read. *)
Fixpoint parseKeys (keys : list string) (uniqueKeys : gmap string bool)
    (validKeys : list string) : result error (list string) :=
  match keys with
  | [] => Ok validKeys
  | key :: keys' =>
      let key := TrimSpace key in
      if default false (uniqueKeys !! lookupKey key) then Err (DuplicateKey key)
      else
        let uniqueKeys := <[lookupKey key := true]> uniqueKeys in
        if negb (FieldByName (lookupKey key)) then Err (InvalidSortKey key)
        else parseKeys keys' uniqueKeys (validKeys ++ [key])
  end.

Definition ParseSortKeys (sortKeysStr : string) : result error (list string) :=
  if String.eqb sortKeysStr "" then Ok []
  else parseKeys (Split sortKeysStr ",") ∅ [].

(** What one [case] of the comparison does with a pair of headers: return
    a value, fall through to the next key, or reach [default]. *)
Inductive step :=
| Return (b : bool)
| Next
| Default.

Definition byte_ltb (a b : byte) : bool := (Byte.to_N a <? Byte.to_N b)%N.

(** The loop over the bytes of two snapshot ids, with [lt] the comparison
    the case returns at the first difference. *)
Definition stepSnapshotID (lt : byte -> byte -> bool) (a b : Checksum) : step :=
  match first_diff Byte.eqb (cells a) (cells b) with
  | Some (x, y) => Return (lt x y)
  | None => Next
  end.

(** The loop over two tag lists and the comparison of their lengths. *)
Definition stepTags (lt : string -> string -> bool) (ltlen : nat -> nat -> bool)
    (a b : list string) : step :=
  match first_diff String.eqb a b with
  | Some (x, y) => Return (lt x y)
  | None =>
      if negb (Nat.eqb (length a) (length b)) then Return (ltlen (length a) (length b))
      else Next
  end.

Definition gtb_string (a b : string) : bool := String.ltb b a.
Definition gtb_byte (a b : byte) : bool := byte_ltb b a.
Definition gtb_nat (a b : nat) : bool := Nat.ltb b a.

(** The [switch] of the comparison, for one key. *)
Definition lessKey (key : string) (hi hj : Header) : step :=
  if String.eqb key "CreationTime" then
    if negb (Time_Equal (CreationTime hi) (CreationTime hj))
    then Return (Time_Before (CreationTime hi) (CreationTime hj)) else Next
  else if String.eqb key "-CreationTime" then
    if negb (Time_Equal (CreationTime hi) (CreationTime hj))
    then Return (Time_After (CreationTime hi) (CreationTime hj)) else Next
  else if String.eqb key "SnapshotID" then
    stepSnapshotID byte_ltb (SnapshotID hi) (SnapshotID hj)
  else if String.eqb key "-SnapshotID" then
    stepSnapshotID gtb_byte (SnapshotID hi) (SnapshotID hj)
  else if String.eqb key "Version" then
    if negb (String.eqb (Version hi) (Version hj))
    then Return (String.ltb (Version hi) (Version hj)) else Next
  else if String.eqb key "-Version" then
    if negb (String.eqb (Version hi) (Version hj))
    then Return (gtb_string (Version hi) (Version hj)) else Next
  else if String.eqb key "Tags" then
    stepTags String.ltb Nat.ltb (Tags hi) (Tags hj)
  else if String.eqb key "-Tags" then
    stepTags gtb_string gtb_nat (Tags hi) (Tags hj)
  else Default.

(** The function handed to [sort.Slice], on the two headers its indices
    name: the keys in order, [false] when none decides or one is unknown. *)
Fixpoint less (sortKeys : list string) (hi hj : Header) : bool :=
  match sortKeys with
  | [] => false
  | key :: rest =>
      match lessKey key hi hj with
      | Return b => b
      | Next => less rest hi hj
      | Default => false
      end
  end.

(** The error the same call assigns to [err], if it reaches [default]. *)
Fixpoint lessErr (sortKeys : list string) (hi hj : Header) : option error :=
  match sortKeys with
  | [] => None
  | key :: rest =>
      match lessKey key hi hj with
      | Return _ => None
      | Next => lessErr rest hi hj
      | Default => Some (InvalidSortKey key)
      end
  end.

(** [sort.Slice(x, less)], as far as its documentation and its algorithm
    fix it: a function of the slice and of [less] that returns the slice
    rearranged and the pairs it called [less] on, in order.  The result is a
    permutation; it is sorted when [less] is a strict weak order; and a slice
    in which no element is less than an earlier one comes back as it is
    (insertion sort moves nothing, and for more than 12 elements the
    pattern-defeating quicksort finds no pair out of order and stops). *)
Record SliceSorter := {
  sort_Slice : forall A : Type, list A -> (A -> A -> bool) -> list A * list (A * A);
  sort_Slice_perm : forall A (x : list A) less,
      Permutation (fst (sort_Slice A x less)) x;
  sort_Slice_sorted : forall A (x : list A) less,
      StrictWeakOrder less -> sorted_by less (fst (sort_Slice A x less));
  sort_Slice_presorted : forall A (x : list A) less,
      sorted_by less x -> fst (sort_Slice A x less) = x
}.

(** [SortHeaders]: the headers sorted in place, and [err], the error of the
    last call of the comparison that reached [default]. *)
Definition SortHeaders (S : SliceSorter) (headers : list Header) (sortKeys : list string)
  : list Header * option error :=
  let '(sorted, calls) := sort_Slice S Header headers (less sortKeys) in
  (sorted,
   fold_left (fun err '(hi, hj) =>
                match lessErr sortKeys hi hj with
                | Some e => Some e
                | None => err
                end) calls None).

(** Insertion sort, which [sort.Slice] runs on a slice of at most 12
    elements: each element in turn moves left past the elements it is less
    than.  [insert] places [x] in the reversed prefix [rev_sorted]. *)
Fixpoint insert {A} (less : A -> A -> bool) (x : A) (rev_sorted : list A)
  : list A * list (A * A) :=
  match rev_sorted with
  | [] => ([x], [])
  | y :: rest =>
      if less x y then
        let '(l, calls) := insert less x rest in (y :: l, (x, y) :: calls)
      else (x :: y :: rest, [(x, y)])
  end.

Fixpoint insertionSort_aux {A} (less : A -> A -> bool) (todo rev_sorted : list A)
  : list A * list (A * A) :=
  match todo with
  | [] => (rev rev_sorted, [])
  | x :: todo' =>
      let '(l, calls) := insert less x rev_sorted in
      let '(r, calls') := insertionSort_aux less todo' l in
      (r, calls ++ calls')
  end.

Definition insertionSort {A} (x : list A) (less : A -> A -> bool) : list A * list (A * A) :=
  insertionSort_aux less x [].

(** [SetContext] appends a pair; [GetContext] returns the value of the
    first pair with the key, or the empty string. *)
Definition SetContext (h : Header) (key value : string) : Header :=
  mkHeader (SnapshotID h) (Version h) (CreationTime h) (CreationDuration h) (Identity_ h)
    (Category h) (Tags h) (Context h ++ [mkKeyValue key value]) (Importer_ h)
    (Root h) (Index h) (Metadata h) (Statistics h) (Errors h) (Summary_ h).

Fixpoint getContext (context : list KeyValue) (key : string) : string :=
  match context with
  | [] => ""
  | kv :: rest => if String.eqb (Key kv) key then Value kv else getContext rest key
  end.

Definition GetContext (h : Header) (key : string) : string := getContext (Context h) key.

End HeaderPkg.

(** ** Encryption (package [encryption]) *)

Module Encryption.

Inductive error :=
| EOF
| ErrUnexpectedEOF
| KeySizeError (n : nat)
| ErrOpenFailed
| ErrCorruptInput
| ErrPassphrase
| ErrOther (msg : string)
| Wrapped (msg : string) (cause : error).

(** A call either returns or panics (a slice expression out of range). *)
Inductive run (A : Type) : Type :=
| Returns (r : result error A)
| Panics.
Arguments Returns {A} r.
Arguments Panics {A}.

#[export] Instance byte_eq_dec : EqDecision byte := Byte.byte_eq_dec.

(** [bytes.Equal]. *)
Definition bytes_Equal (a b : list byte) : bool := bool_decide (a = b).

Definition saltSize : nat := 16.
Definition chunkSize : nat := 1024.

(** *** The libraries the package calls

    [scrypt.Key], [base64.StdEncoding] and AES-GCM are not part of the
    sources.  Each is a record of its functions and of what the code relies
    on. *)

(** [scrypt.Key(password, salt, N, r, p, keyLen)]: a key of [keyLen] bytes,
    or an error. *)
Record Scrypt := {
  scrypt_Key : list byte -> list byte -> Z -> Z -> Z -> nat -> result error (list byte);
  scrypt_Key_length : forall password salt N r p keyLen dk,
      scrypt_Key password salt N r p keyLen = Ok dk -> length dk = keyLen
}.

(** [base64.StdEncoding]: decoding an encoding returns the bytes encoded. *)
Record Base64 := {
  EncodeToString : list byte -> string;
  DecodeString : string -> result error (list byte);
  DecodeString_EncodeToString : forall src, DecodeString (EncodeToString src) = Ok src
}.

(** [aes.NewCipher(key)] succeeds for a key of 16, 24 or 32 bytes. *)
Definition validKey (key : list byte) : bool :=
  (length key =? 16)%nat || (length key =? 24)%nat || (length key =? 32)%nat.

Definition NonceSize : nat := 12.
Definition Overhead : nat := 16.

(** The GCM of [cipher.NewGCM(aes.NewCipher(key))]: [Seal key nonce plaintext]
    is [gcm.Seal(nil, nonce, plaintext, nil)] and [Open key nonce ciphertext]
    is [gcm.Open(nil, nonce, ciphertext, nil)].  A sealed text is [Overhead]
    bytes longer than the plain text, and opens to it under the same key and
    nonce. *)
Record GCM := {
  Seal : list byte -> list byte -> list byte -> list byte;
  Open : list byte -> list byte -> list byte -> result error (list byte);
  Seal_length : forall key nonce plaintext,
      validKey key = true -> length nonce = NonceSize ->
      length (Seal key nonce plaintext) = (length plaintext + Overhead)%nat;
  Open_Seal : forall key nonce plaintext,
      validKey key = true -> length nonce = NonceSize ->
      Open key nonce (Seal key nonce plaintext) = Ok plaintext
}.

Definition NewCipher (key : list byte) : result error (list byte) :=
  if validKey key then Ok key else Err (KeySizeError (length key)).

(** *** [io.Reader]

    A reader is the data it still has to deliver, in the bursts it arrives
    in, and the error that ends it.  A [Read] returns bytes of the first
    burst only, as many as the buffer holds.  The [Read] that returns the
    last bytes may return the final error with them ([withData]) or leave
    it to the next [Read]; both are within the contract of [io.Reader].  The
    read end of an [io.Pipe] is such a reader: a burst per [Write], and the
    error only once the data is read. *)
Record Reader := mkReader {
  segments : list (list byte);
  final : error;
  withData : bool
}.

Definition Read (r : Reader) (n : nat) : (list byte * option error) * Reader :=
  match segments r with
  | [] => (([], Some (final r)), r)
  | seg :: rest =>
      match drop n seg with
      | _ :: _ => ((take n seg, None), mkReader (drop n seg :: rest) (final r) (withData r))
      | [] =>
          match rest with
          | [] =>
              ((take n seg, if withData r then Some (final r) else None),
               mkReader [] (final r) (withData r))
          | _ :: _ => ((take n seg, None), mkReader rest (final r) (withData r))
          end
      end
  end.

(** The read end of a pipe whose writer made the given writes and then
    closed it, with an error or without. *)
Definition pipe (writes : list (list byte)) (closeErr : option error) : Reader :=
  mkReader writes (default EOF closeErr) false.

(** [io.ReadAll]: everything the reader delivers, and its error unless it
    is [EOF]. *)
Definition ReadAll (r : Reader) : list byte * option error :=
  (concat (segments r), match final r with EOF => None | e => Some e end).

(** What is left to read, bursts and bytes: every [Read] into a buffer
    that is not empty and returns no error lowers it. *)
Definition size (r : Reader) : nat :=
  (length (segments r) + length (concat (segments r)))%nat.

Lemma Read_size r n data r' :
  (0 < n)%nat -> Read r n = ((data, None), r') -> (size r' < size r)%nat.
Proof.
  unfold Read, size. destruct r as [[|seg rest] fin wd]; simpl; [done|].
  intros Hn. destruct (drop n seg) as [|b later] eqn:Hd.
  - destruct rest as [|s rest'].
    + destruct wd; intros [= <- <-]; simpl; lia.
    + intros [= <- <-]. simpl. rewrite !length_app. lia.
  - intros [= <- <-]. simpl. rewrite !length_app. simpl.
    assert (length (drop n seg) = S (length later)) as H by (by rewrite Hd).
    rewrite length_drop in H. lia.
Qed.

Definition inspect {A} (a : A) : {b | a = b} := exist _ a eq_refl.

(** The error a goroutine closes its pipe with after its reader returned
    [err]: none for [io.EOF]. *)
Definition closeError (err : error) : option error :=
  match err with
  | EOF => None
  | _ => Some err
  end.

(** The loop of the goroutine of [EncryptStream]: the chunks it writes and
    the error it closes the pipe with.  A [Read] that returns an error ends
    the loop, whatever bytes it returned. *)
Equations? encryptLoop (seal : list byte -> list byte) (r : Reader)
  : list (list byte) * option error by wf (size r) lt :=
  encryptLoop seal r with inspect (Read r chunkSize) => {
    | exist _ ((buf, Some err), _) _ := ([], closeError err);
    | exist _ ((buf, None), r') Heq :=
        let '(writes, closeErr) := encryptLoop seal r' in
        (seal buf :: writes, closeErr) }.
Proof. eapply Read_size; [|exact Heq]. unfold chunkSize. lia. Qed.

(** [EncryptStream].  The three calls of [rand.Read] are given by their
    results.  The reader returned is the read end of the pipe the goroutine
    writes to. *)
Definition EncryptStream (G : GCM) (rand_subkey rand_subkeyNonce rand_dataNonce : result error (list byte))
    (key : list byte) (r : Reader) : result error Reader :=
  match rand_subkey with
  | Err err => Err err
  | Ok subkey =>
  match NewCipher key with
  | Err err => Err err
  | Ok gcm =>
  match rand_subkeyNonce with
  | Err err => Err err
  | Ok subkeyNonce =>
  let encSubkey := Seal G gcm subkeyNonce subkey in
  match NewCipher subkey with
  | Err err => Err err
  | Ok dataGCM =>
  match rand_dataNonce with
  | Err err => Err err
  | Ok dataNonce =>
  let '(chunks, closeErr) := encryptLoop (Seal G dataGCM dataNonce) r in
  Ok (pipe ([subkeyNonce; encSubkey; dataNonce] ++ chunks) closeErr)
  end end end end end.

(** [io.ReadFull(r, buf)] for a buffer of [want] bytes, [got] being what
    the loop of [io.ReadAtLeast] has read so far. *)
Equations? readAtLeast (r : Reader) (got : list byte) (want : nat)
  : (list byte * option error) * Reader by wf (size r) lt :=
  readAtLeast r got want with decide (length got < want)%nat => {
    | right _ := ((got, None), r);
    | left Hlt with inspect (Read r (want - length got)) => {
        | exist _ ((buf, None), r') Heq := readAtLeast r' (got ++ buf) want;
        | exist _ ((buf, Some err), r') _ :=
            let got := got ++ buf in
            if decide (want <= length got)%nat then ((got, None), r')
            else match got, err with
                 | _ :: _, EOF => ((got, Some ErrUnexpectedEOF), r')
                 | _, _ => ((got, Some err), r')
                 end } }.
Proof. eapply Read_size; [|exact Heq]. lia. Qed.

Definition ReadFull (r : Reader) (n : nat) : (list byte * option error) * Reader :=
  readAtLeast r [] n.

(** The loop of the goroutine of [DecryptStream]. *)
Equations? decryptLoop (open : list byte -> result error (list byte)) (r : Reader)
  : list (list byte) * option error by wf (size r) lt :=
  decryptLoop open r with inspect (Read r (chunkSize + Overhead)) => {
    | exist _ ((buf, Some err), _) _ := ([], closeError err);
    | exist _ ((buf, None), r') Heq :=
        match open buf with
        | Err err => ([], Some err)
        | Ok decryptedChunk =>
            let '(writes, closeErr) := decryptLoop open r' in
            (decryptedChunk :: writes, closeErr)
        end }.
Proof. eapply Read_size; [|exact Heq]. unfold chunkSize, Overhead. lia. Qed.

Definition DecryptStream (G : GCM) (key : list byte) (r : Reader) : result error Reader :=
  match NewCipher key with
  | Err err => Err err
  | Ok gcm =>
  match ReadFull r NonceSize with
  | ((_, Some err), _) => Err err
  | ((subkeyNonce, None), r) =>
  match ReadFull r (Overhead + 32) with
  | ((_, Some err), _) => Err err
  | ((encSubkey, None), r) =>
  match Open G gcm subkeyNonce encSubkey with
  | Err err => Err err
  | Ok subkey =>
  match NewCipher subkey with
  | Err err => Err err
  | Ok dataGCM =>
  match ReadFull r NonceSize with
  | ((_, Some err), _) => Err err
  | ((dataNonce, None), r) =>
  let '(chunks, closeErr) := decryptLoop (Open G dataGCM dataNonce) r in
  Ok (pipe chunks closeErr)
  end end end end end end.

(** [BuildSecretFromPassphrase], the call of [rand.Read] given by its
    result. *)
Definition BuildSecretFromPassphrase (K : Scrypt) (B : Base64)
    (rand_salt : result error (list byte)) (passphrase : list byte) : result error string :=
  match rand_salt with
  | Err err => Err (Wrapped "failed to generate salt" err)
  | Ok salt =>
      match scrypt_Key K passphrase salt (Z.shiftl 1 15) 8 1 32 with
      | Err err => Err (Wrapped "key derivation failed" err)
      | Ok dk => Ok (EncodeToString B (salt ++ dk))
      end
  end.

(** [DeriveSecret].  The two slice expressions panic on a decoded secret
    shorter than the salt. *)
Definition DeriveSecret (K : Scrypt) (B : Base64) (passphrase : list byte) (secret : string)
  : run (list byte) :=
  match DecodeString B secret with
  | Err err => Returns (Err err)
  | Ok decodedSecret =>
      if decide (length decodedSecret < saltSize)%nat then Panics
      else
        let salt := take saltSize decodedSecret in
        let expectedKey := drop saltSize decodedSecret in
        match scrypt_Key K passphrase salt (Z.shiftl 1 15) 8 1 32 with
        | Err err => Returns (Err err)
        | Ok dk =>
            if negb (bytes_Equal dk expectedKey) then Returns (Err ErrPassphrase)
            else Returns (Ok dk)
        end
  end.

(** *** Buffers ([Encrypt] and [Decrypt])

    The AES block cipher of [aes.NewCipher(key)], which [Encrypt] and
    [Decrypt] apply to the two blocks of the sub-key: a block of
    [BlockSize] bytes goes to a block, and decrypting undoes encrypting. *)
Definition BlockSize : nat := 16.

Record AES := {
  block_Encrypt : list byte -> list byte -> list byte;
  block_Decrypt : list byte -> list byte -> list byte;
  block_Encrypt_length : forall key src,
      validKey key = true -> length src = BlockSize ->
      length (block_Encrypt key src) = BlockSize;
  block_Decrypt_length : forall key src,
      validKey key = true -> length src = BlockSize ->
      length (block_Decrypt key src) = BlockSize;
  block_Decrypt_Encrypt : forall key src,
      validKey key = true -> length src = BlockSize ->
      block_Decrypt key (block_Encrypt key src) = src
}.

(** [Encrypt].  [subkey] and [nonce] are the buffers of 32 and of
    [NonceSize] bytes as [rand.Read] left them.  [Seal] is called with the
    nonce as destination, so its result follows the nonce. *)
Definition Encrypt (A : AES) (G : GCM) (subkey nonce : list byte) (key buf : list byte)
  : result error (list byte) :=
  match NewCipher key with
  | Err err => Err err
  | Ok ecb =>
      let encsubkey :=
        block_Encrypt A ecb (take BlockSize subkey)
        ++ block_Encrypt A ecb (drop BlockSize subkey) in
      match NewCipher subkey with
      | Err err => Err err
      | Ok block => Ok (encsubkey ++ (nonce ++ Seal G block nonce buf))
      end
  end.

(** [Decrypt].  The slice expressions [buf[ecb.BlockSize()*2:]] and
    [ciphertext[aesGCM.NonceSize():]] panic on a buffer that is too
    short. *)
Definition Decrypt (A : AES) (G : GCM) (key buf : list byte) : run (list byte) :=
  match NewCipher key with
  | Err err => Returns (Err err)
  | Ok ecb =>
      if decide (length buf < BlockSize * 2)%nat then Panics
      else
        let encsubkey := take (BlockSize * 2) buf in
        let ciphertext := drop (BlockSize * 2) buf in
        let subkey :=
          block_Decrypt A ecb (take BlockSize encsubkey)
          ++ block_Decrypt A ecb (drop BlockSize encsubkey) in
        match NewCipher subkey with
        | Err err => Returns (Err err)
        | Ok block =>
            if decide (length ciphertext < NonceSize)%nat then Panics
            else
              let nonce := take NonceSize ciphertext in
              let ciphertext := drop NonceSize ciphertext in
              match Open G block nonce ciphertext with
              | Err err => Returns (Err err)
              | Ok cleartext => Returns (Ok cleartext)
              end
        end
  end.

(** *** The encrypted keypair ([Keypair.Encrypt] and [Keypair.Decrypt])

    [pbkdf2.Key] returns a key of the length asked for; the package
    [compression], which is not among the sources, inflates what it
    deflated. *)
Record PBKDF2 := {
  pbkdf2_Key : list byte -> list byte -> nat -> nat -> list byte;
  pbkdf2_Key_length : forall password salt iter keyLen,
      length (pbkdf2_Key password salt iter keyLen) = keyLen
}.

Record Compression := {
  Deflate : list byte -> list byte;
  Inflate : list byte -> result error (list byte);
  Inflate_Deflate : forall data, Inflate (Deflate data) = Ok data
}.

(** [Keypair.Encrypt].  [serialized] is what [keypair.Serialize()] and
    [json.Marshal] made of the keypair, or the error of either; [salt] and
    [nonce] are the buffers of 16 and of [NonceSize] bytes as [rand.Read]
    left them.  The errors of [aes.NewCipher] and [cipher.NewGCM] are not
    looked at: the key has 32 bytes. *)
Definition Keypair_Encrypt (P : PBKDF2) (C : Compression) (G : GCM)
    (serialized : result error (list byte)) (salt nonce : list byte)
    (passphrase : list byte) : result error (list byte) :=
  match serialized with
  | Err err => Err err
  | Ok data =>
      let data := Deflate C data in
      let dk := pbkdf2_Key P passphrase salt 4096 32 in
      Ok (salt ++ (nonce ++ Seal G dk nonce data))
  end.

(** [Keypair.Decrypt].  The slice expressions [data[16:]] and
    [ciphertext[aesGCM.NonceSize():]] panic on data that is too short. *)
Definition Keypair_Decrypt (P : PBKDF2) (C : Compression) (G : GCM)
    (passphrase data : list byte) : run (list byte) :=
  if decide (length data < 16)%nat then Panics
  else
    let salt := take 16 data in
    let ciphertext := drop 16 data in
    let dk := pbkdf2_Key P passphrase salt 4096 32 in
    if decide (length ciphertext < NonceSize)%nat then Panics
    else
      let nonce := take NonceSize ciphertext in
      let ciphertext := drop NonceSize ciphertext in
      match Open G dk nonce ciphertext with
      | Err err => Returns (Err err)
      | Ok cleartext => Returns (Inflate C cleartext)
      end.

End Encryption.

(** ** The S3 backend (package [s3])

    The repository keeps everything in one bucket, under object names it
    makes of ids and checksums.  The functions below are those names and
    the loops that read them back from a listing of the bucket; the
    listing, which the minio client delivers, is given by the names of its
    objects. *)

Module S3.
Import GoStrings.

(** A call either returns or panics ([uuid.MustParse]). *)
Inductive run (A : Type) : Type :=
| Returns (a : A)
| Panics.
Arguments Returns {A} a.
Arguments Panics {A}.

(** [s[n:]] for [n] within the string. *)
Definition sliceFrom (n : nat) (s : string) : string :=
  String.substring n (String.length s - n) s.

(** *** Hexadecimal: the [%x] verb on bytes and [hex.DecodeString] *)

Definition hexDigit (n : N) : ascii :=
  nth (N.to_nat n) (list_ascii_of_string "0123456789abcdef") "0"%char.

(** [%02x] of a byte. *)
Definition fmt_02x (b : byte) : string :=
  String (hexDigit (Byte.to_N b / 16)) (String (hexDigit (Byte.to_N b mod 16)) "").

(** [%x] of a [[32]byte], two characters per byte.  The widths of [%016x]
    and [%064x] add nothing to its 64 characters. *)
Fixpoint fmt_x (bs : list byte) : string :=
  match bs with
  | [] => ""
  | b :: rest => fmt_02x b +:+ fmt_x rest
  end.

Inductive hexError :=
| InvalidByteError (c : ascii)
| ErrLength.

Definition fromHexChar (c : ascii) : option N :=
  let n := N_of_ascii c in
  if (48 <=? n)%N && (n <=? 57)%N then Some (n - 48)%N
  else if (97 <=? n)%N && (n <=? 102)%N then Some (n - 97 + 10)%N
  else if (65 <=? n)%N && (n <=? 70)%N then Some (n - 65 + 10)%N
  else None.

Definition byteOf (hi lo : N) : byte :=
  default x00 (Byte.of_N (hi * 16 + lo)).

Fixpoint DecodeString (s : string) : result hexError (list byte) :=
  match s with
  | EmptyString => Ok []
  | String p EmptyString =>
      match fromHexChar p with
      | None => Err (InvalidByteError p)
      | Some _ => Err ErrLength
      end
  | String p (String q rest) =>
      match fromHexChar p with
      | None => Err (InvalidByteError p)
      | Some a =>
          match fromHexChar q with
          | None => Err (InvalidByteError q)
          | Some b =>
              match DecodeString rest with
              | Err err => Err err
              | Ok bs => Ok (byteOf a b :: bs)
              end
          end
      end
  end.

(** *** [uuid.UUID]

    The package is not part of the sources: [String] gives the 36
    characters of the canonical form, which [Parse] reads back. *)
Record UUIDs := {
  UUID : Type;
  uuid_String : UUID -> string;
  uuid_Parse : string -> option UUID;
  uuid_String_length : forall u, String.length (uuid_String u) = 36%nat;
  uuid_Parse_String : forall u, uuid_Parse (uuid_String u) = Some u
}.

(** *** Object names *)

(** The name [PutSnapshot], [GetSnapshot], [DeleteSnapshot] and [Commit]
    use for a snapshot: [SNAPSHOT/%s/%s] of the first two characters of
    the id and the id. *)
Definition snapshotName (U : UUIDs) (indexID : UUID U) : string :=
  "SNAPSHOT/" +:+ String.substring 0 2 (uuid_String U indexID) +:+ "/"
  +:+ uuid_String U indexID.

(** [BLOB/%02x/%016x], [CHUNK/%02x/%064x] and [OBJECT/%02x/%064x] of the
    first byte of the checksum and the checksum. *)
Definition blobName (checksum : list byte) : string :=
  "BLOB/" +:+ fmt_02x (hd x00 checksum) +:+ "/" +:+ fmt_x checksum.

Definition chunkName (checksum : list byte) : string :=
  "CHUNK/" +:+ fmt_02x (hd x00 checksum) +:+ "/" +:+ fmt_x checksum.

Definition objectName (checksum : list byte) : string :=
  "OBJECT/" +:+ fmt_02x (hd x00 checksum) +:+ "/" +:+ fmt_x checksum.

(** *** Reading a listing back *)

(** The loop of [GetSnapshots] over the names listed. *)
Fixpoint GetSnapshots_loop (U : UUIDs) (listed : list string) (ret : list (UUID U))
  : run (list (UUID U)) :=
  match listed with
  | [] => Returns ret
  | key :: rest =>
      if HasPrefix key "SNAPSHOT/" && (12 <=? String.length key)%nat then
        match uuid_Parse U (sliceFrom 12 key) with
        | None => Panics
        | Some id => GetSnapshots_loop U rest (ret ++ [id])
        end
      else GetSnapshots_loop U rest ret
  end.

Definition GetSnapshots (U : UUIDs) (listed : list string) : run (list (UUID U)) :=
  GetSnapshots_loop U listed [].

(** The loop of [GetBlobs]. *)
Fixpoint GetBlobs_loop (listed : list string) (ret : list (list byte))
  : result hexError (list (list byte)) :=
  match listed with
  | [] => Ok ret
  | key :: rest =>
      if HasPrefix key "BLOB/" && (8 <=? String.length key)%nat then
        match DecodeString (sliceFrom 8 key) with
        | Err err => Err err
        | Ok t =>
            if negb (length t =? 32)%nat then GetBlobs_loop rest ret
            else GetBlobs_loop rest (ret ++ [t])
        end
      else GetBlobs_loop rest ret
  end.

Definition GetBlobs (listed : list string) : result hexError (list (list byte)) :=
  GetBlobs_loop listed [].

(** [copy(key[:], s)] into a zeroed [[32]byte]. *)
Definition copy32 (s : string) : list byte :=
  take 32 (list_byte_of_string s ++ repeat x00 32).

(** [GetChunks] and [GetObjects]: the names that begin with [CHUNK:] and
    with [OBJECT:]. *)
Fixpoint GetChunks (listed : list string) : list (list byte) :=
  match listed with
  | [] => []
  | key :: rest =>
      if HasPrefix key "CHUNK:" then copy32 (sliceFrom 6 key) :: GetChunks rest
      else GetChunks rest
  end.

Fixpoint GetObjects (listed : list string) : list (list byte) :=
  match listed with
  | [] => []
  | key :: rest =>
      if HasPrefix key "OBJECT:" then copy32 (sliceFrom 7 key) :: GetObjects rest
      else GetObjects rest
  end.

End S3.

(** * Part II: properties *)

(** ** Facts about [Split], [Join] and [Clean] *)

Module PathFacts.
Import GoStrings Filepath.

(** No byte of [s] is the separator. *)
Fixpoint sep_free (sep : ascii) (s : string) : bool :=
  match s with
  | EmptyString => true
  | String c s' => negb (Ascii.eqb c sep) && sep_free sep s'
  end.

Lemma Split_sep_free sep x : sep_free sep x = true -> Split x sep = [x].
Proof.
  induction x as [|c x IH]; simpl; [done|].
  intros [Hc Hx]%andb_prop. apply negb_true_iff in Hc. rewrite Hc, (IH Hx). done.
Qed.

Lemma Split_app_sep sep x r :
  sep_free sep x = true -> Split (x +:+ String sep r) sep = x :: Split r sep.
Proof.
  induction x as [|c x IH]; simpl.
  - intros _. by rewrite Ascii.eqb_refl.
  - intros [Hc Hx]%andb_prop. apply negb_true_iff in Hc. rewrite Hc, (IH Hx). done.
Qed.

Lemma Split_Join sep elems :
  elems <> [] -> Forall (fun e => sep_free sep e = true) elems ->
  Split (Join elems (String sep "")) sep = elems.
Proof.
  induction elems as [|x [|y r] IH]; intros Hne Hall; [done| |].
  - simpl. apply Split_sep_free. by inversion Hall.
  - inversion Hall as [|? ? Hx Hr]; subst.
    change (Join (x :: y :: r) (String sep "")) with (x +:+ String sep (Join (y :: r) (String sep ""))).
    rewrite Split_app_sep by done. f_equal. by apply IH.
Qed.

Lemma Split_all_sep_free sep s : Forall (fun e => sep_free sep e = true) (Split s sep).
Proof.
  induction s as [|c s IH]; simpl; [by repeat constructor|].
  destruct (Ascii.eqb c sep) eqn:Hc.
  - by constructor.
  - destruct (Split s sep) as [|x xs]; inversion IH; subst; constructor; simpl; rewrite ?Hc; auto.
Qed.

Definition real (e : string) : Prop :=
  e <> "" /\ e <> "." /\ e <> ".." /\ sep_free "/" e = true.

(** What [Clean]'s scan has written: real elements, over [..] elements at
    the bottom that only a path that is not rooted has. *)
Definition written (rooted : bool) (out : list string) : Prop :=
  exists rs k, out = rs ++ repeat ".." k /\ Forall real rs /\ (rooted = true -> k = O).

Lemma clean_elem_written rooted out e :
  sep_free "/" e = true -> written rooted out -> written rooted (clean_elem rooted out e).
Proof.
  intros He (rs & k & -> & Hrs & Hk). unfold clean_elem.
  destruct (String.eqb_spec e ""); [by exists rs, k|].
  destruct (String.eqb_spec e "."); [by exists rs, k|].
  destruct (String.eqb_spec e "..") as [->|].
  - destruct rs as [|r rs]; simpl.
    + destruct k as [|k]; simpl.
      * destruct rooted; [by exists [], O|]. by exists [], 1%nat.
      * exists [], (S (S k)). split; [done|]. split; [done|]. intros Hr. by specialize (Hk Hr).
    + inversion Hrs as [|? ? Hr Hrs']; subst.
      destruct (String.eqb_spec r "..") as [->|]; [by destruct Hr as (_ & _ & ? & _)|].
      by exists rs, k.
  - exists (e :: rs), k. split; [done|]. split; [|done]. constructor; [|done]. by repeat split.
Qed.

Lemma fold_clean_written rooted elems out :
  Forall (fun e => sep_free "/" e = true) elems -> written rooted out ->
  written rooted (fold_left (clean_elem rooted) elems out).
Proof.
  revert out. induction elems as [|e elems IH]; intros out Hall Hw; simpl; [done|].
  inversion Hall; subst. apply IH; [done|]. by apply clean_elem_written.
Qed.

Lemma clean_elem_dots acc :
  Forall (fun e => e = "..") acc -> clean_elem false acc ".." = ".." :: acc.
Proof. intros Hacc. destruct acc as [|a acc]; [done|]. inversion Hacc; subst. done. Qed.

Lemma fold_clean_dots k acc :
  Forall (fun e => e = "..") acc ->
  fold_left (clean_elem false) (repeat ".." k) acc = repeat ".." k ++ acc.
Proof.
  revert acc. induction k as [|k IH]; intros acc Hacc; [done|].
  cbn [repeat fold_left]. rewrite clean_elem_dots by done.
  rewrite IH by (by constructor).
  rewrite repeat_cons, <- app_assoc. done.
Qed.

Lemma fold_clean_reals rooted rs acc :
  Forall real rs -> fold_left (clean_elem rooted) rs acc = rev rs ++ acc.
Proof.
  revert acc. induction rs as [|r rs IH]; intros acc Hrs; simpl; [done|].
  inversion Hrs as [|? ? (H1 & H2 & H3 & H4) Hrs']; subst.
  rewrite IH by done. unfold clean_elem.
  destruct (String.eqb_spec r ""); [done|].
  destruct (String.eqb_spec r "."); [done|].
  destruct (String.eqb_spec r ".."); [done|].
  by rewrite <- app_assoc.
Qed.

Lemma rev_repeat {A} (x : A) k : rev (repeat x k) = repeat x k.
Proof.
  induction k as [|k IH]; simpl; [done|]. rewrite IH. by rewrite <- repeat_cons.
Qed.

Lemma fold_clean_again rooted out :
  written rooted out -> fold_left (clean_elem rooted) (rev out) [] = out.
Proof.
  intros (rs & k & -> & Hrs & Hk). rewrite rev_app_distr, rev_repeat, fold_left_app.
  assert (fold_left (clean_elem rooted) (repeat ".." k) [] = repeat ".." k) as ->.
  { destruct rooted.
    - by rewrite (Hk eq_refl).
    - rewrite fold_clean_dots by done. by rewrite app_nil_r. }
  rewrite fold_clean_reals by by apply Forall_rev.
  by rewrite rev_involutive.
Qed.

Lemma written_sep_free rooted out :
  written rooted out -> Forall (fun e => sep_free "/" e = true) out.
Proof.
  intros (rs & k & -> & Hrs & _). apply Forall_app. split.
  - eapply Forall_impl; [exact Hrs|]. by intros e (_ & _ & _ & ?).
  - apply List.Forall_forall. intros e He. apply repeat_spec in He. by subst.
Qed.

Lemma written_head rooted out :
  written rooted out -> out <> [] ->
  exists c s, Join (rev out) "/" = String c s /\ Ascii.eqb c "/" = false.
Proof.
  intros (rs & k & -> & Hrs & Hk) Hne.
  rewrite rev_app_distr, rev_repeat.
  assert (exists e l, repeat ".." k ++ rev rs = e :: l /\ e <> "" /\ sep_free "/" e = true)
    as (e & l & -> & Hne' & Hsf).
  { destruct k as [|k]; simpl.
    - destruct (rev rs) as [|e l] eqn:Hrev.
      + apply (f_equal (@rev _)) in Hrev. rewrite rev_involutive in Hrev. subst. by simpl in Hne.
      + assert (real e) as (? & _ & _ & ?).
        { apply (proj1 (List.Forall_forall _ _) Hrs). apply in_rev. rewrite Hrev. by left. }
        by exists e, l.
    - by exists "..", (repeat ".." k ++ rev rs). }
  destruct e as [|c e]; [done|]. simpl in Hsf. apply andb_prop in Hsf as [Hc _].
  apply negb_true_iff in Hc.
  exists c. destruct l; simpl; eauto.
Qed.

Lemma Clean_render c path :
  Clean (String c path) =
  render (Ascii.eqb c "/") (fold_left (clean_elem (Ascii.eqb c "/")) (Split (String c path) "/") []).
Proof. reflexivity. Qed.

Lemma rev_not_nil {A} (l : list A) : l <> [] -> rev l <> [].
Proof.
  intros Hne Hrev. apply (f_equal (@rev _)) in Hrev. by rewrite rev_involutive in Hrev.
Qed.

Lemma Clean_of_render rooted out :
  written rooted out -> Clean (render rooted out) = render rooted out.
Proof.
  intros Hw. destruct rooted; unfold render.
  - change ("/" +:+ Join (rev out) "/") with (String "/" (Join (rev out) "/")).
    rewrite Clean_render. rewrite Ascii.eqb_refl. unfold render.
    change (Split (String "/" (Join (rev out) "/")) "/") with
      ("" :: Split (Join (rev out) "/") "/").
    cbn [fold_left]. change (clean_elem true [] "") with (@nil string).
    destruct (decide (out = [])) as [->|Hne]; [done|].
    rewrite Split_Join.
    + by rewrite fold_clean_again.
    + by apply rev_not_nil.
    + apply Forall_rev. by eapply written_sep_free.
  - destruct (decide (out = [])) as [->|Hne]; [done|].
    destruct (written_head _ _ Hw Hne) as (c' & s & HJ & Hc').
    assert (Clean (Join (rev out) "/") = Join (rev out) "/") as Hgoal.
    { rewrite HJ, Clean_render, Hc', <- HJ. unfold render.
      rewrite Split_Join.
      - rewrite fold_clean_again by done. by destruct out.
      - by apply rev_not_nil.
      - apply Forall_rev. by eapply written_sep_free. }
    by destruct out.
Qed.

Lemma Clean_idempotent path : Clean (Clean path) = Clean path.
Proof.
  destruct path as [|c path]; [done|].
  rewrite Clean_render. apply Clean_of_render.
  apply fold_clean_written; [apply Split_all_sep_free|]. by exists [], O.
Qed.

(** *** Paths of real elements *)

Lemma real_sep_free atoms :
  Forall real atoms -> Forall (fun e => sep_free "/" e = true) atoms.
Proof. intros H. eapply Forall_impl; [exact H|]. by intros e (_ & _ & _ & ?). Qed.

Lemma written_reals atoms : Forall real atoms -> written true (rev atoms).
Proof. intros H. exists (rev atoms), O. rewrite app_nil_r. by split; [|split; [apply Forall_rev|]]. Qed.

Lemma append_assoc (a b c : string) : (a +:+ b) +:+ c = a +:+ (b +:+ c).
Proof.
  induction a as [|x a IH]; [reflexivity|].
  change (String x ((a +:+ b) +:+ c) = String x (a +:+ b +:+ c)). by rewrite IH.
Qed.

Lemma Join_snoc atoms name :
  atoms <> [] -> Join (atoms ++ [name]) "/" = Join atoms "/" +:+ "/" +:+ name.
Proof.
  induction atoms as [|a [|b atoms] IH]; intros Hne; [done| |].
  - done.
  - change (Join ((a :: b :: atoms) ++ [name]) "/")
      with (a +:+ "/" +:+ Join ((b :: atoms) ++ [name]) "/").
    rewrite IH by done.
    change (Join (a :: b :: atoms) "/") with (a +:+ "/" +:+ Join (b :: atoms) "/").
    by rewrite !append_assoc.
Qed.

End PathFacts.

Example Split_ex : GoStrings.Split "/a/b" "/" = [""; "a"; "b"].
Proof. reflexivity. Qed.
Example Clean_ex1 : Filepath.Clean "/a/./b/../c//" = "/a/c".
Proof. reflexivity. Qed.
Example Clean_ex2 : Filepath.Clean "../a/../../b" = "../../b".
Proof. reflexivity. Qed.
Example Clean_ex3 : Filepath.Clean "a/.." = ".".
Proof. reflexivity. Qed.
Example Clean_ex4 : Filepath.Clean "/../.." = "/".
Proof. reflexivity. Qed.
Example TrimSpace_ex : GoStrings.TrimSpace "  -Tags	 " = "-Tags".
Proof. reflexivity. Qed.

(** ** The order of Go strings *)

Module StringOrder.

Lemma compare_refl a : String.compare a a = Eq.
Proof. by apply OrderedTypeEx.String_as_OT.cmp_eq. Qed.

Lemma compare_Eq a b : String.compare a b = Eq -> a = b.
Proof. apply OrderedTypeEx.String_as_OT.cmp_eq. Qed.

Lemma compare_Lt_trans a b c :
  String.compare a b = Lt -> String.compare b c = Lt -> String.compare a c = Lt.
Proof.
  intros H1 H2. apply OrderedTypeEx.String_as_OT.cmp_lt.
  eapply OrderedTypeEx.String_as_OT.lt_trans; by apply OrderedTypeEx.String_as_OT.cmp_lt.
Qed.

Lemma compare_Gt_Lt a b : String.compare a b = Gt <-> String.compare b a = Lt.
Proof.
  rewrite (String.compare_antisym b a). destruct (String.compare a b); simpl; split; congruence.
Qed.

End StringOrder.

(** ** The laws of the comparisons *)

Module OrderingFacts.
Import Ordering.

Section Laws.
Context {A : Type}.

Lemma law_sym_Lt (c : A -> A -> comparison) a b :
  Lawful c -> c a b = Gt -> c b a = Lt.
Proof. intros L H. rewrite (law_sym c L a b), H. done. Qed.

Lemma law_sym_Eq (c : A -> A -> comparison) a b :
  Lawful c -> c a b = Eq -> c b a = Eq.
Proof. intros L H. rewrite (law_sym c L a b), H. done. Qed.

Lemma law_eq_r (c : A -> A -> comparison) a b x :
  Lawful c -> c a b = Eq -> c x a = c x b.
Proof.
  intros L H. rewrite (law_sym c L a x), (law_sym c L b x). f_equal. by apply law_eq.
Qed.

Lemma Lawful_flip (c : A -> A -> comparison) : Lawful c -> Lawful (fun a b => c b a).
Proof.
  intros L. split.
  - intros a. apply (law_refl c L).
  - intros a b. apply (law_sym c L).
  - intros a b d H1 H2. by apply (law_trans c L d b a).
  - intros a b x H. apply law_eq_r; [done|]. by apply law_sym_Eq.
Qed.

Lemma Lawful_on {B} (f : B -> A) (c : A -> A -> comparison) :
  Lawful c -> Lawful (fun a b => c (f a) (f b)).
Proof.
  intros L. split.
  - intros a. apply (law_refl c L).
  - intros a b. apply (law_sym c L).
  - intros a b d. apply (law_trans c L).
  - intros a b x. apply (law_eq c L).
Qed.

Lemma Lawful_const : Lawful (fun _ _ : A => Eq).
Proof. by split. Qed.

Lemma Lawful_then (c1 c2 : A -> A -> comparison) :
  Lawful c1 -> Lawful c2 -> Lawful (then_cmp c1 c2).
Proof.
  intros L1 L2. unfold then_cmp. split.
  - intros a. by rewrite (law_refl c1 L1), (law_refl c2 L2).
  - intros a b. rewrite (law_sym c1 L1 a b). destruct (c1 a b); simpl; [|done|done].
    apply (law_sym c2 L2).
  - intros a b d.
    destruct (c1 a b) eqn:E1; [| |done]; destruct (c1 b d) eqn:E2; try done.
    + rewrite (law_eq c1 L1 a b d E1), E2. apply (law_trans c2 L2).
    + intros _ _. by rewrite (law_eq c1 L1 a b d E1), E2.
    + intros _ _. by rewrite <- (law_eq_r c1 b d a L1 E2), E1.
    + intros _ _. by rewrite (law_trans c1 L1 a b d E1 E2).
  - intros a b x. destruct (c1 a b) eqn:E1; [|done|done].
    intros E2. rewrite (law_eq c1 L1 a b x E1). destruct (c1 b x); [|done|done].
    by apply (law_eq c2 L2).
Qed.

Lemma Lawful_lex (c : A -> A -> comparison) : Lawful c -> Lawful (lex_cmp c).
Proof.
  intros L. split.
  - induction a as [|x a IH]; simpl; [done|]. by rewrite (law_refl c L).
  - induction a as [|x a IH]; intros [|y b]; simpl; try done.
    rewrite (law_sym c L x y). destruct (c x y); simpl; auto.
  - induction a as [|x a IH]; intros [|y b] [|z d]; simpl; try done.
    destruct (c x y) eqn:E1; [| |done]; destruct (c y z) eqn:E2; try done.
    + rewrite (law_eq c L x y z E1), E2. apply IH.
    + intros _ _. by rewrite (law_eq c L x y z E1), E2.
    + intros _ _. by rewrite <- (law_eq_r c y z x L E2), E1.
    + intros _ _. by rewrite (law_trans c L x y z E1 E2).
  - induction a as [|x a IH]; intros [|y b] d; simpl; try done.
    destruct (c x y) eqn:E1; [|done|done]. intros E2.
    destruct d as [|z d]; [done|].
    rewrite (law_eq c L x y z E1). destruct (c y z); [|done|done]. by apply IH.
Qed.

Lemma Lawful_swo (c : A -> A -> comparison) : Lawful c -> StrictWeakOrder (ltb_of c).
Proof.
  intros L. unfold ltb_of. split.
  - intros a. by rewrite (law_refl c L).
  - intros a b d. destruct (c a b) eqn:E1; try done. destruct (c b d) eqn:E2; try done.
    by rewrite (law_trans c L a b d E1 E2).
  - intros a b d. destruct (c a b) eqn:E1; [|done|].
    + intros _. by rewrite (law_eq c L a b d E1).
    + intros _ H. destruct (c a d) eqn:E3; [done| |done].
      apply (law_sym_Lt c a b L) in E1.
      by rewrite (law_trans c L b a d E1 E3) in H.
Qed.

(** Where a comparison's [Eq] is equality, the first difference decides a
    lexicographic comparison, and the lengths do where there is none. *)
Lemma lex_cmp_first_diff (c : A -> A -> comparison) (eqb : A -> A -> bool) a b :
  (forall x y, eqb x y = true <-> c x y = Eq) ->
  lex_cmp c a b =
  match first_diff eqb a b with
  | Some (x, y) => c x y
  | None => Nat.compare (length a) (length b)
  end.
Proof.
  intros Heq. revert b. induction a as [|x a IH]; intros [|y b]; simpl; try done.
  destruct (eqb x y) eqn:E.
  - apply Heq in E. rewrite E. apply IH.
  - destruct (c x y) eqn:E'; [|done|done]. apply Heq in E'. congruence.
Qed.

Lemma first_diff_differ (c : A -> A -> comparison) (eqb : A -> A -> bool) a b x y :
  (forall x y, eqb x y = true <-> c x y = Eq) ->
  first_diff eqb a b = Some (x, y) -> c x y <> Eq.
Proof.
  intros Heq. revert b. induction a as [|x' a IH]; intros [|y' b]; simpl; try done.
  destruct (eqb x' y') eqn:E; [apply IH|].
  intros [= -> ->] E'. apply Heq in E'. congruence.
Qed.

End Laws.

Lemma Lawful_Z : Lawful Z.compare.
Proof.
  split.
  - apply Z.compare_refl.
  - intros a b. apply Z.compare_antisym.
  - intros a b d. rewrite !Z.compare_lt_iff. lia.
  - intros a b x H. apply Z.compare_eq in H. by subst.
Qed.

Lemma Lawful_N : Lawful N.compare.
Proof.
  split.
  - apply N.compare_refl.
  - intros a b. apply N.compare_antisym.
  - intros a b d. rewrite !N.compare_lt_iff. lia.
  - intros a b x H. apply N.compare_eq in H. by subst.
Qed.

Lemma Lawful_nat : Lawful Nat.compare.
Proof.
  split.
  - apply Nat.compare_refl.
  - intros a b. apply Nat.compare_antisym.
  - intros a b d. rewrite !Nat.compare_lt_iff. lia.
  - intros a b x H. apply Nat.compare_eq in H. by subst.
Qed.

Lemma Lawful_string : Lawful String.compare.
Proof.
  split.
  - apply StringOrder.compare_refl.
  - intros a b. apply String.compare_antisym.
  - apply StringOrder.compare_Lt_trans.
  - intros a b x H. apply StringOrder.compare_Eq in H. by subst.
Qed.

End OrderingFacts.

(** ** Encodings with a decoder

    The encodings the stand-ins for the serialization library are made of:
    each comes with a decoder that reads back what was encoded and leaves
    the bytes that follow. *)

Module Codecs.

Record Codec (A : Type) := {
  enc : A -> list byte;
  dec : list byte -> option (A * list byte);
  dec_enc : forall a rest, dec (enc a ++ rest) = Some (a, rest)
}.
Arguments enc {A} _ _.
Arguments dec {A} _ _.
Arguments dec_enc {A} _ _ _.

Definition byteC : Codec byte.
Proof.
  refine {| enc := fun b => [b];
            dec := fun bs => match bs with b :: r => Some (b, r) | [] => None end |}.
  done.
Defined.

Fixpoint dec_nat (bs : list byte) : option (nat * list byte) :=
  match bs with
  | x00 :: r => Some (O, r)
  | x01 :: r => match dec_nat r with Some (n, r') => Some (S n, r') | None => None end
  | _ => None
  end.

Definition natC : Codec nat.
Proof.
  refine {| enc := fun n => repeat x01 n ++ [x00]; dec := dec_nat |}.
  intros n rest. induction n as [|n IH]; simpl; [done|]. by rewrite IH.
Defined.

Definition pairC {A B} (ca : Codec A) (cb : Codec B) : Codec (A * B).
Proof.
  refine {| enc := fun p => enc ca (fst p) ++ enc cb (snd p);
            dec := fun bs =>
              match dec ca bs with
              | Some (a, r) =>
                  match dec cb r with
                  | Some (b, r') => Some ((a, b), r')
                  | None => None
                  end
              | None => None
              end |}.
  intros [a b] rest. simpl. by rewrite <- app_assoc, !dec_enc.
Defined.

(** A codec carried along a pair of functions, the second undoing the first. *)
Definition isoC {A B} (ca : Codec A) (f : B -> A) (g : A -> B)
    (Hgf : forall b, g (f b) = b) : Codec B.
Proof.
  refine {| enc := fun b => enc ca (f b);
            dec := fun bs =>
              match dec ca bs with
              | Some (a, r) => Some (g a, r)
              | None => None
              end |}.
  intros b rest. by rewrite dec_enc, Hgf.
Defined.

Fixpoint dec_n {A} (ca : Codec A) (n : nat) (bs : list byte) : option (list A * list byte) :=
  match n with
  | O => Some ([], bs)
  | S n' =>
      match dec ca bs with
      | Some (a, r) =>
          match dec_n ca n' r with
          | Some (l, r') => Some (a :: l, r')
          | None => None
          end
      | None => None
      end
  end.

Definition enc_all {A} (ca : Codec A) (l : list A) : list byte :=
  concat (map (enc ca) l).

Lemma dec_n_enc_all {A} (ca : Codec A) l rest :
  dec_n ca (length l) (enc_all ca l ++ rest) = Some (l, rest).
Proof.
  unfold enc_all. induction l as [|a l IH]; simpl; [done|].
  by rewrite <- app_assoc, dec_enc, IH.
Qed.

Definition listC {A} (ca : Codec A) : Codec (list A).
Proof.
  refine {| enc := fun l => enc natC (length l) ++ enc_all ca l;
            dec := fun bs =>
              match dec natC bs with
              | Some (n, r) => dec_n ca n r
              | None => None
              end |}.
  intros l rest. by rewrite <- app_assoc, dec_enc, dec_n_enc_all.
Defined.

Definition stringC : Codec string :=
  isoC (listC byteC) list_byte_of_string string_of_list_byte string_of_list_byte_of_string.

(** Binary numbers: the bits of a positive number, least first, behind a
    tag for zero and for the sign. *)
Fixpoint enc_pos (p : positive) : list byte :=
  match p with
  | xH => [x02]
  | xO q => x00 :: enc_pos q
  | xI q => x01 :: enc_pos q
  end.

Fixpoint dec_pos (bs : list byte) : option (positive * list byte) :=
  match bs with
  | x02 :: r => Some (xH, r)
  | x00 :: r => match dec_pos r with Some (q, r') => Some (xO q, r') | None => None end
  | x01 :: r => match dec_pos r with Some (q, r') => Some (xI q, r') | None => None end
  | _ => None
  end.

Lemma dec_enc_pos p rest : dec_pos (enc_pos p ++ rest) = Some (p, rest).
Proof. induction p as [q IH|q IH|]; simpl; [by rewrite IH|by rewrite IH|done]. Qed.

Definition ZC : Codec Z.
Proof.
  refine {| enc := fun z => match z with
                            | Z0 => [x00]
                            | Zpos p => x01 :: enc_pos p
                            | Zneg p => x02 :: enc_pos p
                            end;
            dec := fun bs => match bs with
                             | x00 :: r => Some (Z0, r)
                             | x01 :: r =>
                                 match dec_pos r with
                                 | Some (p, r') => Some (Zpos p, r')
                                 | None => None
                                 end
                             | x02 :: r =>
                                 match dec_pos r with
                                 | Some (p, r') => Some (Zneg p, r')
                                 | None => None
                                 end
                             | _ => None
                             end |}.
  intros [|p|p] rest; simpl; [done| |]; by rewrite dec_enc_pos.
Defined.

End Codecs.

(** ** Properties of the VFS index *)

Module VFSFacts.
Import GoStrings Filepath PathFacts VFS StringOrder Codecs.

#[local] Instance string_le_trans : Transitive string_le.
Proof.
  intros a b c Hab Hbc. unfold string_le in *.
  destruct (String.compare a b) eqn:E1; [apply compare_Eq in E1; by subst| |congruence].
  destruct (String.compare b c) eqn:E2; [apply compare_Eq in E2; subst; congruence| |congruence].
  by rewrite (compare_Lt_trans _ _ _ E1 E2).
Qed.

#[local] Instance string_le_total : Total string_le.
Proof.
  intros a b. unfold string_le. rewrite (String.compare_antisym b a).
  destruct (String.compare a b); simpl; [left|left|right]; congruence.
Qed.

Lemma StronglySorted_le_lt (xs : list string) :
  StronglySorted string_le xs -> NoDup xs -> StronglySorted string_lt xs.
Proof.
  induction 1 as [|x xs Hs IH Hx]; intros Hnd; [constructor|].
  apply NoDup_cons in Hnd as [Hnin Hnd].
  constructor; [by apply IH|].
  apply List.Forall_forall. intros y Hy.
  pose proof (proj1 (List.Forall_forall _ _) Hx y Hy) as Hle.
  unfold string_le, string_lt in *.
  destruct (String.compare x y) eqn:E; [|done|done].
  apply compare_Eq in E. subst. exfalso. apply Hnin. by apply list_elem_of_In.
Qed.

Lemma sort_Strings_sorted (l : list string) :
  NoDup l -> StronglySorted string_lt (sort_Strings l).
Proof.
  intros Hnd. unfold sort_Strings. apply StronglySorted_le_lt.
  - apply (StronglySorted_merge_sort _).
  - by rewrite merge_sort_Permutation.
Qed.

Lemma sort_Strings_elem (l : list string) a : In a (sort_Strings l) <-> In a l.
Proof.
  unfold sort_Strings. rewrite <- !list_elem_of_In.
  by rewrite merge_sort_Permutation.
Qed.

(** [q] is the node reached from [p] by descending one child per atom. *)
Inductive reaches : FilesystemNode -> list string -> FilesystemNode -> Prop :=
| reaches_nil p : reaches p [] p
| reaches_cons p atom rest tmp q :
    Children p !! atom = Some tmp -> reaches tmp rest q -> reaches p (atom :: rest) q.

Lemma walk_Ok p atoms q : walk p atoms = Ok q <-> reaches p atoms q.
Proof.
  revert p. induction atoms as [|a atoms IH]; intros p; simpl.
  - split; [intros [= ->]; constructor|]. by inversion 1.
  - destruct (Children p !! a) as [tmp|] eqn:E.
    + rewrite IH. split; [by econstructor|]. inversion 1; subst. congruence.
    + split; [done|]. inversion 1; subst. congruence.
Qed.

Lemma walk_Err p atoms e :
  walk p atoms = Err e <->
  e = ErrNotExist /\
  exists pre a post n, atoms = pre ++ a :: post /\ reaches p pre n /\ Children n !! a = None.
Proof.
  revert p. induction atoms as [|a atoms IH]; intros p; simpl.
  - split; [done|]. intros (_ & pre & a & post & n & H & _). by destruct pre.
  - destruct (Children p !! a) as [tmp|] eqn:E.
    + rewrite IH. split.
      * intros (-> & pre & a' & post & n & -> & Hr & Hn). split; [done|].
        exists (a :: pre), a', post, n. split; [done|]. split; [by econstructor|done].
      * intros (-> & pre & a' & post & n & Heq & Hr & Hn). split; [done|].
        destruct pre as [|a0 pre]; simpl in Heq; injection Heq as <- Heq.
        -- inversion Hr; subst. congruence.
        -- inversion Hr; subst. exists pre, a', post, n. split; [done|]. split; [congruence|done].
    + split.
      * intros [= <-]. split; [done|]. exists [], a, atoms, p. split; [done|]. split; [constructor|done].
      * by intros (-> & _).
Qed.

Lemma canonical_idempotent p : canonical (canonical p) = canonical p.
Proof.
  unfold canonical, ToSlash.
  destruct (String.eqb_spec (Clean p) ".") as [E|E]; [done|].
  rewrite Clean_idempotent. by destruct (String.eqb_spec (Clean p) ".").
Qed.

Lemma Split_cons_sep s sep : Split (String sep s) sep = "" :: Split s sep.
Proof. simpl. by rewrite Ascii.eqb_refl. Qed.

Lemma Lookup_canonical f p : Lookup f (canonical p) = Lookup f p.
Proof. unfold Lookup. by rewrite canonical_idempotent. Qed.

(** C10.  [addPathname] called with a pathname already interned returns
    the id assigned to it and changes nothing.  Called with a pathname seen
    for the first time it returns 0, the zero value, not the id it assigns:
    the pathname enters [Pathnames] and [pathnamesInverse] under the next
    sequential id [pathnameID], the counter moves on by one, and only a
    second call with the same pathname returns that id. *)
Theorem addPathname_first_returns_zero (f : Filesystem) (pathname : string) :
  (forall id, Pathnames f !! pathname = Some id -> addPathname f pathname = (f, id)) /\
  (Pathnames f !! pathname = None ->
   snd (addPathname f pathname) = 0 /\
   Pathnames (fst (addPathname f pathname)) = <[pathname := pathnameID f]> (Pathnames f) /\
   pathnamesInverse (fst (addPathname f pathname))
     = <[pathnameID f := pathname]> (pathnamesInverse f) /\
   pathnameID (fst (addPathname f pathname)) = u64 (pathnameID f + 1) /\
   addPathname (fst (addPathname f pathname)) pathname
     = (fst (addPathname f pathname), pathnameID f)).
Proof.
  unfold addPathname. split.
  - by intros id ->.
  - intros ->. simpl. repeat split. by rewrite lookup_insert_eq.
Qed.

(** A directory [/] holding one regular file [/f], built once and twice. *)
Definition dirInfo : FileInfo := mkFileInfo "/" 4096 (Z.lor ModeDir 493) 1 2.
Definition fileInfo : FileInfo := mkFileInfo "f" 5 420 1 3.
Definition builtOnce : Filesystem :=
  buildTree (buildTree NewFilesystem "/" dirInfo) "/f" fileInfo.
Definition builtTwice : Filesystem := buildTree builtOnce "/f" fileInfo.

Lemma addPathname_first_returns_zero_witness :
  addPathname builtOnce "/f" = (builtOnce, 1) /\
  snd (addPathname builtOnce "/g") = 0 /\
  Pathnames (fst (addPathname builtOnce "/g")) !! "/g" = Some 2.
Proof.
  pose proof (addPathname_first_returns_zero builtOnce "/f") as [H1 _].
  pose proof (addPathname_first_returns_zero builtOnce "/g") as [_ H2].
  split; [apply H1; reflexivity|].
  destruct (H2 eq_refl) as (H3 & H4 & _).
  split; [exact H3|]. rewrite H4. reflexivity.
Defined.


Lemma reaches_app_inv p pre a post q :
  reaches p (pre ++ a :: post) q ->
  exists n tmp, reaches p pre n /\ Children n !! a = Some tmp.
Proof.
  revert p. induction pre as [|b pre IH]; intros p; simpl;
    inversion 1 as [|? ? ? tmp ? Hch Hr]; subst.
  - eexists _, _. split; [constructor|done].
  - destruct (IH _ Hr) as (n & t & Hr' & Hc). exists n, t. split; [by econstructor|done].
Qed.

Lemma Lookup_walk f pathname rest :
  canonical pathname = String "/" rest -> rest <> "" ->
  Lookup f pathname = walk (Root f) (Split rest "/").
Proof.
  intros Hc Hne. unfold Lookup. rewrite Hc.
  destruct (String.eqb_spec (String "/" rest) "/") as [[=]|_]; [done|].
  by rewrite Split_cons_sep.
Qed.

(** C8, as amended.  [Lookup] of [.] and of [/] returns the root node, with
    no descent.  For a path whose canonical form is rooted (a [/] followed by
    a non-empty rest), [Lookup] descends atom by atom through the atoms of
    the rest: it returns the node reached when every atom is a child of the
    node before it, and [ErrNotExist] exactly when some atom is missing from
    the node reached by the atoms before it; so it returns [ErrNotExist]
    whenever an atom of the path is the name of no child anywhere in the
    tree. *)
Theorem Lookup_rooted (f : Filesystem) :
  Lookup f "." = Ok (Root f) /\
  Lookup f "/" = Ok (Root f) /\
  forall pathname rest,
    canonical pathname = String "/" rest -> rest <> "" ->
    (forall n, Lookup f pathname = Ok n <-> reaches (Root f) (Split rest "/") n) /\
    (Lookup f pathname = Err ErrNotExist <->
     exists pre a post n,
       Split rest "/" = pre ++ a :: post /\ reaches (Root f) pre n /\ Children n !! a = None) /\
    (forall a, In a (Split rest "/") ->
       (forall pre n, reaches (Root f) pre n -> Children n !! a = None) ->
       Lookup f pathname = Err ErrNotExist).
Proof.
  split; [done|]. split; [done|].
  intros pathname rest Hc Hne. rewrite (Lookup_walk f pathname rest Hc Hne).
  split; [intros n; apply walk_Ok|].
  split.
  - rewrite walk_Err. split; [by intros (_ & H)|by intros H].
  - intros a Ha Hmiss.
    destruct (walk (Root f) (Split rest "/")) as [n|e] eqn:E.
    + apply walk_Ok in E. apply in_split in Ha as (pre & post & Heq).
      rewrite Heq in E. apply reaches_app_inv in E as (n' & t & Hr & Hch).
      rewrite (Hmiss _ _ Hr) in Hch. done.
    + apply walk_Err in E as [-> _]. done.
Qed.

(** An absolute path with a missing atom, and one that resolves. *)
Lemma Lookup_rooted_witness :
  Lookup builtOnce "/g/../nope/f" = Err ErrNotExist /\
  (exists n, Lookup builtOnce "//f/." = Ok n /\ Inode n = "1,3").
Proof.
  destruct (Lookup_rooted builtOnce) as (_ & _ & H).
  split.
  - destruct (H "/g/../nope/f" "nope/f" eq_refl ltac:(discriminate)) as (_ & H2 & _).
    apply H2. exists [], "nope", ["f"], (Root builtOnce).
    split; [reflexivity|]. split; [constructor|reflexivity].
  - destruct (H "//f/." "f" eq_refl ltac:(discriminate)) as (H1 & _).
    eexists. split.
    + apply H1. econstructor; [|constructor]. reflexivity.
    + reflexivity.
Defined.

(** C8 as stated fails on a path that is not rooted: the cleaned form of
    [x] is [x], its atom [x] is the name of no node of the empty tree, and
    [Lookup] returns the root node instead of [ErrNotExist], because the
    first element of the split path is dropped unread. *)
Lemma Lookup_relative_counterexample :
  In "x" (Split (canonical "x") "/") /\
  (forall pre n, reaches (Root NewFilesystem) pre n -> Children n !! "x" = None) /\
  Lookup NewFilesystem "x" = Ok (Root NewFilesystem).
Proof.
  split; [by left|]. split; [|done].
  intros pre n Hr. inversion Hr; subst; done.
Qed.

(** C9.  [LookupChildren] of a path that does not resolve returns
    [ErrNotExist]; of a path that resolves to a node whose inode record is
    not a directory, [ErrInvalid] (the not-a-directory error); of a path
    that resolves to a node whose inode record is a directory, the names of
    the node's children, each once, in strictly ascending string order. *)
Theorem LookupChildren_sorted (f : Filesystem) (pathname : string) :
  (forall e, Lookup f pathname = Err e -> LookupChildren f pathname = Err ErrNotExist) /\
  (forall n, Lookup f pathname = Ok n ->
     IsDir (Mode (inodeOf f (Inode n))) = false ->
     LookupChildren f pathname = Err ErrInvalid) /\
  (forall n, Lookup f pathname = Ok n ->
     IsDir (Mode (inodeOf f (Inode n))) = true ->
     exists names,
       LookupChildren f pathname = Ok names /\
       StronglySorted string_lt names /\
       forall a, In a names <-> is_Some (Children n !! a)).
Proof.
  unfold LookupChildren. rewrite Lookup_canonical.
  split; [by intros e ->|]. split.
  - intros n -> Hd. by rewrite Hd.
  - intros n -> Hd. rewrite Hd. simpl. eexists. split; [done|]. split.
    + apply sort_Strings_sorted. apply NoDup_fst_map_to_list.
    + intros a. rewrite sort_Strings_elem, <- list_elem_of_In, list_elem_of_fmap. split.
      * intros ([a' c] & -> & Hin). apply elem_of_map_to_list in Hin. by eexists.
      * intros [c Hc]. exists (a, c). split; [done|]. by apply elem_of_map_to_list.
Qed.

Lemma LookupChildren_sorted_witness :
  LookupChildren builtOnce "/nope" = Err ErrNotExist /\
  LookupChildren builtOnce "/f" = Err ErrInvalid /\
  (exists names, LookupChildren builtOnce "." = Ok names /\ In "f" names).
Proof.
  destruct (LookupChildren_sorted builtOnce "/nope") as (H1 & _ & _).
  destruct (LookupChildren_sorted builtOnce "/f") as (_ & H2 & _).
  destruct (LookupChildren_sorted builtOnce ".") as (_ & _ & H3).
  split; [by apply (H1 ErrNotExist)|].
  split; [by eapply H2|].
  destruct (H3 _ eq_refl eq_refl) as (names & Hn & _ & Hin).
  exists names. split; [done|]. apply Hin. by eexists.
Defined.

(** C7, at the failing input.  [/] is built as a directory and [/f] as a
    regular file; building [/f] a second time leaves the tree as it is, with
    one regular-file node and one directory node, and moves the files
    counter from 1 to 2. *)
Theorem buildTree_counts_every_call :
  nFiles builtOnce = 1 /\
  nFiles builtTwice = 2 /\
  Root builtTwice = Root builtOnce /\
  count_nodes (fun i => IsRegular (Mode i)) builtTwice (Root builtTwice) = 1 /\
  nDirectories builtTwice = 1 /\
  count_nodes (fun i => IsDir (Mode i)) builtTwice (Root builtTwice) = 1.
Proof. vm_compute. done. Qed.

(** *** Building a path again *)

Lemma descend_again atoms inodeKey p :
  descend atoms inodeKey (descend atoms inodeKey p) = descend atoms inodeKey p.
Proof.
  revert p. induction atoms as [|atom rest IH]; intros p; simpl; [done|].
  rewrite lookup_insert_eq. simpl. rewrite IH. by rewrite insert_insert_eq.
Qed.

(** The key [addInode] gives a record, and the atoms [buildTree] descends
    by. *)
Definition inodeKeyOf (fileinfo : FileInfo) : string :=
  fmt_d (Dev fileinfo) +:+ "," +:+ fmt_d (Ino fileinfo).

Definition atomsOf (pathname : string) : list string :=
  if String.eqb pathname "/" then [] else tail (Split pathname "/").

Lemma buildTree_fields f pathname fileinfo :
  let g := buildTree f pathname fileinfo in
  is_Some (Inodes g !! inodeKeyOf fileinfo) /\
  is_Some (Pathnames g !! ToSlash (Clean pathname)) /\
  Root g = descend (atomsOf (ToSlash (Clean pathname))) (inodeKeyOf fileinfo) (Root f) /\
  statInfo g = <[ToSlash (Clean pathname) := fileinfo]> (statInfo f).
Proof.
  unfold buildTree, addInode, addPathname, atomsOf. fold (inodeKeyOf fileinfo).
  destruct (Inodes f !! inodeKeyOf fileinfo) as [old|] eqn:Hi;
    [destruct (Pathnames f !! ToSlash (Clean pathname)) as [id|] eqn:Hp
    |destruct (Pathnames (set_totalSize (u64 (totalSize f + u64 (Size fileinfo)))
         (set_Inodes (<[inodeKeyOf fileinfo:=fileinfo]> (Inodes f)) f))
                 !! ToSlash (Clean pathname)) as [id|] eqn:Hp];
    destruct (IsRegular (Mode fileinfo)); try destruct (IsDir (Mode fileinfo));
    simpl in *; rewrite ?Hi, ?Hp, ?lookup_insert_eq; done.
Qed.

Lemma Filesystem_eta f :
  mkFilesystem (Root f) (Inodes f) (pathnameID f) (Pathnames f) (pathnamesInverse f)
    (scannedDirectories f) (statInfo f) (Symlinks f) (nFiles f) (nDirectories f) (totalSize f)
  = f.
Proof. by destruct f. Qed.

(** Building a path again with the same record changes nothing but the
    counter of its kind, which moves on by one: the tree, the inodes, the
    pathnames and [statInfo] are those of the first build. *)
Theorem buildTree_again (f : Filesystem) (pathname : string) (fileinfo : FileInfo) :
  let g := buildTree f pathname fileinfo in
  buildTree g pathname fileinfo =
  if IsRegular (Mode fileinfo) then set_nFiles (u64 (nFiles g + 1)) g
  else if IsDir (Mode fileinfo) then set_nDirectories (u64 (nDirectories g + 1)) g
  else g.
Proof.
  intros g. destruct (buildTree_fields f pathname fileinfo) as ([i Hi] & [id Hp] & HR & HS).
  fold g in Hi, Hp, HR, HS.
  assert (buildTree g pathname fileinfo =
          let h := set_statInfo (<[ToSlash (Clean pathname) := fileinfo]> (statInfo g))
                     (set_Root (descend (atomsOf (ToSlash (Clean pathname)))
                                  (inodeKeyOf fileinfo) (Root g)) g) in
          if IsRegular (Mode fileinfo) then set_nFiles (u64 (nFiles h + 1)) h
          else if IsDir (Mode fileinfo) then set_nDirectories (u64 (nDirectories h + 1)) h
          else h) as ->.
  { unfold buildTree at 1, addInode, addPathname. fold (inodeKeyOf fileinfo).
    rewrite Hi. cbn zeta. rewrite Hp. reflexivity. }
  assert (set_statInfo (<[ToSlash (Clean pathname) := fileinfo]> (statInfo g))
            (set_Root (descend (atomsOf (ToSlash (Clean pathname)))
                         (inodeKeyOf fileinfo) (Root g)) g) = g) as ->; [|done].
  rewrite HR at 1. rewrite descend_again, <- HR.
  rewrite HS at 1. rewrite insert_insert_eq, <- HS.
  unfold set_statInfo, set_Root. simpl. apply Filesystem_eta.
Qed.

(** The index as [NewFilesystemFromBytes] has it before [reindex]: the
    exported fields of [builtOnce], the others at their zero values. *)
Definition deserialized : Filesystem :=
  mkFilesystem (Root builtOnce) (Inodes builtOnce) 0 (Pathnames builtOnce) ∅ [] ∅
    (Symlinks builtOnce) 0 0 0.

(** C6, at the failing input.  On the deserialized index of a directory
    [/] of size 4096 holding a regular file [/f] of size 5, [reindex] gives
    [/f] its [statInfo] entry and leaves its size out of [totalSize]: the
    total is 4096, the sizes of the reachable nodes sum to 4101, which is
    also the total [buildTree] had reached. *)
Theorem reindex_leaves_file_sizes_out :
  exists f, reindex 2 deserialized = Some f /\
    totalSize f = 4096 /\
    sum_sizes f (Root f) = 4101 /\
    statInfo f !! "/f" = Some fileInfo /\
    totalSize builtOnce = 4101.
Proof. eexists. split; [vm_compute; reflexivity|]. vm_compute. done. Qed.

(** *** The inverse map [reindex] rebuilds *)

(** No two pathnames share an id. *)
Definition injective (m : gmap string Z) : Prop :=
  forall p q id, m !! p = Some id -> m !! q = Some id -> p = q.

Lemma invert_lookup (m : gmap string Z) :
  injective m -> forall p id, invert m !! id = Some p <-> m !! p = Some id.
Proof.
  unfold invert.
  apply (map_fold_weak_ind
           (fun r m => injective m -> forall p id, r !! id = Some p <-> m !! p = Some id)).
  - intros _ p id. by rewrite !lookup_empty.
  - intros i x m' r Hi IH Hinj p id.
    assert (injective m') as Hinj'.
    { intros p' q' id' Hp Hq. apply (Hinj p' q' id').
      - rewrite lookup_insert_ne; [done|]. by intros ->; rewrite Hi in Hp.
      - rewrite lookup_insert_ne; [done|]. by intros ->; rewrite Hi in Hq. }
    specialize (IH Hinj').
    destruct (decide (x = id)) as [->|Hne].
    + rewrite lookup_insert_eq. split.
      * intros [= <-]. by rewrite lookup_insert_eq.
      * intros Hp. f_equal. apply (Hinj i p id); [by rewrite lookup_insert_eq|done].
    + rewrite lookup_insert_ne by done. rewrite IH.
      destruct (decide (i = p)) as [->|Hne'].
      * rewrite lookup_insert_eq, Hi. split; [done|]. intros [= ?]. done.
      * by rewrite lookup_insert_ne.
Qed.

Lemma _reindex_frame fuel pathname f f' :
  _reindex fuel pathname f = Some f' ->
  Root f' = Root f /\ Inodes f' = Inodes f /\ Pathnames f' = Pathnames f /\
  pathnamesInverse f' = pathnamesInverse f.
Proof.
  revert pathname f f'. induction fuel as [|fuel IH]; intros pathname f f'; simpl; [done|].
  destruct (Lookup f pathname) as [node|e]; [|by intros [= <-]].
  set (f0 := set_totalSize _ _).
  assert (Root f0 = Root f /\ Inodes f0 = Inodes f /\ Pathnames f0 = Pathnames f /\
          pathnamesInverse f0 = pathnamesInverse f) as Hf0 by done.
  clearbody f0. revert f0 Hf0.
  induction (map_to_list (Children node)) as [|[name c] l IHl]; intros f0 Hf0; simpl.
  - by intros [= <-].
  - destruct (IsDir (Mode (inodeOf f0 (Inode c)))).
    + destruct (_reindex fuel (Clean (pathname +:+ "/" +:+ name)) f0) as [f1|] eqn:E.
      * apply IH in E. apply IHl. destruct E as (-> & -> & -> & ->). done.
      * intros H. exfalso. clear -H. induction l as [|kv l IHl']; simpl in H; [done|].
        by apply IHl'.
    + apply IHl. done.
Qed.

(** After [reindex], [pathnamesInverse] is the inverse of [Pathnames],
    provided no two pathnames share an id. *)
Theorem reindex_inverse (fuel : nat) (f f' : Filesystem) :
  reindex fuel f = Some f' ->
  injective (Pathnames f) ->
  Pathnames f' = Pathnames f /\
  forall pathname pathnameId,
    pathnamesInverse f' !! pathnameId = Some pathname <->
    Pathnames f' !! pathname = Some pathnameId.
Proof.
  unfold reindex. intros H Hinj. apply _reindex_frame in H as (_ & _ & HP & HI).
  simpl in HP, HI. split; [done|]. intros p id. rewrite HP, HI. by apply invert_lookup.
Qed.

Lemma deserialized_injective : injective (Pathnames deserialized).
Proof.
  assert (Pathnames deserialized = <["/f" := 1]> {["/" := 0]}) as -> by reflexivity.
  intros p q id.
  rewrite !lookup_insert_Some, !lookup_singleton_Some.
  intros [[<- <-]|[_ [<- <-]]] [[<- H]|[_ [<- H]]]; congruence.
Qed.

Lemma reindex_inverse_witness :
  exists f', reindex 2 deserialized = Some f' /\
    forall pathname pathnameId,
      pathnamesInverse f' !! pathnameId = Some pathname <->
      Pathnames f' !! pathname = Some pathnameId.
Proof.
  destruct (reindex 2 deserialized) as [f'|] eqn:E; [|vm_compute in E; discriminate E].
  exists f'. split; [reflexivity|].
  apply (reindex_inverse 2 deserialized f' E deserialized_injective).
Defined.

(** *** The records [reindex] stores *)

(** The pathname of the node reached from the root by [atoms]. *)
Definition pathOf (atoms : list string) : string := "/" +:+ Join atoms "/".

Lemma pathOf_render atoms : pathOf atoms = render true (rev atoms).
Proof. unfold pathOf, render. by rewrite rev_involutive. Qed.

Lemma Clean_pathOf atoms : Forall real atoms -> Clean (pathOf atoms) = pathOf atoms.
Proof.
  intros H. rewrite pathOf_render. by apply Clean_of_render, written_reals.
Qed.

Lemma canonical_pathOf atoms : Forall real atoms -> canonical (pathOf atoms) = pathOf atoms.
Proof.
  intros H. unfold canonical, ToSlash. rewrite Clean_pathOf by done. done.
Qed.

Lemma pathOf_not_root a atoms : real a -> pathOf (a :: atoms) <> "/".
Proof.
  intros (Ha & _). unfold pathOf. destruct a as [|c a]; [done|].
  destruct atoms; cbn; intros [=].
Qed.

Lemma Lookup_pathOf f atoms :
  Forall real atoms -> Lookup f (pathOf atoms) = walk (Root f) atoms.
Proof.
  intros H. unfold Lookup. rewrite canonical_pathOf by done.
  destruct atoms as [|a atoms]; [done|].
  destruct (String.eqb_spec (pathOf (a :: atoms)) "/") as [E|_].
  { apply pathOf_not_root in E; [done|]. by inversion H. }
  unfold pathOf. change ("/" +:+ ?s) with (String "/" s).
  rewrite Split_cons_sep. cbn [tail].
  apply (f_equal (walk (Root f))). apply Split_Join; [done|by apply real_sep_free].
Qed.

(** The pathname [_reindex] makes for a child. *)
Lemma Clean_child atoms name :
  Forall real atoms -> real name ->
  Clean (pathOf atoms +:+ "/" +:+ name) = pathOf (atoms ++ [name]).
Proof.
  intros Ha Hn. destruct atoms as [|a atoms].
  - assert (sep_free "/" name = true) as Hsf by apply Hn.
    change (Clean (String "/" (String "/" name)) = "/" +:+ name).
    rewrite Clean_render. rewrite Ascii.eqb_refl.
    rewrite !Split_cons_sep, (Split_sep_free "/" name Hsf).
    cbn [fold_left]. change (clean_elem true [] "") with (@nil string).
    change (clean_elem true [] "") with (@nil string).
    destruct Hn as (H1 & H2 & H3 & _). unfold clean_elem.
    destruct (String.eqb_spec name ""); [done|].
    destruct (String.eqb_spec name "."); [done|].
    destruct (String.eqb_spec name ".."); [done|]. done.
  - assert (pathOf (a :: atoms) +:+ "/" +:+ name = pathOf ((a :: atoms) ++ [name])) as ->.
    { unfold pathOf. rewrite Join_snoc by done. by rewrite !append_assoc. }
    apply Clean_pathOf. apply Forall_app. split; [done|by constructor].
Qed.

(** A tree as a scan leaves it: the names are path elements, and below the
    root only directories have children. *)
Definition wellFormed (f : Filesystem) : Prop :=
  forall atoms n name c,
    reaches (Root f) atoms n -> Children n !! name = Some c ->
    real name /\ (atoms <> [] -> IsDir (Mode (inodeOf f (Inode n))) = true).

(** Every entry is the record of the node its pathname resolves to. *)
Definition resolved (f : Filesystem) (S : gmap string FileInfo) : Prop :=
  forall q v, S !! q = Some v -> exists m, Lookup f q = Ok m /\ v = inodeOf f (Inode m).

Lemma reaches_snoc p atoms n name c :
  reaches p atoms n -> Children n !! name = Some c -> reaches p (atoms ++ [name]) c.
Proof.
  induction 1 as [p|p a rest tmp q Ha _ IH]; intros Hc; simpl.
  - econstructor; [done|constructor].
  - econstructor; [done|by apply IH].
Qed.

Lemma reaches_real f atoms n :
  wellFormed f -> reaches (Root f) atoms n -> Forall real atoms.
Proof.
  intros WF. revert n. induction atoms as [|a atoms IH] using rev_ind; intros n H; [constructor|].
  apply reaches_app_inv in H as (n' & c & Hpre & Hc).
  apply Forall_app. split; [by eapply IH|]. constructor; [|constructor].
  by destruct (WF _ _ _ _ Hpre Hc).
Qed.

Lemma Lookup_reaches f g atoms n :
  wellFormed f -> Root g = Root f -> reaches (Root f) atoms n ->
  Lookup g (pathOf atoms) = Ok n.
Proof.
  intros WF HR H. rewrite Lookup_pathOf by (by eapply reaches_real).
  rewrite HR. by apply walk_Ok.
Qed.

Lemma inodeOf_frame f g key : Inodes g = Inodes f -> inodeOf g key = inodeOf f key.
Proof. unfold inodeOf. by intros ->. Qed.

Lemma fold_left_None {A B} (step : option A -> B -> option A) l :
  (forall b, step None b = None) -> fold_left step l None = None.
Proof. intros H. induction l as [|b l IH]; simpl; [done|]. by rewrite H. Qed.

Lemma resolved_insert f S q n :
  resolved f S -> Lookup f q = Ok n -> resolved f (<[q := inodeOf f (Inode n)]> S).
Proof.
  intros HS Hq q' v. destruct (decide (q = q')) as [<-|Hne].
  - rewrite lookup_insert_eq. intros [= <-]. by exists n.
  - rewrite lookup_insert_ne by done. apply HS.
Qed.

Lemma _reindex_covers f0 fuel :
  wellFormed f0 ->
  forall atoms n f,
    Root f = Root f0 -> Inodes f = Inodes f0 ->
    reaches (Root f0) atoms n ->
    (forall atoms' m, reaches n atoms' m -> (length atoms' < fuel)%nat) ->
    resolved f0 (statInfo f) ->
    exists f', _reindex fuel (pathOf atoms) f = Some f' /\
      resolved f0 (statInfo f') /\
      (forall q, is_Some (statInfo f !! q) -> is_Some (statInfo f' !! q)) /\
      (forall atoms' m, reaches n atoms' m ->
         is_Some (statInfo f' !! pathOf (atoms ++ atoms'))).
Proof.
  intros WF. induction fuel as [|fuel IH]; intros atoms n f HR HI Hn Hdepth Hres.
  { specialize (Hdepth [] n (reaches_nil n)). simpl in Hdepth. lia. }
  cbn [_reindex]. rewrite (Lookup_reaches f0 f atoms n WF HR Hn).
  set (f1 := set_totalSize _ _).
  assert (Root f1 = Root f0) as HR1 by done.
  assert (Inodes f1 = Inodes f0) as HI1 by done.
  assert (resolved f0 (statInfo f1)) as Hres1.
  { subst f1. cbn. rewrite (inodeOf_frame f0 f) by done.
    apply resolved_insert; [done|]. by eapply Lookup_reaches. }
  assert (forall q, is_Some (statInfo f !! q) -> is_Some (statInfo f1 !! q)) as Hmono1.
  { intros q Hq. subst f1. cbn. destruct (decide (pathOf atoms = q)) as [<-|Hne].
    - by rewrite lookup_insert_eq.
    - by rewrite lookup_insert_ne. }
  assert (is_Some (statInfo f1 !! pathOf atoms)) as Hself.
  { subst f1. cbn. by rewrite lookup_insert_eq. }
  clearbody f1.
  assert (forall l g,
    (forall kv, kv ∈ l -> Children n !! fst kv = Some (snd kv)) ->
    Root g = Root f0 -> Inodes g = Inodes f0 -> resolved f0 (statInfo g) ->
    exists f',
    fold_left
      (fun (acc : option Filesystem) (kv : string * FilesystemNode) =>
         match acc with
         | None => None
         | Some f =>
             if IsDir (Mode (inodeOf f (Inode (snd kv))))
             then _reindex fuel (Clean (pathOf atoms +:+ "/" +:+ fst kv)) f
             else Some (set_statInfo
                          (<[Clean (pathOf atoms +:+ "/" +:+ fst kv)
                             := inodeOf f (Inode (snd kv))]> (statInfo f)) f)
         end) l (Some g) = Some f' /\
    resolved f0 (statInfo f') /\
    (forall q, is_Some (statInfo g !! q) -> is_Some (statInfo f' !! q)) /\
    (forall kv, kv ∈ l -> forall atoms' m,
       reaches (snd kv) atoms' m ->
       is_Some (statInfo f' !! pathOf (atoms ++ fst kv :: atoms')))) as Hfold.
  { induction l as [|[name c] l IHl]; intros g Hl HRg HIg Hresg.
    - exists g. split; [done|]. split; [done|]. split; [done|]. by intros kv ?%elem_of_nil.
    - assert (Children n !! name = Some c) as Hc by (apply (Hl (name, c)); left).
      destruct (WF _ _ _ _ Hn Hc) as [Hname _].
      assert (Forall real atoms) as Hreal by (by eapply reaches_real).
      assert (reaches (Root f0) (atoms ++ [name]) c) as Hreach by (by eapply reaches_snoc).
      cbn [fold_left fst snd]. rewrite (Clean_child atoms name Hreal Hname).
      rewrite (inodeOf_frame f0 g) by done.
      assert (exists g',
        (if IsDir (Mode (inodeOf f0 (Inode c)))
         then _reindex fuel (pathOf (atoms ++ [name])) g
         else Some (set_statInfo
                      (<[pathOf (atoms ++ [name]) := inodeOf f0 (Inode c)]> (statInfo g)) g))
        = Some g' /\
        Root g' = Root f0 /\ Inodes g' = Inodes f0 /\
        resolved f0 (statInfo g') /\
        (forall q, is_Some (statInfo g !! q) -> is_Some (statInfo g' !! q)) /\
        (forall atoms' m, reaches c atoms' m ->
           is_Some (statInfo g' !! pathOf (atoms ++ name :: atoms')))) as
        (g' & -> & HRg' & HIg' & Hresg' & Hmonog & Hcov).
      { destruct (IsDir (Mode (inodeOf f0 (Inode c)))) eqn:Hdir.
        - destruct (IH (atoms ++ [name]) c g HRg HIg Hreach) as (g' & Hg' & ? & ? & Hcov);
            [|done|].
          { intros atoms' m Hm.
            specialize (Hdepth (name :: atoms') m (reaches_cons _ _ _ _ _ Hc Hm)).
            simpl in Hdepth. lia. }
          exists g'. split; [done|].
          destruct (_reindex_frame _ _ _ _ Hg') as (-> & -> & _).
          split; [done|]. split; [done|]. split; [done|]. split; [done|].
          intros atoms' m Hm. specialize (Hcov atoms' m Hm).
          by rewrite <- app_assoc in Hcov.
        - eexists. split; [done|]. split; [done|]. split; [done|]. cbn. split; [|split].
          + apply resolved_insert; [done|]. by eapply Lookup_reaches.
          + intros q Hq. destruct (decide (pathOf (atoms ++ [name]) = q)) as [<-|Hne].
            * by rewrite lookup_insert_eq.
            * by rewrite lookup_insert_ne.
          + intros atoms' m Hm. inversion Hm as [|? a rest tmp ? Ha Hrest]; subst.
            * by rewrite lookup_insert_eq.
            * destruct (WF _ _ _ _ Hreach Ha) as [_ Hd].
              rewrite Hd in Hdir; [done|]. by destruct atoms. }
      destruct (IHl g') as (f' & Hf' & Hresf & Hmonof & Hcovf); [|done..|].
      { intros kv Hkv. apply Hl. by right. }
      exists f'. split; [done|]. split; [done|]. split; [by auto|].
      intros kv [->|Hkv]%elem_of_cons atoms' m Hm; [|by eapply Hcovf].
      apply Hmonof. by eapply Hcov. }
  destruct (Hfold (map_to_list (Children n)) f1) as (f' & Hf' & Hresf & Hmonof & Hcovf);
    [by intros [name c]; apply elem_of_map_to_list|done..|].
  exists f'. split; [|split; [done|split; [by auto|]]].
  { rewrite <- Hf'. f_equal. }
  intros atoms' m Hm. inversion Hm as [|? a rest tmp ? Ha Hrest]; subst.
  - rewrite app_nil_r. by apply Hmonof.
  - eapply (Hcovf (a, tmp)); [by apply elem_of_map_to_list|done].
Qed.

(** After [reindex] of a well-formed tree, with fuel beyond its depth:
    every node reachable from the root has its record in [statInfo] under
    its pathname, and every entry of [statInfo] is the record of the node
    its pathname resolves to. *)
Theorem reindex_statInfo (fuel : nat) (f : Filesystem) :
  wellFormed f ->
  (forall atoms n, reaches (Root f) atoms n -> (length atoms < fuel)%nat) ->
  exists f', reindex fuel f = Some f' /\
    (forall atoms n, reaches (Root f') atoms n ->
       statInfo f' !! pathOf atoms = Some (inodeOf f' (Inode n))) /\
    (forall q v, statInfo f' !! q = Some v ->
       exists n, Lookup f' q = Ok n /\ v = inodeOf f' (Inode n)).
Proof.
  intros WF Hdepth. unfold reindex.
  set (f1 := set_statInfo ∅ _).
  destruct (_reindex_covers f fuel WF [] (Root f) f1) as (f' & Hf' & Hres & _ & Hcov);
    [done|done|apply reaches_nil|done|by intros q v Hq; cbn in Hq; rewrite lookup_empty in Hq|].
  destruct (_reindex_frame _ _ _ _ Hf') as (HR & HI & _).
  change (Root f1) with (Root f) in HR. change (Inodes f1) with (Inodes f) in HI.
  exists f'. split; [done|]. split.
  - intros atoms n Hn. rewrite HR in Hn.
    destruct (Hcov atoms n Hn) as [v Hv]. simpl in Hv. rewrite Hv.
    destruct (Hres _ _ Hv) as (m & Hm & ->).
    rewrite (Lookup_reaches f f atoms n WF eq_refl Hn) in Hm. injection Hm as <-.
    by rewrite (inodeOf_frame f f').
  - intros q v Hv. destruct (Hres _ _ Hv) as (m & Hm & ->). exists m. split.
    + unfold Lookup in *. by rewrite HR.
    + by rewrite (inodeOf_frame f f').
Qed.

Lemma deserialized_children name c :
  Children (Root deserialized) !! name = Some c -> name = "f" /\ Children c = ∅.
Proof.
  assert (Children (Root deserialized) = {["f" := FsNode "1,3" ∅]}) as -> by reflexivity.
  rewrite lookup_singleton_Some. by intros [<- <-].
Qed.

Lemma deserialized_reaches atoms n :
  reaches (Root deserialized) atoms n -> atoms = [] \/ atoms = ["f"].
Proof.
  inversion 1 as [|? a rest tmp ? Ha Hrest]; subst; [by left|right].
  apply deserialized_children in Ha as [-> He].
  inversion Hrest as [|? b ? ? ? Hb _]; subst; [done|].
  by rewrite He, lookup_empty in Hb.
Qed.

Lemma deserialized_wellFormed : wellFormed deserialized.
Proof.
  intros atoms n name c Hn Hc. destruct (deserialized_reaches _ _ Hn) as [->| ->].
  - inversion Hn; subst. apply deserialized_children in Hc as [-> _].
    split; [by repeat split|done].
  - inversion Hn as [|? ? ? tmp ? Ha Hrest]; subst. inversion Hrest; subst.
    apply deserialized_children in Ha as [_ He]. by rewrite He, lookup_empty in Hc.
Qed.

Lemma reindex_statInfo_witness :
  exists f', reindex 2 deserialized = Some f' /\
    forall atoms n, reaches (Root f') atoms n ->
      statInfo f' !! pathOf atoms = Some (inodeOf f' (Inode n)).
Proof.
  destruct (reindex_statInfo 2 deserialized deserialized_wellFormed) as (f' & H & Hc & _).
  - intros atoms n Hn. destruct (deserialized_reaches _ _ Hn) as [->| ->]; simpl; lia.
  - by exists f'.
Defined.

(** *** What [buildTree] leaves to look up *)

Lemma Lookup_atomsOf f pathname :
  Lookup f pathname = walk (Root f) (atomsOf (ToSlash (Clean pathname))).
Proof.
  unfold Lookup, canonical, atomsOf.
  destruct (String.eqb_spec (ToSlash (Clean pathname)) ".") as [->|Hdot]; [done|].
  by destruct (String.eqb_spec (ToSlash (Clean pathname)) "/").
Qed.

Lemma walk_descend atoms inodeKey p :
  exists n, walk (descend atoms inodeKey p) atoms = Ok n /\ Inode n = inodeKey.
Proof.
  revert p. induction atoms as [|atom rest IH]; intros p; simpl.
  - by eexists.
  - rewrite lookup_insert_eq. apply IH.
Qed.

Lemma walk_descend_other atoms inodeKey p others n :
  walk p others = Ok n ->
  exists n', walk (descend atoms inodeKey p) others = Ok n' /\
             (others <> atoms -> Inode n' = Inode n).
Proof.
  revert atoms p. induction others as [|a others IH]; intros atoms p; simpl.
  - intros [= ->]. destruct atoms as [|b atoms]; simpl; by eexists.
  - destruct (Children p !! a) as [t|] eqn:Ha; [|done]. intros Hn.
    destruct atoms as [|b atoms]; simpl.
    + rewrite Ha. by exists n.
    + destruct (decide (b = a)) as [->|Hne].
      * rewrite lookup_insert_eq, Ha. simpl.
        destruct (IH atoms t Hn) as (n' & Hn' & Hi). exists n'. split; [done|].
        intros Hneq. apply Hi. congruence.
      * rewrite lookup_insert_ne, Ha by done. by exists n.
Qed.

Lemma buildTree_Inodes f pathname fileinfo :
  Inodes (buildTree f pathname fileinfo) = Inodes (fst (addInode f fileinfo)) /\
  totalSize (buildTree f pathname fileinfo) = totalSize (fst (addInode f fileinfo)).
Proof.
  unfold buildTree. destruct (addInode f fileinfo) as [f1 key]. simpl.
  unfold addPathname. destruct (Pathnames f1 !! _); simpl;
    destruct (IsRegular (Mode fileinfo)); try destruct (IsDir (Mode fileinfo)); done.
Qed.

(** After [buildTree], [Lookup] of the pathname finds a node that carries
    the key of the record; the record under that key is the first one
    stored there, which is [fileinfo] if the key is new. *)
Theorem buildTree_Lookup (f : Filesystem) (pathname : string) (fileinfo : FileInfo) :
  let g := buildTree f pathname fileinfo in
  exists n, Lookup g pathname = Ok n /\
    Inode n = fmt_d (Dev fileinfo) +:+ "," +:+ fmt_d (Ino fileinfo) /\
    inodeOf g (Inode n) = default fileinfo (Inodes f !! Inode n).
Proof.
  intros g. destruct (buildTree_fields f pathname fileinfo) as (_ & _ & HR & _).
  fold g in HR. rewrite Lookup_atomsOf, HR.
  destruct (walk_descend (atomsOf (ToSlash (Clean pathname))) (inodeKeyOf fileinfo) (Root f))
    as (n & Hn & Hi).
  exists n. split; [done|]. split; [done|].
  unfold inodeOf. subst g. rewrite (proj1 (buildTree_Inodes f pathname fileinfo)), Hi.
  unfold addInode. fold (inodeKeyOf fileinfo).
  destruct (Inodes f !! inodeKeyOf fileinfo) as [old|] eqn:E; simpl; [by rewrite E|].
  by rewrite lookup_insert_eq.
Qed.

(** [buildTree] removes nothing: a pathname that resolved before resolves
    after, and to a node with the same inode key unless its atoms are those
    of the pathname built. *)
Theorem buildTree_keeps (f : Filesystem) (pathname other : string) (fileinfo : FileInfo)
    (n : FilesystemNode) :
  Lookup f other = Ok n ->
  exists n', Lookup (buildTree f pathname fileinfo) other = Ok n' /\
    (atomsOf (ToSlash (Clean other)) <> atomsOf (ToSlash (Clean pathname)) ->
     Inode n' = Inode n).
Proof.
  destruct (buildTree_fields f pathname fileinfo) as (_ & _ & HR & _).
  rewrite !Lookup_atomsOf, HR. apply walk_descend_other.
Qed.

Lemma buildTree_keeps_witness :
  exists n', Lookup (buildTree builtOnce "/g" fileInfo) "/f" = Ok n' /\ Inode n' = "1,3".
Proof.
  destruct (buildTree_keeps builtOnce "/g" "/f" fileInfo (FsNode "1,3" ∅) eq_refl)
    as (n' & Hn' & Hi).
  exists n'. split; [done|]. by apply Hi.
Defined.

(** After [buildTree], [LookupInode] of the pathname returns the record,
    and the two variants return it when it is of their kind.  The
    pathnames that clean to [.] are the exception: [buildTree] files the
    record under [.], where the lookups, which read [/] for [.], do not
    find it. *)
Theorem buildTree_LookupInode (f : Filesystem) (pathname : string) (fileinfo : FileInfo) :
  let g := buildTree f pathname fileinfo in
  if String.eqb (ToSlash (Clean pathname)) "."
  then LookupInode g pathname = LookupInode f "/"
  else LookupInode g pathname = Some fileinfo /\
       LookupInodeForFile g pathname =
         (if IsRegular (Mode fileinfo) then Some fileinfo else None) /\
       LookupInodeForDirectory g pathname =
         (if IsDir (Mode fileinfo) then Some fileinfo else None).
Proof.
  intros g. destruct (buildTree_fields f pathname fileinfo) as (_ & _ & _ & HS).
  fold g in HS. unfold LookupInode, LookupInodeForFile, LookupInodeForDirectory, canonical.
  rewrite HS. destruct (String.eqb_spec (ToSlash (Clean pathname)) ".") as [->|Hdot].
  - by rewrite lookup_insert_ne.
  - rewrite lookup_insert_eq.
    destruct (IsRegular (Mode fileinfo)), (IsDir (Mode fileinfo)); done.
Qed.

(** *** What a filesystem built by [buildTree] keeps *)

(** The filesystems [buildTree] makes of a new one. *)
Inductive Built : Filesystem -> Prop :=
| Built_new : Built NewFilesystem
| Built_step f pathname fileinfo :
    Built f -> Built (buildTree f pathname fileinfo).

(** The sizes of the records of a map of inodes, each as a [uint64]. *)
Definition sizes (m : gmap string FileInfo) : Z :=
  map_fold (fun _ fileinfo acc => u64 (Size fileinfo) + acc) 0 m.

Lemma sizes_insert key fileinfo m :
  m !! key = None -> sizes (<[key := fileinfo]> m) = u64 (Size fileinfo) + sizes m.
Proof.
  intros H. unfold sizes. rewrite map_fold_insert_L; [done| |done].
  intros. lia.
Qed.

Lemma u64_add a b : u64 (u64 a + b) = u64 (a + b).
Proof. unfold u64. by rewrite Zplus_mod_idemp_l. Qed.

(** [Size()], the total [addInode] keeps, is the sum of the sizes of the
    inode records, one per key, modulo [2^64]. *)
Theorem Built_totalSize (f : Filesystem) :
  Built f -> totalSize f = u64 (sizes (Inodes f)).
Proof.
  induction 1 as [|f pathname fileinfo _ IH]; [done|].
  destruct (buildTree_Inodes f pathname fileinfo) as [-> ->].
  unfold addInode. destruct (Inodes f !! _) as [old|] eqn:E; simpl; [done|].
  rewrite sizes_insert by done. rewrite IH, u64_add. f_equal. lia.
Qed.

Lemma Built_totalSize_witness : totalSize builtTwice = u64 (sizes (Inodes builtTwice)).
Proof. apply Built_totalSize. repeat constructor. Defined.

Lemma buildTree_Pathnames f pathname fileinfo :
  let f1 := fst (addInode f fileinfo) in
  let g := buildTree f pathname fileinfo in
  Pathnames g = Pathnames (fst (addPathname f1 (ToSlash (Clean pathname)))) /\
  pathnamesInverse g = pathnamesInverse (fst (addPathname f1 (ToSlash (Clean pathname)))) /\
  pathnameID g = pathnameID (fst (addPathname f1 (ToSlash (Clean pathname)))).
Proof.
  unfold buildTree. destruct (addInode f fileinfo) as [f1 key]. simpl.
  destruct (addPathname f1 _) as [f2 id]. simpl.
  destruct (IsRegular (Mode fileinfo)); try destruct (IsDir (Mode fileinfo)); done.
Qed.

Lemma addInode_Pathnames f fileinfo :
  let f1 := fst (addInode f fileinfo) in
  Pathnames f1 = Pathnames f /\ pathnamesInverse f1 = pathnamesInverse f /\
  pathnameID f1 = pathnameID f.
Proof. unfold addInode. by destruct (Inodes f !! _). Qed.

(** The interning invariant: ids are handed out in order from 0, and the
    inverse index mirrors the index. *)
Definition interned (f : Filesystem) : Prop :=
  pathnameID f = Z.of_nat (size (Pathnames f)) /\
  (forall pathname id, Pathnames f !! pathname = Some id -> 0 <= id < pathnameID f) /\
  (forall pathname id,
     Pathnames f !! pathname = Some id <-> pathnamesInverse f !! id = Some pathname).

Lemma addPathname_interned f pathname :
  Z.of_nat (size (Pathnames (fst (addPathname f pathname)))) < 2 ^ 64 ->
  interned f -> interned (fst (addPathname f pathname)).
Proof.
  unfold addPathname, interned.
  destruct (Pathnames f !! pathname) as [id|] eqn:E; [done|].
  cbn [fst Pathnames pathnamesInverse pathnameID set_pathnameID set_pathnamesInverse set_Pathnames].
  rewrite map_size_insert_None by done. intros Hsz (Hid & Hlt & Hinv).
  assert (0 <= pathnameID f) as Hnn by lia.
  assert (u64 (pathnameID f + 1) = pathnameID f + 1) as ->.
  { unfold u64. apply Z.mod_small. rewrite Nat2Z.inj_succ in Hsz. lia. }
  split; [lia|]. split.
  - intros p id. destruct (decide (pathname = p)) as [<-|Hne].
    + rewrite lookup_insert_eq. intros [= <-]. lia.
    + rewrite lookup_insert_ne by done. intros H%Hlt. lia.
  - intros p id. destruct (decide (pathname = p)) as [<-|Hne].
    + rewrite lookup_insert_eq. destruct (decide (pathnameID f = id)) as [<-|Hne'].
      * by rewrite lookup_insert_eq.
      * rewrite lookup_insert_ne by done. split; [congruence|].
        intros H%Hinv. congruence.
    + rewrite lookup_insert_ne by done. destruct (decide (pathnameID f = id)) as [<-|Hne'].
      * rewrite lookup_insert_eq. split; [|congruence]. intros H%Hlt. lia.
      * rewrite lookup_insert_ne by done. apply Hinv.
Qed.

Lemma addPathname_size f pathname :
  (size (Pathnames f) <= size (Pathnames (fst (addPathname f pathname))))%nat.
Proof.
  unfold addPathname. destruct (Pathnames f !! pathname) eqn:E; [done|].
  cbn. rewrite map_size_insert_None by done. lia.
Qed.

Lemma Built_interned f :
  Built f -> Z.of_nat (size (Pathnames f)) < 2 ^ 64 -> interned f.
Proof.
  induction 1 as [|f pathname fileinfo _ IH].
  - intros _. split; [done|]. split; intros p id; cbn; by rewrite !lookup_empty.
  - destruct (buildTree_Pathnames f pathname fileinfo) as (HP & HI & HD).
    destruct (addInode_Pathnames f fileinfo) as (HP1 & HI1 & HD1).
    set (f1 := fst (addInode f fileinfo)) in *.
    intros Hsz. rewrite HP in Hsz.
    assert (interned f1) as H1.
    { unfold interned. rewrite HP1, HI1, HD1. apply IH.
      pose proof (addPathname_size f1 (ToSlash (Clean pathname))) as Hle.
      rewrite HP1 in Hle. lia. }
    pose proof (addPathname_interned f1 _ Hsz H1) as H2.
    unfold interned. by rewrite HP, HI, HD.
Qed.

(** In a filesystem built by [buildTree] with fewer than [2^64] pathnames,
    every pathname built has an id below [pathnameID] of its own:
    [GetPathname] of its [GetPathnameID] is the pathname, and two pathnames
    with one id are one pathname. *)
Theorem GetPathname_GetPathnameID (f : Filesystem) :
  Built f -> Z.of_nat (size (Pathnames f)) < 2 ^ 64 ->
  forall pathname, is_Some (Pathnames f !! pathname) ->
    GetPathname f (GetPathnameID f pathname) = pathname /\
    0 <= GetPathnameID f pathname < pathnameID f /\
    forall other, is_Some (Pathnames f !! other) ->
      GetPathnameID f other = GetPathnameID f pathname -> other = pathname.
Proof.
  intros HB Hsz pathname [id Hid].
  destruct (Built_interned f HB Hsz) as (_ & Hlt & Hinv).
  unfold GetPathname, GetPathnameID. rewrite Hid. simpl.
  split; [by rewrite (proj1 (Hinv _ _) Hid)|]. split; [by eapply Hlt|].
  intros other [id' Hid']. rewrite Hid'. simpl. intros ->.
  apply Hinv in Hid, Hid'. congruence.
Qed.

Lemma GetPathname_GetPathnameID_witness :
  GetPathname builtOnce (GetPathnameID builtOnce "/f") = "/f".
Proof.
  refine (proj1 (GetPathname_GetPathnameID builtOnce _ _ "/f" _)).
  - repeat constructor.
  - vm_compute. reflexivity.
  - exists 1. vm_compute. reflexivity.
Defined.

(** Every pathname [buildTree] is called with is interned, in the form it
    cleans to. *)
Lemma buildTree_interns f pathname fileinfo :
  is_Some (Pathnames (buildTree f pathname fileinfo) !! ToSlash (Clean pathname)).
Proof. by destruct (buildTree_fields f pathname fileinfo) as (_ & ? & _). Qed.

(** *** The listings *)

Lemma filter_partition {A} (p q r : A -> bool) (l : list A) :
  (forall x, match p x, q x, r x with
             | true, false, false | false, true, false | false, false, true => True
             | _, _, _ => False
             end) ->
  Permutation l (List.filter p l ++ List.filter q l ++ List.filter r l).
Proof.
  intros H. induction l as [|x l IH]; simpl; [done|].
  specialize (H x). destruct (p x), (q x), (r x); try done; simpl.
  - by constructor.
  - rewrite <- Permutation_middle. by constructor.
  - rewrite app_assoc, <- Permutation_middle, <- app_assoc. by constructor.
Qed.

Lemma IsDir_not_IsRegular m : IsDir m = true -> IsRegular m = false.
Proof.
  unfold IsDir, IsRegular. intros H. apply negb_true_iff, Z.eqb_neq in H.
  apply Z.eqb_neq. intros Hz. apply H.
  apply Z.bits_inj'. intros i Hi. rewrite Z.land_spec, Z.bits_0.
  apply (f_equal (fun z => Z.testbit z i)) in Hz.
  rewrite Z.land_spec, Z.bits_0 in Hz. unfold ModeType in Hz.
  rewrite Z.lor_spec in Hz.
  destruct (Z.testbit m i), (Z.testbit ModeDir i); simpl in *; done.
Qed.

Lemma In_listing (p : string * FileInfo -> bool) (m : gmap string FileInfo) pathname :
  In pathname (map fst (List.filter p (map_to_list m))) <->
  exists fileinfo, m !! pathname = Some fileinfo /\ p (pathname, fileinfo) = true.
Proof.
  rewrite in_map_iff. split.
  - intros ([k v] & <- & [Hin Hp]%filter_In). exists v. split; [|done].
    by apply elem_of_map_to_list, list_elem_of_In.
  - intros (v & Hv & Hp). exists (pathname, v). split; [done|]. apply filter_In.
    split; [|done]. by apply list_elem_of_In, elem_of_map_to_list.
Qed.

(** The listings of files, of directories and of the rest split the
    pathnames of [ListStat] among them: [ListStat] has every pathname with
    a record once, each of the three has those whose record is of its
    kind, and together they have every pathname of [ListStat] once. *)
Theorem ListStat_partition (f : Filesystem) :
  NoDup (ListStat f) /\
  (forall pathname, In pathname (ListStat f) <-> is_Some (statInfo f !! pathname)) /\
  (forall pathname, In pathname (ListFiles f) <->
     exists fileinfo, statInfo f !! pathname = Some fileinfo /\
                      IsRegular (Mode fileinfo) = true) /\
  (forall pathname, In pathname (ListDirectories f) <->
     exists fileinfo, statInfo f !! pathname = Some fileinfo /\
                      IsDir (Mode fileinfo) = true) /\
  Permutation (ListStat f) (ListFiles f ++ ListDirectories f ++ ListNonRegular f).
Proof.
  unfold ListStat, ListFiles, ListDirectories, ListNonRegular.
  split; [apply NoDup_fst_map_to_list|].
  split.
  { intros pathname. rewrite in_map_iff. split.
    - intros ([k v] & <- & Hin). exists v. by apply elem_of_map_to_list, list_elem_of_In.
    - intros [v Hv]. exists (pathname, v). split; [done|].
      by apply list_elem_of_In, elem_of_map_to_list. }
  split; [intros pathname; apply In_listing|].
  split; [intros pathname; apply In_listing|].
  rewrite <- !map_app. apply Permutation_map, filter_partition.
  intros [k v]. simpl. destruct (IsDir (Mode v)) eqn:Hd.
  - by rewrite (IsDir_not_IsRegular _ Hd).
  - by destruct (IsRegular (Mode v)).
Qed.

(** *** Loading a serialized index *)

Lemma _reindex_counters fuel pathname f f' :
  _reindex fuel pathname f = Some f' ->
  pathnameID f' = pathnameID f /\ Symlinks f' = Symlinks f /\
  nFiles f' = nFiles f /\ nDirectories f' = nDirectories f.
Proof.
  revert pathname f f'. induction fuel as [|fuel IH]; intros pathname f f'; simpl; [done|].
  destruct (Lookup f pathname) as [node|e]; [|by intros [= <-]].
  set (f0 := set_totalSize _ _).
  assert (pathnameID f0 = pathnameID f /\ Symlinks f0 = Symlinks f /\
          nFiles f0 = nFiles f /\ nDirectories f0 = nDirectories f) as Hf0 by done.
  clearbody f0. revert f0 Hf0.
  induction (map_to_list (Children node)) as [|[name c] l IHl]; intros f0 Hf0; simpl.
  - by intros [= <-].
  - destruct (IsDir (Mode (inodeOf f0 (Inode c)))).
    + destruct (_reindex fuel (Clean (pathname +:+ "/" +:+ name)) f0) as [f1|] eqn:E.
      * apply IH in E. apply IHl. destruct E as (-> & -> & -> & ->). done.
      * intros H. exfalso. clear -H. induction l as [|kv l IHl']; simpl in H; [done|].
        by apply IHl'.
    + apply IHl. done.
Qed.

(** A well-formed index (and one in which no two pathnames share an id)
    that is serialized and loaded again comes back with its tree, inodes,
    pathnames and symlinks, so every [Lookup] answers as before; the
    inverse index and the records of the reachable nodes are rebuilt; the
    counters of files and directories and the next pathname id are not:
    they are 0. *)
Theorem NewFilesystemFromBytes_Serialize (M : Msgpack) (fuel : nat) (f : Filesystem)
    (data : list byte) :
  wellFormed f ->
  (forall atoms n, reaches (Root f) atoms n -> (length atoms < fuel)%nat) ->
  injective (Pathnames f) ->
  Serialize M f = Ok data ->
  exists g, NewFilesystemFromBytes M fuel data = Some (Ok g) /\
    Root g = Root f /\ Inodes g = Inodes f /\ Pathnames g = Pathnames f /\
    Symlinks g = Symlinks f /\
    (forall pathname, Lookup g pathname = Lookup f pathname) /\
    (forall pathname id, pathnamesInverse g !! id = Some pathname <->
                         Pathnames g !! pathname = Some id) /\
    (forall atoms n, reaches (Root g) atoms n ->
       LookupInode g (pathOf atoms) = Some (inodeOf g (Inode n))) /\
    nFiles g = 0 /\ nDirectories g = 0 /\ pathnameID g = 0.
Proof.
  intros WF Hdepth Hinj HS. unfold Serialize in HS.
  destruct (Marshal M f) as [d|e] eqn:HM; [|done]. injection HS as ->.
  unfold NewFilesystemFromBytes. rewrite (Unmarshal_Marshal M f data HM).
  unfold reindex. set (f1 := set_statInfo ∅ _).
  destruct (_reindex_covers f fuel WF [] (Root f) f1) as (g & Hg & Hres & _ & Hcov);
    [done|done|apply reaches_nil|done
    |by intros q v Hq; cbn in Hq; rewrite lookup_empty in Hq|].
  change (pathOf []) with "/" in Hg. rewrite Hg. exists g. split; [done|].
  destruct (_reindex_frame _ _ _ _ Hg) as (HR & HI & HP & HPI).
  destruct (_reindex_counters _ _ _ _ Hg) as (HD & HSy & HF & HDi).
  split; [done|]. split; [done|]. split; [done|]. split; [done|].
  split; [by intros pathname; unfold Lookup; rewrite HR|].
  split; [|split; [|done]].
  - intros pathname id. rewrite HP, HPI. by apply invert_lookup.
  - intros atoms n Hn. unfold LookupInode. change (Root f1) with (Root f) in HR.
    rewrite HR in Hn.
    rewrite canonical_pathOf by (by eapply reaches_real).
    destruct (Hcov atoms n Hn) as [v Hv]. simpl in Hv. rewrite Hv.
    destruct (Hres _ _ Hv) as (m & Hm & ->).
    rewrite (Lookup_reaches f f atoms n WF eq_refl Hn) in Hm. injection Hm as <-.
    by rewrite (inodeOf_frame f g).
Qed.

(** *** An encoding of the index

    A stand-in for the library that the assumption on [msgpack] holds of:
    it writes the four exported fields, a node as its inode key, the number
    of its children and the children by name, a map as the list of its
    entries. *)

Definition FileInfoC : Codec FileInfo :=
  isoC (pairC stringC (pairC ZC (pairC ZC (pairC ZC ZC))))
       (fun i => (Name i, (Size i, (Mode i, (Dev i, Ino i)))))
       (fun p => mkFileInfo (fst p) (fst (snd p)) (fst (snd (snd p)))
                   (fst (snd (snd (snd p)))) (snd (snd (snd (snd p)))))
       (fun i => match i with mkFileInfo _ _ _ _ _ => eq_refl end).

Definition mapC {A} (ca : Codec A) : Codec (gmap string A) :=
  isoC (listC (pairC stringC ca)) map_to_list list_to_map list_to_map_to_list.

Definition encChild (encNode : FilesystemNode -> list byte)
    (name : string) (c : FilesystemNode) (acc : list byte) : list byte :=
  enc stringC name ++ encNode c ++ acc.

Fixpoint encNode (n : FilesystemNode) : list byte :=
  enc stringC (Inode n) ++ enc natC (size (Children n))
  ++ map_fold (encChild encNode) [] (Children n).

(** [k] children, each a name and a node read by [decNode]. *)
Fixpoint decChildren (decNode : list byte -> option (FilesystemNode * list byte))
    (k : nat) (bs : list byte) : option (list (string * FilesystemNode) * list byte) :=
  match k with
  | O => Some ([], bs)
  | S k' =>
      match dec stringC bs with
      | None => None
      | Some (name, r) =>
          match decNode r with
          | None => None
          | Some (c, r) =>
              match decChildren decNode k' r with
              | None => None
              | Some (l, r) => Some ((name, c) :: l, r)
              end
          end
      end
  end.

(** A node of depth below [fuel]. *)
Fixpoint decNode (fuel : nat) (bs : list byte) : option (FilesystemNode * list byte) :=
  match fuel with
  | O => None
  | S fuel' =>
      match dec stringC bs with
      | None => None
      | Some (inode, r) =>
          match dec natC r with
          | None => None
          | Some (k, r) =>
              match decChildren (decNode fuel') k r with
              | None => None
              | Some (l, r) => Some (FsNode inode (list_to_map l), r)
              end
          end
      end
  end.

Lemma encNode_eq inode children :
  encNode (FsNode inode children) =
  enc stringC inode ++ enc natC (length (map_to_list children))
  ++ foldr (fun kv acc => enc stringC (fst kv) ++ encNode (snd kv) ++ acc) []
       (map_to_list children).
Proof.
  cbn [encNode Inode Children]. rewrite map_fold_foldr, length_map_to_list.
  do 2 f_equal. induction (map_to_list children) as [|[k c] l IH]; [done|].
  cbn [foldr]. by rewrite <- IH.
Qed.

Lemma decNode_encNode fuel : forall n rest,
  (forall atoms m, reaches n atoms m -> (length atoms < fuel)%nat) ->
  decNode fuel (encNode n ++ rest) = Some (n, rest).
Proof.
  induction fuel as [|fuel IH]; intros [inode children] rest Hdepth.
  { specialize (Hdepth [] _ (reaches_nil _)). simpl in Hdepth. lia. }
  rewrite encNode_eq. cbn [decNode]. rewrite <- !app_assoc, !dec_enc.
  assert (forall l r,
    (forall kv, kv ∈ l -> children !! fst kv = Some (snd kv)) ->
    decChildren (decNode fuel) (length l)
      (foldr (fun kv acc => enc stringC (fst kv) ++ encNode (snd kv) ++ acc) [] l ++ r)
    = Some (l, r)) as Hl.
  { induction l as [|[k c] l IHl]; intros r Hin; [done|].
    cbn [foldr length decChildren fst snd]. rewrite <- !app_assoc, dec_enc.
    rewrite IH.
    - rewrite IHl; [done|]. intros kv Hkv. apply Hin. by right.
    - intros atoms m Hm.
      assert (children !! k = Some c) as Hc by (apply (Hin (k, c)); left).
      specialize (Hdepth (k :: atoms) m (reaches_cons (FsNode inode children) k atoms c m Hc Hm)).
      simpl in Hdepth. lia. }
  rewrite Hl by (by intros [k c]; apply elem_of_map_to_list).
  by rewrite list_to_map_to_list.
Qed.

Lemma encNode_nonempty n : (0 < length (encNode n))%nat.
Proof.
  destruct n as [inode children]. rewrite encNode_eq, !length_app.
  assert (0 < length (enc natC (length (map_to_list children))))%nat; [|lia].
  cbn. rewrite length_app. simpl. lia.
Qed.

Lemma encNode_depth n atoms m :
  reaches n atoms m -> (length atoms < length (encNode n))%nat.
Proof.
  induction 1 as [p|p atom rest tmp q Hc _ IH]; [apply encNode_nonempty|].
  destruct p as [inode children]. cbn [Children] in Hc.
  rewrite encNode_eq, !length_app. cbn [length].
  assert (forall l, (atom, tmp) ∈ l ->
    (length (encNode tmp) <=
     length (foldr (fun kv acc => enc stringC (fst kv) ++ encNode (snd kv) ++ acc) [] l))%nat)
    as Hl.
  { induction l as [|kv l IHl]; [by intros ?%elem_of_nil|].
    cbn [foldr]. rewrite !length_app. intros [<-|Hin]%elem_of_cons; [simpl; lia|].
    specialize (IHl Hin). lia. }
  specialize (Hl (map_to_list children) ltac:(by apply elem_of_map_to_list)).
  assert (0 < length (enc natC (length (map_to_list children))))%nat.
  { cbn. rewrite length_app. simpl. lia. }
  lia.
Qed.

Definition encFilesystem (f : Filesystem) : list byte :=
  encNode (Root f) ++ enc (mapC FileInfoC) (Inodes f) ++ enc (mapC ZC) (Pathnames f)
  ++ enc (mapC stringC) (Symlinks f).

Definition decFilesystem (data : list byte) : result string Filesystem :=
  match decNode (length data) data with
  | None => Err "msgpack: invalid code"
  | Some (root, r) =>
      match dec (mapC FileInfoC) r with
      | None => Err "msgpack: invalid code"
      | Some (inodes, r) =>
          match dec (mapC ZC) r with
          | None => Err "msgpack: invalid code"
          | Some (pathnames, r) =>
              match dec (mapC stringC) r with
              | Some (symlinks, []) =>
                  Ok (mkFilesystem root inodes 0 pathnames ∅ [] ∅ symlinks 0 0 0)
              | _ => Err "msgpack: invalid code"
              end
          end
      end
  end.

Lemma decFilesystem_encFilesystem f : decFilesystem (encFilesystem f) = Ok (exported f).
Proof.
  unfold decFilesystem, encFilesystem. rewrite decNode_encNode.
  - rewrite dec_enc, dec_enc.
    rewrite <- (app_nil_r (enc (mapC stringC) (Symlinks f))), dec_enc. done.
  - intros atoms m Hm. apply encNode_depth in Hm. rewrite length_app. lia.
Qed.

Definition fieldsInOrder : Msgpack.
Proof.
  refine {| Marshal := fun f => Ok (encFilesystem f); Unmarshal := decFilesystem |}.
  intros f data [= <-]. apply decFilesystem_encFilesystem.
Defined.

Lemma deserialized_fields :
  Root deserialized = Root builtOnce /\ Inodes deserialized = Inodes builtOnce /\
  Pathnames deserialized = Pathnames builtOnce.
Proof. unfold deserialized. cbn [Root Inodes Pathnames]. done. Qed.

Lemma NewFilesystemFromBytes_Serialize_witness :
  nFiles builtOnce = 1 /\
  exists g, NewFilesystemFromBytes fieldsInOrder 2 (encFilesystem builtOnce) = Some (Ok g) /\
    Root g = Root builtOnce /\ Inodes g = Inodes builtOnce /\
    Pathnames g = Pathnames builtOnce /\ nFiles g = 0.
Proof.
  split; [vm_compute; reflexivity|].
  destruct deserialized_fields as (HR & HI & HP).
  destruct (NewFilesystemFromBytes_Serialize fieldsInOrder 2 builtOnce (encFilesystem builtOnce))
    as (g & Hg & HRg & HIg & HPg & _ & _ & _ & _ & HF & _).
  - intros atoms n name c Hn Hc. rewrite <- HR in Hn.
    destruct (deserialized_wellFormed atoms n name c Hn Hc) as [H1 H2].
    split; [done|]. intros Hne. specialize (H2 Hne). unfold inodeOf in *.
    by rewrite <- HI.
  - intros atoms n Hn. rewrite <- HR in Hn.
    destruct (deserialized_reaches _ _ Hn) as [->| ->]; simpl; lia.
  - rewrite <- HP. exact deserialized_injective.
  - reflexivity.
  - exists g. exact (conj Hg (conj HRg (conj HIg (conj HPg HF)))).
Defined.

Example NewFilesystemFromBytes_runs :
  exists g, NewFilesystemFromBytes fieldsInOrder 2 (encFilesystem builtOnce) = Some (Ok g) /\
    LookupInode g "/f" = Some fileInfo /\ GetPathname g 1 = "/f" /\
    totalSize g = 4096 /\ nFiles g = 0 /\ nDirectories g = 0 /\ pathnameID g = 0.
Proof. eexists. split; [vm_compute; reflexivity|]. vm_compute. done. Qed.

(** *** Building from a scan *)

Lemma ToSlash_Clean_again pathname :
  ToSlash (Clean (ToSlash (Clean pathname))) = ToSlash (Clean pathname).
Proof. unfold ToSlash. apply Clean_idempotent. Qed.

Lemma is_Ok_walk_descend atoms inodeKey p others :
  (exists n, walk p others = Ok n) ->
  exists n', walk (descend atoms inodeKey p) others = Ok n'.
Proof.
  intros [n Hn]. destruct (walk_descend_other atoms inodeKey p others n Hn) as (n' & ? & _).
  by exists n'.
Qed.

Lemma scanLoop_resolves repository msgs :
  forall fs g,
    scanLoop repository msgs fs = Ok (Some g) ->
    (forall other, (exists n, Lookup fs other = Ok n) -> exists n, Lookup g other = Ok n) /\
    (forall key, is_Some (statInfo fs !! key) -> is_Some (statInfo g !! key)) /\
    (forall msg, In msg msgs -> inRepository repository (Clean (Pathname msg)) = false ->
       is_Some (Stat msg) /\
       (exists n, Lookup g (Pathname msg) = Ok n) /\
       is_Some (statInfo g !! ToSlash (Clean (Pathname msg)))).
Proof.
  induction msgs as [|msg msgs IH]; intros fs g; simpl.
  - intros [= <-]. split; [done|]. split; [done|]. by intros msg [].
  - destruct (inRepository repository (Clean (Pathname msg))) eqn:Hin.
    + intros H. destruct (IH _ _ H) as (H1 & H2 & H3).
      split; [done|]. split; [done|]. intros m [<-|Hm] Hnot; [congruence|by apply H3].
    + destruct (Stat msg) as [stat|] eqn:Hstat; [|done].
      destruct (_ && _); [done|]. intros H.
      destruct (IH _ _ H) as (H1 & H2 & H3).
      destruct (buildTree_fields fs (ToSlash (Clean (Pathname msg))) stat)
        as (_ & _ & HR & HS).
      rewrite ToSlash_Clean_again in HR, HS.
      split; [|split].
      * intros other Hother. apply H1. rewrite Lookup_atomsOf, HR.
        apply is_Ok_walk_descend. by rewrite <- Lookup_atomsOf.
      * intros key Hkey. apply H2. rewrite HS.
        destruct (decide (ToSlash (Clean (Pathname msg)) = key)) as [<-|Hne].
        -- by rewrite lookup_insert_eq.
        -- by rewrite lookup_insert_ne.
      * intros m [<-|Hm] Hnot; [|by apply H3]. split; [by rewrite Hstat|]. split.
        -- apply H1. rewrite Lookup_atomsOf, HR.
           destruct (walk_descend (atomsOf (ToSlash (Clean (Pathname msg))))
                       (inodeKeyOf stat) (Root fs)) as (n & Hn & _).
           by exists n.
        -- apply H2. by rewrite HS, lookup_insert_eq.
Qed.

(** When [NewFilesystemFromScan] returns a filesystem, every message of
    the scan outside the repository carried a [FileInfo], its pathname
    resolves by [Lookup] in the filesystem, and the cleaned pathname has a
    record. *)
Theorem NewFilesystemFromScan_resolves (repository : string)
    (newImporter : result scanError unit) (msgs : list ScanResult) (g : Filesystem) :
  NewFilesystemFromScan repository newImporter (Ok msgs) = Ok (Some g) ->
  forall msg, In msg msgs -> inRepository repository (Clean (Pathname msg)) = false ->
    is_Some (Stat msg) /\
    (exists n, Lookup g (Pathname msg) = Ok n) /\
    is_Some (statInfo g !! ToSlash (Clean (Pathname msg))).
Proof.
  unfold NewFilesystemFromScan. destruct newImporter as [[]|e]; [|done].
  intros H. by destruct (scanLoop_resolves _ _ _ _ H) as (_ & _ & ?).
Qed.

(** The scan of [/] and [/f], with [/repo] and [/repo/x] left out. *)
Definition smallScan : list ScanResult :=
  [ mkScanResult "/" (Some dirInfo); mkScanResult "/repo" (Some dirInfo);
    mkScanResult "/f" (Some fileInfo); mkScanResult "/repo/x" None ].

Lemma NewFilesystemFromScan_resolves_witness :
  exists g, NewFilesystemFromScan "/repo" (Ok tt) (Ok smallScan) = Ok (Some g) /\
    exists n, Lookup g "/f" = Ok n.
Proof.
  destruct (NewFilesystemFromScan "/repo" (Ok tt) (Ok smallScan)) as [[g|]|e] eqn:E;
    try (vm_compute in E; discriminate E).
  exists g. split; [done|].
  refine (proj1 (proj2 (NewFilesystemFromScan_resolves "/repo" (Ok tt) smallScan g E
                          (mkScanResult "/f" (Some fileInfo)) _ _))).
  - right. right. by left.
  - vm_compute. reflexivity.
Defined.

Lemma Clean_slash_pathOf atoms :
  Forall real atoms -> Clean ("/" +:+ pathOf atoms) = pathOf atoms.
Proof.
  intros H. change (Clean (String "/" (String "/" (Join atoms "/"))) = pathOf atoms).
  rewrite Clean_render, Ascii.eqb_refl, !Split_cons_sep.
  cbn [fold_left]. change (clean_elem true [] "") with (@nil string).
  destruct atoms as [|a atoms]; [done|].
  rewrite Split_Join by (done || by apply real_sep_free).
  rewrite fold_clean_reals by done. by rewrite app_nil_r, pathOf_render.
Qed.

(** The path [NewFilesystemFromScan] makes of the first [i] atoms of an
    absolute pathname: that of the first [i - 1] path elements. *)
Lemma ancestor_path atoms i :
  Forall real atoms ->
  ToSlash (Clean ("/" +:+ Join (take i ("" :: atoms)) "/")) = pathOf (take (i - 1) atoms).
Proof.
  intros H. unfold ToSlash. destruct i as [|j]; [done|].
  replace (S j - 1)%nat with j by lia. cbn [take].
  assert (Forall real (take j atoms)) as Hj by (by apply Forall_take).
  destruct (take j atoms) as [|a l] eqn:E; [done|].
  change (Join ("" :: a :: l) "/") with (pathOf (a :: l)).
  by apply Clean_slash_pathOf.
Qed.

Lemma ancestorsFound_above_parent fs atoms :
  Forall real atoms -> atoms <> [] ->
  ancestorsFound fs (Split (pathOf atoms) "/") = true <->
  forall j, (j = 0 \/ j + 2 <= length atoms)%nat ->
    is_Some (LookupInodeForDirectory fs (pathOf (take j atoms))).
Proof.
  intros Hreal Hne. unfold pathOf at 1. change ("/" +:+ ?s) with (String "/" s).
  rewrite Split_cons_sep, Split_Join by (done || by apply real_sep_free).
  unfold ancestorsFound. rewrite forallb_forall. cbn [length].
  replace (S (length atoms) - 1)%nat with (length atoms) by lia.
  assert (0 < length atoms)%nat as Hlen by (destruct atoms; [done|simpl; lia]).
  split.
  - intros H j Hj.
    assert (In (if decide (j = 0)%nat then 0 else S j)%nat (seq 0 (length atoms))) as Hin.
    { apply in_seq. destruct (decide (j = 0)%nat); lia. }
    apply H in Hin. rewrite ancestor_path in Hin by done.
    apply bool_decide_eq_true in Hin.
    destruct (decide (j = 0)%nat) as [->|]; [done|].
    by replace (S j - 1)%nat with j in Hin by lia.
  - intros H i Hi%in_seq. rewrite ancestor_path by done.
    apply bool_decide_eq_true, H. lia.
Qed.

(** How [NewFilesystemFromScan] takes a message with the absolute pathname
    [/a1/.../ak] and a [FileInfo], outside the repository.  It asks
    [LookupInodeForDirectory] for [/] and for the ancestors up to
    [/a1/.../a(k-2)]; the parent [/a1/.../a(k-1)] is not asked for.  If all
    are found the message is built and the loop goes on; if one is not, the
    function returns at once, with neither a filesystem nor an error. *)
Theorem scanLoop_ancestors (repository : string) (fs : Filesystem)
    (atoms : list string) (stat : FileInfo) (rest : list ScanResult) :
  Forall real atoms -> atoms <> [] ->
  inRepository repository (pathOf atoms) = false ->
  ((forall j, (j = 0 \/ j + 2 <= length atoms)%nat ->
      is_Some (LookupInodeForDirectory fs (pathOf (take j atoms)))) ->
   scanLoop repository (mkScanResult (pathOf atoms) (Some stat) :: rest) fs
   = scanLoop repository rest (buildTree fs (pathOf atoms) stat)) /\
  ((exists j, (j = 0 \/ j + 2 <= length atoms)%nat /\
      LookupInodeForDirectory fs (pathOf (take j atoms)) = None) ->
   scanLoop repository (mkScanResult (pathOf atoms) (Some stat) :: rest) fs = Ok None).
Proof.
  intros Hreal Hne Hrepo. cbn [scanLoop Pathname Stat].
  rewrite (Clean_pathOf atoms Hreal), Hrepo.
  assert (String.eqb (pathOf atoms) "/" = false) as ->.
  { apply String.eqb_neq. destruct atoms as [|a atoms]; [done|].
    apply pathOf_not_root. by inversion Hreal. }
  pose proof (ancestorsFound_above_parent fs atoms Hreal Hne) as Hiff.
  split.
  - intros H. apply Hiff in H. by rewrite H.
  - intros (j & Hj & Hnone).
    destruct (ancestorsFound fs (Split (pathOf atoms) "/")); [|done].
    pose proof (proj1 Hiff eq_refl j Hj) as E. rewrite Hnone in E. by destruct E.
Qed.

Lemma scanLoop_ancestors_witness :
  scanLoop "/repo" [mkScanResult "/a/b" (Some fileInfo)]
    (buildTree NewFilesystem "/" dirInfo)
  = Ok (Some (buildTree (buildTree NewFilesystem "/" dirInfo) "/a/b" fileInfo)) /\
  scanLoop "/repo" [mkScanResult "/a/b" (Some fileInfo)] NewFilesystem = Ok None.
Proof.
  assert (Forall real ["a"; "b"]) as Hreal by (repeat constructor; done).
  destruct (scanLoop_ancestors "/repo" (buildTree NewFilesystem "/" dirInfo)
              ["a"; "b"] fileInfo [] Hreal) as [H1 _]; [done|vm_compute; reflexivity|].
  destruct (scanLoop_ancestors "/repo" NewFilesystem
              ["a"; "b"] fileInfo [] Hreal) as [_ H2]; [done|vm_compute; reflexivity|].
  split.
  - apply H1. intros j [->|Hj]; [|simpl in Hj; assert (j = 0)%nat as -> by lia];
      exists dirInfo; vm_compute; reflexivity.
  - apply H2. exists O. split; [by left|]. vm_compute. reflexivity.
Defined.

(** *** The maps of a filesystem built by [buildTree] agree *)

Lemma buildTree_grows f pathname fileinfo :
  (forall key, is_Some (Inodes f !! key) ->
               is_Some (Inodes (buildTree f pathname fileinfo) !! key)) /\
  (forall key, is_Some (Pathnames f !! key) ->
               is_Some (Pathnames (buildTree f pathname fileinfo) !! key)).
Proof.
  destruct (buildTree_Inodes f pathname fileinfo) as [-> _].
  destruct (buildTree_Pathnames f pathname fileinfo) as (-> & _ & _).
  destruct (addInode_Pathnames f fileinfo) as (HP & _ & _).
  split; intros key Hkey.
  - unfold addInode.
    destruct (Inodes f !! (fmt_d (Dev fileinfo) +:+ "," +:+ fmt_d (Ino fileinfo))) eqn:E;
      simpl; [done|].
    destruct (decide (fmt_d (Dev fileinfo) +:+ "," +:+ fmt_d (Ino fileinfo) = key)) as [<-|Hne].
    + by rewrite lookup_insert_eq.
    + by rewrite lookup_insert_ne.
  - unfold addPathname. rewrite <- HP in Hkey.
    destruct (Pathnames (addInode f fileinfo).1 !! ToSlash (Clean pathname)) eqn:E; simpl;
      [done|].
    destruct (decide (ToSlash (Clean pathname) = key)) as [<-|Hne].
    + by rewrite lookup_insert_eq.
    + by rewrite lookup_insert_ne.
Qed.

(** In a filesystem made from a new one by [buildTree], every pathname
    with a record in [statInfo] resolves by [Lookup], is interned in
    [Pathnames], and the key of its record is in [Inodes]. *)
Theorem Built_records (f : Filesystem) :
  Built f ->
  forall pathname fileinfo, statInfo f !! pathname = Some fileinfo ->
    (exists n, Lookup f pathname = Ok n) /\
    is_Some (Pathnames f !! pathname) /\
    is_Some (Inodes f !! (fmt_d (Dev fileinfo) +:+ "," +:+ fmt_d (Ino fileinfo))).
Proof.
  induction 1 as [|f built info _ IH]; intros pathname fileinfo.
  { cbn. by rewrite lookup_empty. }
  destruct (buildTree_fields f built info) as (HI & HP & HR & HS).
  destruct (buildTree_grows f built info) as [HgI HgP].
  rewrite HS. destruct (decide (ToSlash (Clean built) = pathname)) as [<-|Hne].
  - rewrite lookup_insert_eq. intros [= <-]. split; [|done].
    rewrite Lookup_atomsOf, HR, ToSlash_Clean_again.
    destruct (walk_descend (atomsOf (ToSlash (Clean built))) (inodeKeyOf info) (Root f))
      as (n & Hn & _).
    by exists n.
  - rewrite lookup_insert_ne by done. intros Hs.
    destruct (IH _ _ Hs) as (Hl & Hp & Hi). split; [|split; [by apply HgP|by apply HgI]].
    rewrite Lookup_atomsOf, HR. apply is_Ok_walk_descend. by rewrite <- Lookup_atomsOf.
Qed.

Lemma Built_records_witness :
  (exists n, Lookup builtOnce "/f" = Ok n) /\
  is_Some (Pathnames builtOnce !! "/f") /\ is_Some (Inodes builtOnce !! "1,3").
Proof.
  apply (Built_records builtOnce (Built_step _ "/f" fileInfo (Built_step _ "/" dirInfo Built_new))
           "/f" fileInfo).
  vm_compute. reflexivity.
Defined.

(** *** Listing what was built *)

Lemma atomsOf_pathOf atoms : Forall real atoms -> atomsOf (pathOf atoms) = atoms.
Proof.
  intros H. unfold atomsOf. destruct atoms as [|a atoms]; [done|].
  destruct (String.eqb_spec (pathOf (a :: atoms)) "/") as [E|_].
  { apply pathOf_not_root in E; [done|]. by inversion H. }
  unfold pathOf. change ("/" +:+ ?s) with (String "/" s).
  rewrite Split_cons_sep. cbn [tail]. apply Split_Join; [done|by apply real_sep_free].
Qed.

Lemma walk_descend_app pre post inodeKey p :
  exists q, walk (descend (pre ++ post) inodeKey p) pre = Ok (descend post inodeKey q).
Proof.
  revert p. induction pre as [|atom pre IH]; intros p; simpl.
  - by exists p.
  - rewrite lookup_insert_eq. apply IH.
Qed.

(** After [buildTree] of [/a1/.../ak/name], [Lookup] of the parent
    [/a1/.../ak] finds a node that has the child [name].  [LookupChildren]
    of the parent lists [name] if the inode record of the parent is a
    directory; if it is not, as for a parent that was never built itself
    and so has no record, it returns the error [os.ErrInvalid]. *)
Theorem buildTree_LookupChildren (f : Filesystem) (atoms : list string) (name : string)
    (fileinfo : FileInfo) :
  Forall real atoms -> real name ->
  let g := buildTree f (pathOf (atoms ++ [name])) fileinfo in
  exists parent,
    Lookup g (pathOf atoms) = Ok parent /\
    is_Some (Children parent !! name) /\
    (IsDir (Mode (inodeOf g (Inode parent))) = true ->
     exists names, LookupChildren g (pathOf atoms) = Ok names /\ In name names) /\
    (IsDir (Mode (inodeOf g (Inode parent))) = false ->
     LookupChildren g (pathOf atoms) = Err ErrInvalid).
Proof.
  intros Hatoms Hname g.
  assert (Forall real (atoms ++ [name])) as Hall.
  { apply Forall_app. split; [done|by constructor]. }
  destruct (buildTree_fields f (pathOf (atoms ++ [name])) fileinfo) as (_ & _ & HR & _).
  fold g in HR. unfold ToSlash in HR.
  rewrite (Clean_pathOf _ Hall), (atomsOf_pathOf _ Hall) in HR.
  destruct (walk_descend_app atoms [name] (inodeKeyOf fileinfo) (Root f)) as [q Hq].
  rewrite <- HR in Hq.
  assert (Lookup g (pathOf atoms) = Ok (descend [name] (inodeKeyOf fileinfo) q)) as HL
    by (by rewrite Lookup_pathOf).
  eexists. split; [exact HL|].
  assert (is_Some (Children (descend [name] (inodeKeyOf fileinfo) q) !! name)) as Hchild.
  { cbn. by rewrite lookup_insert_eq. }
  split; [done|].
  unfold LookupChildren. rewrite (canonical_pathOf _ Hatoms), HL.
  split; intros ->; [|done]. cbn [negb]. eexists. split; [done|].
  apply sort_Strings_elem. destruct Hchild as [c Hc].
  apply in_map_iff. exists (name, c). split; [done|].
  by apply list_elem_of_In, elem_of_map_to_list.
Qed.

Lemma buildTree_LookupChildren_witness :
  exists parent,
    Lookup (buildTree builtOnce (pathOf ["a"; "b"]) fileInfo) (pathOf ["a"]) = Ok parent /\
    is_Some (Children parent !! "b").
Proof.
  destruct (buildTree_LookupChildren builtOnce ["a"] "b" fileInfo) as (p & Hp & Hc & _);
    [by repeat constructor|by repeat split|].
  by exists p.
Defined.

Example buildTree_LookupChildren_cases :
  (exists names, LookupChildren (buildTree builtOnce "/g" fileInfo) "/" = Ok names /\
                 In "g" names) /\
  LookupChildren (buildTree builtOnce "/a/b" fileInfo) "/a" = Err ErrInvalid.
Proof.
  split; [|vm_compute; reflexivity].
  eexists. split; [vm_compute; reflexivity|]. right. by left.
Qed.

End VFSFacts.

(** ** Properties of the snapshot header *)

Module HeaderFacts.
Import GoStrings Ordering OrderingFacts HeaderPkg.

(** *** [ParseSortKeys] *)

(** The keys as the loop reads them: split on [,] and trimmed. *)
Definition keysOf (sortKeysStr : string) : list string :=
  map TrimSpace (Split sortKeysStr ",").

Definition validKey (key : string) : Prop := FieldByName (lookupKey key) = true.

Lemma FieldByName_spec name : FieldByName name = true <-> In name headerFields.
Proof.
  unfold FieldByName. rewrite existsb_exists. split.
  - intros (x & Hx & E). apply String.eqb_eq in E. by subst.
  - intros H. exists name. split; [done|]. apply String.eqb_refl.
Qed.

Lemma parseKeys_spec keys uniqueKeys validKeys seen :
  NoDup seen ->
  (forall x, default false (uniqueKeys !! x) = true <-> In x seen) ->
  match parseKeys keys uniqueKeys validKeys with
  | Ok l =>
      l = validKeys ++ map TrimSpace keys /\
      NoDup (seen ++ map lookupKey (map TrimSpace keys)) /\
      Forall validKey (map TrimSpace keys)
  | Err e =>
      exists pre key post,
        map TrimSpace keys = pre ++ key :: post /\
        Forall validKey pre /\
        NoDup (seen ++ map lookupKey pre) /\
        ((In (lookupKey key) (seen ++ map lookupKey pre) /\ e = DuplicateKey key) \/
         (~ In (lookupKey key) (seen ++ map lookupKey pre) /\
          FieldByName (lookupKey key) = false /\ e = InvalidSortKey key))
  end.
Proof.
  revert uniqueKeys validKeys seen.
  induction keys as [|key0 keys IH]; intros U acc seen Hnd HU; simpl.
  - rewrite !app_nil_r. done.
  - set (key := TrimSpace key0). set (b := lookupKey key).
    destruct (default false (U !! b)) eqn:Hseen.
    + exists [], key, (map TrimSpace keys). simpl. rewrite app_nil_r.
      split; [done|]. split; [done|]. split; [done|]. left. split; [|done]. by apply HU.
    + assert (~ In b seen) as Hnin by (rewrite <- HU; congruence).
      destruct (FieldByName b) eqn:Hvalid; simpl.
      * assert (NoDup (seen ++ [b])) as Hnd'.
        { apply NoDup_app. split; [done|]. split; [|apply NoDup_singleton].
          intros x Hx Hx'. apply list_elem_of_In in Hx. apply list_elem_of_singleton in Hx'. by subst. }
        assert (forall x, default false (<[b:=true]> U !! x) = true <-> In x (seen ++ [b])) as HU'.
        { intros x. rewrite in_app_iff. destruct (decide (b = x)) as [->|Hne].
          - rewrite lookup_insert_eq. simpl. split; [|done]. intros _. right. by left.
          - rewrite lookup_insert_ne by done. rewrite HU. split; [by left|].
            intros [?|[?|[]]]; [done|congruence]. }
        specialize (IH (<[b:=true]> U) (acc ++ [key]) (seen ++ [b]) Hnd' HU').
        destruct (parseKeys keys (<[b:=true]> U) (acc ++ [key])) as [l|e].
        -- destruct IH as (-> & Hnd'' & Hall). rewrite <- !app_assoc in *. simpl in *.
           split; [done|]. split; [done|]. by constructor.
        -- destruct IH as (pre & k & post & Heq & Hall & Hnd'' & Hcase).
           exists (key :: pre), k, post. simpl. rewrite <- !app_assoc in *. simpl in *.
           split; [by rewrite Heq|]. split; [by constructor|]. done.
      * exists [], key, (map TrimSpace keys). simpl. rewrite app_nil_r.
        split; [done|]. split; [done|]. split; [done|]. right. done.
Qed.

(** C4, as amended.  The names [ParseSortKeys] recognizes are the names of
    the fields of [Header].  The empty string parses to no keys.  Any other
    string is split on [,] and each key trimmed; the keys are read in input
    order, and the first key that offends decides the result: a key whose
    name (the key without one leading [-]) is that of an earlier key gives
    [DuplicateKey], and otherwise a key whose name is not a field of [Header]
    gives [InvalidSortKey].  When no key offends the result is the list of
    the trimmed keys in input order. *)
Theorem ParseSortKeys_first_offence (sortKeysStr : string) :
  (forall name, FieldByName name = true <-> In name headerFields) /\
  (sortKeysStr = "" -> ParseSortKeys sortKeysStr = Ok []) /\
  (sortKeysStr <> "" ->
   match ParseSortKeys sortKeysStr with
   | Ok l =>
       l = keysOf sortKeysStr /\
       NoDup (map lookupKey (keysOf sortKeysStr)) /\
       Forall validKey (keysOf sortKeysStr)
   | Err e =>
       exists pre key post,
         keysOf sortKeysStr = pre ++ key :: post /\
         Forall validKey pre /\
         NoDup (map lookupKey pre) /\
         ((In (lookupKey key) (map lookupKey pre) /\ e = DuplicateKey key) \/
          (~ In (lookupKey key) (map lookupKey pre) /\
           FieldByName (lookupKey key) = false /\ e = InvalidSortKey key))
   end).
Proof.
  split; [apply FieldByName_spec|]. split; [by intros ->|].
  intros Hne. unfold ParseSortKeys.
  destruct (String.eqb_spec sortKeysStr ""); [done|].
  by apply (parseKeys_spec (Split sortKeysStr ",") ∅ [] [] (NoDup_nil_2)).
Qed.

Lemma ParseSortKeys_first_offence_witness :
  NoDup (map lookupKey (keysOf "-CreationTime, Tags")) /\
  Forall validKey (keysOf "-CreationTime, Tags").
Proof.
  destruct (ParseSortKeys_first_offence "-CreationTime, Tags") as (_ & _ & H).
  specialize (H ltac:(discriminate)).
  assert (ParseSortKeys "-CreationTime, Tags" = Ok ["-CreationTime"; "Tags"]) as E
    by (vm_compute; reflexivity).
  rewrite E in H. destruct H as (_ & H). exact H.
Defined.

Example ParseSortKeys_examples :
  ParseSortKeys "-CreationTime, Tags" = Ok ["-CreationTime"; "Tags"] /\
  ParseSortKeys "Tags,Bogus,-Tags" = Err (InvalidSortKey "Bogus") /\
  ParseSortKeys "Tags,-Tags,Bogus" = Err (DuplicateKey "-Tags") /\
  ParseSortKeys "" = Ok [] /\
  ParseSortKeys "Tags," = Err (InvalidSortKey "").
Proof. vm_compute. done. Qed.

(** C4 as stated fails: [Category] is none of the four fields the claim
    lists, and [ParseSortKeys] accepts it, being the name of a field. *)
Lemma ParseSortKeys_accepts_Category :
  ParseSortKeys "Category" = Ok ["Category"] /\
  ~ In "Category" ["CreationTime"; "SnapshotID"; "Version"; "Tags"].
Proof.
  split; [vm_compute; reflexivity|].
  intros H. repeat (destruct H as [H|H]; [discriminate H|]). done.
Qed.

(** *** [SortHeaders] *)

(** The three-way comparisons the cases of the [switch] amount to. *)
Definition cmpTime (t u : Time) : comparison :=
  match Z.compare (unixSec t) (unixSec u) with
  | Eq => Z.compare (nsec t) (nsec u)
  | r => r
  end.

Definition cmpByte (a b : byte) : comparison := N.compare (Byte.to_N a) (Byte.to_N b).

Definition cmpSnapshotID (a b : Checksum) : comparison :=
  lex_cmp cmpByte (cells a) (cells b).

Definition cmpTags (a b : list string) : comparison := lex_cmp String.compare a b.

Definition keyCmp (key : string) : option (Header -> Header -> comparison) :=
  if String.eqb key "CreationTime" then
    Some (fun hi hj => cmpTime (CreationTime hi) (CreationTime hj))
  else if String.eqb key "-CreationTime" then
    Some (fun hi hj => cmpTime (CreationTime hj) (CreationTime hi))
  else if String.eqb key "SnapshotID" then
    Some (fun hi hj => cmpSnapshotID (SnapshotID hi) (SnapshotID hj))
  else if String.eqb key "-SnapshotID" then
    Some (fun hi hj => cmpSnapshotID (SnapshotID hj) (SnapshotID hi))
  else if String.eqb key "Version" then
    Some (fun hi hj => String.compare (Version hi) (Version hj))
  else if String.eqb key "-Version" then
    Some (fun hi hj => String.compare (Version hj) (Version hi))
  else if String.eqb key "Tags" then
    Some (fun hi hj => cmpTags (Tags hi) (Tags hj))
  else if String.eqb key "-Tags" then
    Some (fun hi hj => cmpTags (Tags hj) (Tags hi))
  else None.

(** The keys in order, up to the first unknown one. *)
Fixpoint cmpKeys (sortKeys : list string) : Header -> Header -> comparison :=
  match sortKeys with
  | [] => fun _ _ => Eq
  | key :: rest =>
      match keyCmp key with
      | Some c => then_cmp c (cmpKeys rest)
      | None => fun _ _ => Eq
      end
  end.

Definition stepOf (r : comparison) : step :=
  match r with
  | Lt => Return true
  | Eq => Next
  | Gt => Return false
  end.

Lemma Lawful_cmpTime : Lawful cmpTime.
Proof.
  apply (Lawful_then (fun t u => Z.compare (unixSec t) (unixSec u))
                     (fun t u => Z.compare (nsec t) (nsec u)));
    apply (Lawful_on _ Z.compare Lawful_Z).
Qed.

Lemma Lawful_cmpByte : Lawful cmpByte.
Proof. apply (Lawful_on Byte.to_N N.compare Lawful_N). Qed.

Lemma Lawful_cmpSnapshotID : Lawful cmpSnapshotID.
Proof. apply (Lawful_on cells (lex_cmp cmpByte)), Lawful_lex, Lawful_cmpByte. Qed.

Lemma Lawful_cmpTags : Lawful cmpTags.
Proof. apply Lawful_lex, Lawful_string. Qed.

Lemma keyCmp_Lawful key c : keyCmp key = Some c -> Lawful c.
Proof.
  unfold keyCmp.
  repeat (match goal with |- context [String.eqb key ?k] => destruct (String.eqb key k) end);
    intros [= <-].
  - apply (Lawful_on CreationTime cmpTime Lawful_cmpTime).
  - apply Lawful_flip, (Lawful_on CreationTime cmpTime Lawful_cmpTime).
  - apply (Lawful_on SnapshotID cmpSnapshotID Lawful_cmpSnapshotID).
  - apply Lawful_flip, (Lawful_on SnapshotID cmpSnapshotID Lawful_cmpSnapshotID).
  - apply (Lawful_on Version String.compare Lawful_string).
  - apply Lawful_flip, (Lawful_on Version String.compare Lawful_string).
  - apply (Lawful_on Tags cmpTags Lawful_cmpTags).
  - apply Lawful_flip, (Lawful_on Tags cmpTags Lawful_cmpTags).
Qed.

Lemma Lawful_cmpKeys sortKeys : Lawful (cmpKeys sortKeys).
Proof.
  induction sortKeys as [|key rest IH]; simpl; [apply Lawful_const|].
  destruct (keyCmp key) as [c|] eqn:E; [|apply Lawful_const].
  apply Lawful_then; [by eapply keyCmp_Lawful|done].
Qed.

Lemma stepTime_Before t u :
  (if negb (Time_Equal t u) then Return (Time_Before t u) else Next) = stepOf (cmpTime t u).
Proof.
  unfold Time_Equal, Time_Before, cmpTime.
  destruct (Z.compare_spec (unixSec t) (unixSec u));
    destruct (Z.compare_spec (nsec t) (nsec u));
    repeat match goal with
           | |- context [?a =? ?b] => destruct (Z.eqb_spec a b); try lia
           | |- context [?a <? ?b] => destruct (Z.ltb_spec a b); try lia
           end; reflexivity.
Qed.

Lemma stepTime_After t u :
  (if negb (Time_Equal t u) then Return (Time_After t u) else Next) = stepOf (cmpTime u t).
Proof.
  unfold Time_Equal, Time_After, cmpTime. rewrite !Z.gtb_ltb.
  destruct (Z.compare_spec (unixSec u) (unixSec t));
    destruct (Z.compare_spec (nsec u) (nsec t));
    repeat match goal with
           | |- context [?a =? ?b] => destruct (Z.eqb_spec a b); try lia
           | |- context [?a <? ?b] => destruct (Z.ltb_spec a b); try lia
           end; reflexivity.
Qed.

Lemma stepVersion_lt a b :
  (if negb (String.eqb a b) then Return (String.ltb a b) else Next)
  = stepOf (String.compare a b).
Proof.
  unfold String.ltb. destruct (String.eqb_spec a b) as [->|Hne]; simpl.
  - by rewrite StringOrder.compare_refl.
  - destruct (String.compare a b) eqn:E; [|done|done].
    by apply StringOrder.compare_Eq in E.
Qed.

Lemma stepVersion_gt a b :
  (if negb (String.eqb a b) then Return (gtb_string a b) else Next)
  = stepOf (String.compare b a).
Proof.
  unfold gtb_string. rewrite String.eqb_sym. apply stepVersion_lt.
Qed.

Lemma String_eqb_compare x y : String.eqb x y = true <-> String.compare x y = Eq.
Proof.
  rewrite String.eqb_eq. split; [intros ->; apply StringOrder.compare_refl|].
  apply StringOrder.compare_Eq.
Qed.

Lemma Byte_to_N_inj a b : Byte.to_N a = Byte.to_N b -> a = b.
Proof.
  intros H. apply (f_equal Byte.of_N) in H. rewrite !Byte.of_to_N in H. congruence.
Qed.

Lemma Byte_eqb_compare x y : Byte.eqb x y = true <-> cmpByte x y = Eq.
Proof.
  unfold cmpByte. rewrite N.compare_eq_iff. split.
  - intros H. by apply Byte.byte_dec_bl in H as ->.
  - intros H. apply Byte_to_N_inj in H as ->. by apply Byte.byte_dec_lb.
Qed.

Lemma first_diff_flip {A} (eqb : A -> A -> bool) a b :
  (forall x y, eqb x y = eqb y x) ->
  first_diff eqb b a = option_map (fun '(x, y) => (y, x)) (first_diff eqb a b).
Proof.
  intros Hs. revert b. induction a as [|x a IH]; intros [|y b]; simpl; try done.
  rewrite (Hs y x). destruct (eqb x y); [apply IH|done].
Qed.

Lemma stepTags_lt a b : stepTags String.ltb Nat.ltb a b = stepOf (cmpTags a b).
Proof.
  unfold stepTags, cmpTags.
  rewrite (lex_cmp_first_diff String.compare String.eqb a b String_eqb_compare).
  destruct (first_diff String.eqb a b) as [[x y]|] eqn:E.
  - pose proof (first_diff_differ _ _ _ _ _ _ String_eqb_compare E) as Hne.
    unfold String.ltb. by destruct (String.compare x y).
  - destruct (Nat.compare_spec (length a) (length b)) as [H|H|H].
    + by rewrite H, Nat.eqb_refl.
    + destruct (Nat.eqb_spec (length a) (length b)); [lia|]. simpl.
      by destruct (Nat.ltb_spec (length a) (length b)); [|lia].
    + destruct (Nat.eqb_spec (length a) (length b)); [lia|]. simpl.
      by destruct (Nat.ltb_spec (length a) (length b)); [lia|].
Qed.

Lemma stepTags_gt a b : stepTags gtb_string gtb_nat a b = stepOf (cmpTags b a).
Proof.
  rewrite <- stepTags_lt. unfold stepTags, gtb_string, gtb_nat.
  rewrite (first_diff_flip String.eqb a b String.eqb_sym).
  destruct (first_diff String.eqb a b) as [[x y]|]; simpl; [done|].
  by rewrite Nat.eqb_sym.
Qed.

Lemma length_cells c : length (cells c) = 32%nat.
Proof. unfold cells. by rewrite length_map, length_seq. Qed.

Lemma stepSnapshotID_lt a b :
  stepSnapshotID byte_ltb a b = stepOf (cmpSnapshotID a b).
Proof.
  unfold stepSnapshotID, cmpSnapshotID.
  rewrite (lex_cmp_first_diff cmpByte Byte.eqb _ _ Byte_eqb_compare).
  destruct (first_diff Byte.eqb (cells a) (cells b)) as [[x y]|] eqn:E.
  - pose proof (first_diff_differ _ _ _ _ _ _ Byte_eqb_compare E) as Hne.
    unfold byte_ltb, N.ltb, cmpByte in *.
    by destruct (Byte.to_N x ?= Byte.to_N y)%N.
  - by rewrite !length_cells.
Qed.

Lemma Byte_eqb_sym x y : Byte.eqb x y = Byte.eqb y x.
Proof.
  destruct (Byte.eqb x y) eqn:E.
  - apply Byte.byte_dec_bl in E as ->. symmetry. by apply Byte.byte_dec_lb.
  - destruct (Byte.eqb y x) eqn:E'; [|done].
    apply Byte.byte_dec_bl in E' as ->. by rewrite Byte.byte_dec_lb in E.
Qed.

Lemma stepSnapshotID_gt a b :
  stepSnapshotID gtb_byte a b = stepOf (cmpSnapshotID b a).
Proof.
  rewrite <- stepSnapshotID_lt. unfold stepSnapshotID, gtb_byte.
  rewrite (first_diff_flip Byte.eqb (cells a) (cells b) Byte_eqb_sym).
  by destruct (first_diff Byte.eqb (cells a) (cells b)) as [[x y]|].
Qed.

(** Each case of the [switch] is the three-way comparison of its key. *)
Lemma lessKey_keyCmp key hi hj :
  lessKey key hi hj =
  match keyCmp key with
  | Some c => stepOf (c hi hj)
  | None => Default
  end.
Proof.
  unfold lessKey, keyCmp.
  destruct (String.eqb key "CreationTime"); [apply stepTime_Before|].
  destruct (String.eqb key "-CreationTime"); [apply stepTime_After|].
  destruct (String.eqb key "SnapshotID"); [apply stepSnapshotID_lt|].
  destruct (String.eqb key "-SnapshotID"); [apply stepSnapshotID_gt|].
  destruct (String.eqb key "Version"); [apply stepVersion_lt|].
  destruct (String.eqb key "-Version"); [apply stepVersion_gt|].
  destruct (String.eqb key "Tags"); [apply stepTags_lt|].
  destruct (String.eqb key "-Tags"); [apply stepTags_gt|].
  reflexivity.
Qed.

Lemma less_cmpKeys sortKeys hi hj :
  less sortKeys hi hj = ltb_of (cmpKeys sortKeys) hi hj.
Proof.
  induction sortKeys as [|key rest IH]; simpl; [done|].
  rewrite lessKey_keyCmp. destruct (keyCmp key) as [c|]; [|done].
  unfold ltb_of, then_cmp in *. destruct (c hi hj); simpl; [|done|done].
  by rewrite IH.
Qed.

(** The comparison [SortHeaders] sorts by is a strict weak order, whatever
    the keys. *)
Lemma less_StrictWeakOrder sortKeys : StrictWeakOrder (less sortKeys).
Proof.
  destruct (Lawful_swo _ (Lawful_cmpKeys sortKeys)) as [H1 H2 H3].
  split; intros *; rewrite !less_cmpKeys; auto. apply H2. apply H3.
Qed.

(** *** Insertion sort is such a [sort.Slice] *)

Section InsertionSort.
Context {A : Type} (less : A -> A -> bool).

(** A sorted prefix, last element first: none is less than a later one. *)
Definition rsorted (l : list A) : Prop :=
  StronglySorted (fun a b => less a b = false) l.

Lemma insert_perm x l : Permutation (fst (insert less x l)) (x :: l).
Proof.
  induction l as [|y l IH]; simpl; [done|].
  destruct (less x y); [|done].
  destruct (insert less x l) as [r calls]. simpl in *.
  rewrite IH. apply perm_swap.
Qed.

Lemma insertionSort_aux_perm todo acc :
  Permutation (fst (insertionSort_aux less todo acc)) (rev acc ++ todo).
Proof.
  revert acc. induction todo as [|x todo IH]; intros acc; simpl.
  - by rewrite app_nil_r.
  - pose proof (insert_perm x acc) as Hi.
    destruct (insert less x acc) as [l calls]. simpl in Hi.
    specialize (IH l). destruct (insertionSort_aux less todo l) as [r calls']. simpl in *.
    rewrite IH. rewrite <- !Permutation_rev, Hi.
    simpl. apply Permutation_middle.
Qed.

Lemma insert_rsorted x l :
  StrictWeakOrder less -> rsorted l -> rsorted (fst (insert less x l)).
Proof.
  intros [Hirr Htr Hneg]. induction 1 as [|y l Hs IH Hy]; simpl.
  - repeat constructor.
  - destruct (less x y) eqn:E.
    + pose proof (insert_perm x l) as Hp.
      destruct (insert less x l) as [r calls]. simpl in *.
      constructor; [done|].
      apply List.Forall_forall. intros w Hw.
      apply list_elem_of_In in Hw. rewrite Hp in Hw. apply list_elem_of_In in Hw.
      destruct Hw as [<-|Hw].
      * destruct (less y x) eqn:E'; [|done].
        pose proof (Htr _ _ _ E E') as Hxx. by rewrite Hirr in Hxx.
      * by apply (proj1 (List.Forall_forall _ _) Hy).
    + simpl. constructor; [by constructor|].
      constructor; [done|].
      apply List.Forall_forall. intros w Hw.
      apply (Hneg x y w E). by apply (proj1 (List.Forall_forall _ _) Hy).
Qed.

Lemma rsorted_rev l : rsorted l -> sorted_by less (rev l).
Proof.
  unfold rsorted, sorted_by. induction 1 as [|y l Hs IH Hy]; simpl; [constructor|].
  apply StronglySorted_app_2; [|done|by repeat constructor].
  intros a b Ha Hb. apply list_elem_of_singleton in Hb as ->.
  apply list_elem_of_In, in_rev in Ha.
  by apply (proj1 (List.Forall_forall _ _) Hy).
Qed.

Lemma insertionSort_aux_sorted todo acc :
  StrictWeakOrder less -> rsorted acc ->
  sorted_by less (fst (insertionSort_aux less todo acc)).
Proof.
  intros Hswo. revert acc. induction todo as [|x todo IH]; intros acc Hacc; simpl.
  - by apply rsorted_rev.
  - pose proof (insert_rsorted x acc Hswo Hacc) as Hi.
    destruct (insert less x acc) as [l calls]. simpl in Hi.
    specialize (IH l Hi). by destruct (insertionSort_aux less todo l).
Qed.

Lemma insertionSort_aux_presorted todo acc :
  sorted_by less (rev acc ++ todo) ->
  fst (insertionSort_aux less todo acc) = rev acc ++ todo.
Proof.
  revert acc. induction todo as [|x todo IH]; intros acc Hs; simpl.
  - by rewrite app_nil_r.
  - assert (fst (insert less x acc) = x :: acc) as Hi.
    { destruct acc as [|y acc]; simpl; [done|].
      assert (less x y = false) as ->; [|done].
      simpl in Hs. rewrite <- app_assoc in Hs. simpl in Hs.
      apply StronglySorted_app_1_r in Hs. apply StronglySorted_inv in Hs as [_ Hall].
      by apply Forall_inv in Hall. }
    destruct (insert less x acc) as [l calls]. simpl in Hi. subst l.
    specialize (IH (x :: acc)). simpl in IH. rewrite <- app_assoc in IH. simpl in IH.
    destruct (insertionSort_aux less todo (x :: acc)) as [r calls']. simpl in *.
    by apply IH.
Qed.

End InsertionSort.

Definition insertionSorter : SliceSorter.
Proof.
  refine {| sort_Slice := fun A x less => insertionSort x less |}.
  - intros A x less. apply (insertionSort_aux_perm less x []).
  - intros A x less H. apply (insertionSort_aux_sorted less x [] H). constructor.
  - intros A x less H. apply (insertionSort_aux_presorted less x [] H).
Defined.

Lemma fst_SortHeaders S headers sortKeys :
  fst (SortHeaders S headers sortKeys) = fst (sort_Slice S Header headers (less sortKeys)).
Proof. unfold SortHeaders. by destruct (sort_Slice S Header headers (less sortKeys)). Qed.


(** Three headers created at 1, 2 and 3 seconds, tagged [x], [x; y], [z]. *)
Definition zeroID : Checksum := repeat x00 32.
Definition headerAt (sec : Z) (tags : list string) : Header :=
  mkHeader zeroID "1.0.0" (mkTime sec 0) 0 (mkIdentity [] []) "default" tags []
    (mkImporter "" "" "") zeroID zeroID zeroID zeroID zeroID (mkSummary 0 0 0).
Definition threeHeaders : list Header :=
  [ headerAt 1 ["x"]; headerAt 2 ["x"; "y"]; headerAt 3 ["z"] ].


Example SortHeaders_unknown_key :
  SortHeaders insertionSorter threeHeaders ["Category"]
  = (threeHeaders, Some (InvalidSortKey "Category")).
Proof. vm_compute. reflexivity. Qed.

(** *** The context of a header *)

(** The keys a context binds. *)
Definition bound (h : Header) (key : string) : bool :=
  existsb (fun kv => String.eqb (Key kv) key) (Context h).

Lemma getContext_app context key value other :
  getContext (context ++ [mkKeyValue key value]) other =
  if existsb (fun kv => String.eqb (Key kv) other) context then getContext context other
  else if String.eqb key other then value else "".
Proof.
  induction context as [|kv rest IH]; simpl; [done|].
  destruct (String.eqb (Key kv) other); simpl; done.
Qed.

(** [GetContext] after [SetContext]: a key the context did not bind reads
    the value set; a key it bound still reads its first value, because the
    new pair goes to the end and the first pair with the key wins; every
    other key reads as before. *)
Theorem GetContext_SetContext (h : Header) (key value other : string) :
  GetContext (SetContext h key value) other =
  if bound h other then GetContext h other
  else if String.eqb key other then value
  else GetContext h other.
Proof.
  unfold GetContext, SetContext, bound. cbn [Context]. rewrite getContext_app.
  destruct (existsb _ (Context h)) eqn:E; [done|].
  destruct (String.eqb key other); [done|].
  induction (Context h) as [|kv rest IH]; simpl in *; [done|].
  destruct (String.eqb (Key kv) other); simpl in *; [done|]. by apply IH.
Qed.

(** *** The errors of [SortHeaders] *)

(** The keys the comparison has a case for. *)
Definition sortableKeys : list string :=
  [ "CreationTime"; "-CreationTime"; "SnapshotID"; "-SnapshotID";
    "Version"; "-Version"; "Tags"; "-Tags" ].

Lemma lessKey_Default key hi hj : lessKey key hi hj = Default -> ~ In key sortableKeys.
Proof.
  intros H Hin. unfold sortableKeys in Hin.
  repeat (destruct Hin as [<-|Hin]; [revert H; unfold lessKey; simpl;
    unfold stepSnapshotID, stepTags;
    repeat match goal with |- context [match ?x with _ => _ end] => destruct x end;
    discriminate|]).
  done.
Qed.

Lemma lessErr_Some sortKeys hi hj e :
  lessErr sortKeys hi hj = Some e ->
  exists key, e = InvalidSortKey key /\ In key sortKeys /\ ~ In key sortableKeys.
Proof.
  induction sortKeys as [|key rest IH]; simpl; [done|].
  destruct (lessKey key hi hj) eqn:E; [done| |].
  - intros (k & ? & ? & ?)%IH. exists k. auto.
  - intros [= <-]. exists key. split; [done|]. split; [by left|]. by eapply lessKey_Default.
Qed.

(** [SortHeaders] returns no error, or the error [invalid sort key] for one
    of the keys it was given that the comparison has no case for.  So it
    returns none when every key is one of the eight it compares by. *)
Theorem SortHeaders_error (S : SliceSorter) (headers : list Header) (sortKeys : list string) :
  snd (SortHeaders S headers sortKeys) = None \/
  exists key, snd (SortHeaders S headers sortKeys) = Some (InvalidSortKey key) /\
              In key sortKeys /\ ~ In key sortableKeys.
Proof.
  unfold SortHeaders. destruct (sort_Slice S Header headers (less sortKeys)) as [sorted calls].
  cbn [snd].
  assert (forall err0 : option error,
    (err0 = None \/ exists key, err0 = Some (InvalidSortKey key) /\
                                In key sortKeys /\ ~ In key sortableKeys) ->
    let r := fold_left (fun err '(hi, hj) =>
                          match lessErr sortKeys hi hj with
                          | Some e => Some e
                          | None => err
                          end) calls err0 in
    r = None \/ exists key, r = Some (InvalidSortKey key) /\
                            In key sortKeys /\ ~ In key sortableKeys) as H.
  { induction calls as [|[hi hj] calls IH]; intros err0 H0; simpl; [done|].
    apply IH. destruct (lessErr sortKeys hi hj) as [e|] eqn:E; [|done].
    right. apply lessErr_Some in E as (key & -> & ? & ?). by exists key. }
  apply H. by left.
Qed.

(** An unknown key ends the comparison: the keys after it are never
    consulted, and the order is that of the keys before it. *)
Theorem less_unknown_key (pre post : list string) (key : string) (hi hj : Header) :
  ~ In key sortableKeys ->
  less (pre ++ key :: post) hi hj = less pre hi hj.
Proof.
  intros Hkey. induction pre as [|k pre IH]; simpl.
  - assert (lessKey key hi hj = Default) as ->; [|done].
    unfold lessKey.
    repeat match goal with
           | |- context [String.eqb key ?k] =>
               destruct (String.eqb_spec key k) as [->|_];
               [exfalso; apply Hkey; unfold sortableKeys; simpl; tauto|]
           end.
    done.
  - by rewrite IH.
Qed.

Lemma less_unknown_key_witness :
  less ["Tags"; "Category"; "Version"] (headerAt 1 ["x"]) (headerAt 2 ["x"])
  = less ["Tags"] (headerAt 1 ["x"]) (headerAt 2 ["x"]).
Proof.
  apply (less_unknown_key ["Tags"] ["Version"] "Category").
  intros H. repeat (destruct H as [H|H]; [discriminate H|]). done.
Defined.

(** *** [ParseSortKeys] on what it returned *)

Lemma substring_all s : String.substring 0 (String.length s) s = s.
Proof. induction s as [|c s IH]; simpl; [done|]. by rewrite IH. Qed.

(** The keys that pass: the names of the fields, with or without [-]. *)
Definition passingKeys : list string := headerFields ++ map (String "-") headerFields.

Lemma validKey_passing key : validKey key -> In key passingKeys.
Proof.
  unfold validKey, lookupKey, HasPrefix, passingKeys. rewrite in_app_iff.
  destruct key as [|c rest]; [done|]. cbn [String.prefix].
  destruct (Ascii.ascii_dec "-" c) as [<-|Hc].
  - assert (String.prefix "" rest = true) as -> by (by destruct rest).
    cbn [String.length]. replace (S (String.length rest) - 1)%nat with (String.length rest) by lia.
    change (String.substring 1 (String.length rest) (String "-" rest))
      with (String.substring 0 (String.length rest) rest).
    rewrite substring_all. intros H%FieldByName_spec. right. by apply in_map.
  - intros H%FieldByName_spec. by left.
Qed.

Lemma passingKeys_plain :
  Forall (fun key => TrimSpace key = key /\ PathFacts.sep_free "," key = true /\ key <> "")
         passingKeys.
Proof. repeat constructor; vm_compute; congruence. Qed.

(** [ParseSortKeys] accepts what it returned: the keys of a successful
    parse, joined by commas, parse to the same keys. *)
Theorem ParseSortKeys_Join (sortKeysStr : string) (keys : list string) :
  ParseSortKeys sortKeysStr = Ok keys ->
  ParseSortKeys (Join keys ",") = Ok keys.
Proof.
  unfold ParseSortKeys at 1. destruct (String.eqb_spec sortKeysStr "") as [->|Hne].
  { by intros [= <-]. }
  intros H.
  pose proof (parseKeys_spec (Split sortKeysStr ",") ∅ [] [] (NoDup_nil_2)
                ltac:(by intros x; rewrite lookup_empty)) as Hspec.
  rewrite H in Hspec. destruct Hspec as (Hkeys & Hnd & Hvalid). simpl in Hkeys, Hnd.
  rewrite <- Hkeys in Hnd, Hvalid.
  assert (Forall (fun key => TrimSpace key = key /\ PathFacts.sep_free "," key = true
                             /\ key <> "") keys) as Hplain.
  { apply List.Forall_forall. intros key Hin.
    apply (proj1 (List.Forall_forall _ _) passingKeys_plain), validKey_passing.
    by apply (proj1 (List.Forall_forall _ _) Hvalid). }
  assert (keys <> []) as Hnil.
  { rewrite Hkeys. by destruct sortKeysStr as [|c s]; [|simpl; destruct (Ascii.eqb c ","), (Split s ",")]. }
  assert (map TrimSpace keys = keys) as Htrim.
  { clear -Hplain. induction Hplain as [|k l (Hk & _) _ IH]; simpl; [done|]. by rewrite Hk, IH. }
  unfold ParseSortKeys.
  assert (Join keys "," <> "") as HJ.
  { destruct keys as [|k [|k' l]]; [done| |].
    - by inversion Hplain as [|? ? (_ & _ & ?) _].
    - inversion Hplain as [|? ? (_ & _ & Hk) _]; subst. simpl.
      destruct k; [done|]. done. }
  destruct (String.eqb_spec (Join keys ",") ""); [done|].
  rewrite PathFacts.Split_Join; [|done|].
  2: { eapply Forall_impl; [exact Hplain|]. by intros k (_ & ? & _). }
  pose proof (parseKeys_spec keys ∅ [] [] (NoDup_nil_2)
                ltac:(by intros x; rewrite lookup_empty)) as Hspec.
  rewrite Htrim in Hspec. simpl in Hspec.
  destruct (parseKeys keys ∅ []) as [l|e]; [by destruct Hspec as (-> & _)|].
  destruct Hspec as (pre & key & post & -> & _ & _ & [[Hdup _]|(_ & Hinv & _)]).
  - exfalso. rewrite map_app in Hnd. simpl in Hnd.
    apply NoDup_app in Hnd as (_ & Hdisj & _).
    apply (Hdisj (lookupKey key)); [by apply list_elem_of_In|]. by left.
  - exfalso. apply Forall_app in Hvalid as [_ Hv]. inversion Hv as [|? ? Hk _]; subst.
    unfold validKey in Hk. congruence.
Qed.

Lemma ParseSortKeys_Join_witness :
  ParseSortKeys (Join ["-CreationTime"; "Tags"] ",") = Ok ["-CreationTime"; "Tags"].
Proof.
  apply (ParseSortKeys_Join " -CreationTime , Tags"). vm_compute. reflexivity.
Defined.

End HeaderFacts.

(** ** Properties of the encryption code *)

Module EncryptionFacts.
Import Encryption.

(** *** Secrets *)

(** C2.  For a secret that [BuildSecretFromPassphrase] produced from a
    passphrase and a salt of 16 bytes: the secret is the encoding of the
    salt followed by the 32-byte key derived from the passphrase and the
    salt, and [DeriveSecret] with any passphrase returns a key exactly when
    the key recomputed from that passphrase and the stored salt is the
    stored key, which it then returns.  So it succeeds for the passphrase the
    secret was built from, the zero-byte passphrase included, and returns
    the error [passphrase does not match] whenever the recomputed key
    differs. *)
Theorem DeriveSecret_BuildSecretFromPassphrase
    (K : Scrypt) (B : Base64) (salt passphrase' : list byte) (secret : string) :
  length salt = saltSize ->
  BuildSecretFromPassphrase K B (Ok salt) passphrase' = Ok secret ->
  exists key,
    scrypt_Key K passphrase' salt (Z.shiftl 1 15) 8 1 32 = Ok key /\
    length key = 32%nat /\
    secret = EncodeToString B (salt ++ key) /\
    DeriveSecret K B passphrase' secret = Returns (Ok key) /\
    forall passphrase,
      (forall dk, DeriveSecret K B passphrase secret = Returns (Ok dk) <->
                  scrypt_Key K passphrase salt (Z.shiftl 1 15) 8 1 32 = Ok dk /\ dk = key) /\
      (forall dk, scrypt_Key K passphrase salt (Z.shiftl 1 15) 8 1 32 = Ok dk -> dk <> key ->
                  DeriveSecret K B passphrase secret = Returns (Err ErrPassphrase)) /\
      (forall err, scrypt_Key K passphrase salt (Z.shiftl 1 15) 8 1 32 = Err err ->
                   DeriveSecret K B passphrase secret = Returns (Err err)).
Proof.
  intros Hsalt. unfold BuildSecretFromPassphrase.
  destruct (scrypt_Key K passphrase' salt (Z.shiftl 1 15) 8 1 32) as [key|err] eqn:Hkey;
    [|done].
  intros [= <-]. exists key.
  pose proof (scrypt_Key_length K _ _ _ _ _ _ _ Hkey) as Hlen.
  assert (forall passphrase,
    DeriveSecret K B passphrase (EncodeToString B (salt ++ key)) =
    match scrypt_Key K passphrase salt (Z.shiftl 1 15) 8 1 32 with
    | Err err => Returns (Err err)
    | Ok dk => if negb (bytes_Equal dk key) then Returns (Err ErrPassphrase)
               else Returns (Ok dk)
    end) as Hderive.
  { intros passphrase. unfold DeriveSecret. rewrite DecodeString_EncodeToString.
    destruct (decide (length (salt ++ key) < saltSize)%nat) as [Hlt|_].
    { rewrite length_app in Hlt. lia. }
    rewrite take_app_length' by done. rewrite drop_app_length' by done. done. }
  split; [done|]. split; [done|]. split; [done|]. split.
  { rewrite Hderive, Hkey. unfold bytes_Equal. by rewrite bool_decide_eq_true_2. }
  intros passphrase. rewrite Hderive. unfold bytes_Equal.
  destruct (scrypt_Key K passphrase salt (Z.shiftl 1 15) 8 1 32) as [dk|err].
  - split; [|split]; [| |done].
    + intros dk'. destruct (bool_decide_reflect (dk = key)) as [->|Hne]; simpl.
      * split; [by intros [= <-]|by intros [[= <-] _]].
      * split; [done|]. intros [[= <-] ->]. done.
    + intros dk' [= <-] Hne. by rewrite bool_decide_eq_false_2.
  - split; [|split]; [| |by intros err' [= <-]].
    + intros dk. split; [done|by intros [? _]].
    + done.
Qed.

(** *** Stand-ins for the libraries

    Functions that the three records hold of, to run the code on. *)

(** A key of [keyLen] bytes cut from the password and the salt. *)
Definition cutKey (password salt : list byte) (N r p : Z) (keyLen : nat)
  : result error (list byte) :=
  Ok (take keyLen (password ++ salt ++ repeat x00 keyLen)).

Lemma cutKey_length password salt N r p keyLen dk :
  cutKey password salt N r p keyLen = Ok dk -> length dk = keyLen.
Proof.
  intros [= <-]. rewrite length_take, !length_app, repeat_length. lia.
Qed.

Definition cutScrypt : Scrypt :=
  {| scrypt_Key := cutKey; scrypt_Key_length := cutKey_length |}.

(** The bytes as the characters of a string. *)
Definition plainBase64 : Base64 :=
  {| EncodeToString := string_of_list_byte;
     DecodeString := fun s => Ok (list_byte_of_string s);
     DecodeString_EncodeToString :=
       fun src => f_equal Ok (list_byte_of_string_of_list_byte src) |}.

(** The plain text followed by a tag of [Overhead] bytes cut from the nonce
    and the key; opening checks the tag. *)
Definition tagOf (key nonce : list byte) : list byte :=
  take Overhead (nonce ++ key ++ repeat x00 Overhead).

Definition tagSeal (key nonce plaintext : list byte) : list byte :=
  plaintext ++ tagOf key nonce.

Definition tagOpen (key nonce ciphertext : list byte) : result error (list byte) :=
  let n := (length ciphertext - Overhead)%nat in
  if decide (length ciphertext < Overhead)%nat then Err ErrOpenFailed
  else if bytes_Equal (drop n ciphertext) (tagOf key nonce) then Ok (take n ciphertext)
  else Err ErrOpenFailed.

Lemma length_tagOf key nonce : length (tagOf key nonce) = Overhead.
Proof. unfold tagOf. rewrite length_take, !length_app, repeat_length. lia. Qed.

Lemma tagSeal_length key nonce plaintext :
  validKey key = true -> length nonce = NonceSize ->
  length (tagSeal key nonce plaintext) = (length plaintext + Overhead)%nat.
Proof. intros _ _. unfold tagSeal. by rewrite length_app, length_tagOf. Qed.

Lemma tagOpen_tagSeal key nonce plaintext :
  validKey key = true -> length nonce = NonceSize ->
  tagOpen key nonce (tagSeal key nonce plaintext) = Ok plaintext.
Proof.
  intros _ _. unfold tagOpen, tagSeal. rewrite length_app, length_tagOf.
  destruct (decide (length plaintext + Overhead < Overhead)%nat); [lia|].
  replace (length plaintext + Overhead - Overhead)%nat with (length plaintext) by lia.
  rewrite drop_app_length, take_app_length. unfold bytes_Equal.
  by rewrite bool_decide_eq_true_2.
Qed.

Definition tagGCM : GCM :=
  {| Seal := tagSeal; Open := tagOpen;
     Seal_length := tagSeal_length; Open_Seal := tagOpen_tagSeal |}.

Definition zeroSalt : list byte := repeat x00 16.
Definition hunter2 : list byte := list_byte_of_string "hunter2".
Definition wrong : list byte := list_byte_of_string "wrong".

Lemma DeriveSecret_BuildSecretFromPassphrase_witness :
  exists secret key,
    BuildSecretFromPassphrase cutScrypt plainBase64 (Ok zeroSalt) [] = Ok secret /\
    DeriveSecret cutScrypt plainBase64 [] secret = Returns (Ok key) /\
    length key = 32%nat /\
    DeriveSecret cutScrypt plainBase64 wrong secret = Returns (Err ErrPassphrase).
Proof.
  eexists _, _.
  pose proof (DeriveSecret_BuildSecretFromPassphrase cutScrypt plainBase64 zeroSalt []
                _ eq_refl eq_refl) as (key & Hkey & Hlen & _ & Hsame & Hother).
  injection Hkey as <-.
  split; [reflexivity|]. split; [exact Hsame|]. split; [exact Hlen|].
  destruct (Hother wrong) as (_ & Hne & _).
  eapply Hne; [reflexivity|]. vm_compute. discriminate.
Defined.

Example DeriveSecret_short_secret :
  DeriveSecret cutScrypt plainBase64 hunter2 "short" = Panics.
Proof. vm_compute. reflexivity. Qed.

(** *** Streams *)

Lemma encryptLoop_eq seal r :
  encryptLoop seal r =
  match Read r chunkSize with
  | ((buf, Some err), _) => ([], closeError err)
  | ((buf, None), r') =>
      let '(writes, closeErr) := encryptLoop seal r' in (seal buf :: writes, closeErr)
  end.
Proof.
  funelim (encryptLoop seal r).
  - by rewrite e.
  - by rewrite Heq.
Qed.

Lemma decryptLoop_eq open r :
  decryptLoop open r =
  match Read r (chunkSize + Overhead) with
  | ((buf, Some err), _) => ([], closeError err)
  | ((buf, None), r') =>
      match open buf with
      | Err err => ([], Some err)
      | Ok decryptedChunk =>
          let '(writes, closeErr) := decryptLoop open r' in
          (decryptedChunk :: writes, closeErr)
      end
  end.
Proof.
  funelim (decryptLoop open r).
  - by rewrite e.
  - by rewrite Heq.
Qed.

Lemma readAtLeast_eq r got want :
  readAtLeast r got want =
  if decide (length got < want)%nat then
    match Read r (want - length got) with
    | ((buf, None), r') => readAtLeast r' (got ++ buf) want
    | ((buf, Some err), r') =>
        let got := got ++ buf in
        if decide (want <= length got)%nat then ((got, None), r')
        else match got, err with
             | _ :: _, EOF => ((got, Some ErrUnexpectedEOF), r')
             | _, _ => ((got, Some err), r')
             end
    end
  else ((got, None), r).
Proof.
  funelim (readAtLeast r got want);
    repeat match goal with
           | E : decide _ = _ |- _ => rewrite E
           | E : Read _ _ = _ |- _ => rewrite E
           end; done.
Qed.

(** A burst that fits the buffer is read whole. *)
Lemma Read_whole seg rest fin n :
  (length seg <= n)%nat ->
  Read (mkReader (seg :: rest) fin false) n = ((seg, None), mkReader rest fin false).
Proof.
  intros Hn. unfold Read. simpl.
  rewrite drop_ge by done. rewrite take_ge by done. by destruct rest.
Qed.

Lemma Read_spec r n buf e r' :
  Read r n = ((buf, e), r') ->
  concat (segments r) = buf ++ concat (segments r') /\
  (length buf <= n)%nat /\ final r' = final r /\ withData r' = withData r /\
  (forall err, e = Some err -> err = final r /\ (withData r = false -> segments r = [])).
Proof.
  unfold Read. destruct r as [[|seg rest] fin wd]; simpl.
  - intros [= <- <- <-]. simpl. split_and!; [done|lia|done|done|].
    by intros ? [= <-].
  - destruct (drop n seg) as [|b later] eqn:Hd.
    + assert (take n seg = seg) as Ht.
      { rewrite <- (take_drop n seg) at 2. by rewrite Hd, app_nil_r. }
      assert (length (take n seg) <= n)%nat by (rewrite length_take; lia).
      destruct rest as [|s rest'].
      * intros [= <- <- <-]. simpl. rewrite Ht, !app_nil_r in *.
        split_and!; [done|lia|done|done|].
        intros err. destruct wd; [|done]. intros [= <-]. done.
      * intros [= <- <- <-]. simpl. rewrite Ht in *. split_and!; [done|lia|done|done|done].
    + intros [= <- <- <-]. split_and!; [|rewrite length_take; lia|done|done|done].
      cbn. rewrite <- (take_drop n seg) at 1. rewrite Hd. by rewrite <- app_assoc.
Qed.

(** The goroutine of [EncryptStream] on a reader that keeps its final
    error for a [Read] of its own: it seals chunks of at most [chunkSize]
    bytes that together are the data. *)
Lemma encryptLoop_chunks seal r :
  withData r = false ->
  exists chunks,
    encryptLoop seal r = (map seal chunks, closeError (final r)) /\
    concat chunks = concat (segments r) /\
    Forall (fun c => (length c <= chunkSize)%nat) chunks.
Proof.
  funelim (encryptLoop seal r); intros Hwd.
  - clear H Heqcall. apply Read_spec in e as (Hc & _ & _ & _ & He).
    destruct (He err eq_refl) as [-> Hs]. rewrite (Hs Hwd). by exists [].
  - clear H0. apply Read_spec in Heq as (Hc & Hlen & Hfin & Hwd' & _).
    destruct H as (chunks & Hloop & Hcat & Hall); [congruence|].
    exists (buf :: chunks). rewrite Hloop. simpl. rewrite Hfin, Hcat, Hc.
    split; [done|]. split; [done|]. by constructor.
Qed.

(** The goroutine of [DecryptStream] on the chunks the other one wrote. *)
Lemma decryptLoop_sealed (G : GCM) key nonce chunks fin :
  validKey key = true -> length nonce = NonceSize ->
  Forall (fun c => (length c <= chunkSize)%nat) chunks ->
  decryptLoop (Open G key nonce) (mkReader (map (Seal G key nonce) chunks) fin false)
  = (chunks, closeError fin).
Proof.
  intros Hkey Hnonce. induction 1 as [|c chunks Hc Hall IH]; rewrite decryptLoop_eq.
  - done.
  - cbn [map]. rewrite Read_whole by (rewrite Seal_length by done; lia).
    rewrite Open_Seal by done. by rewrite IH.
Qed.

Lemma ReadFull_whole seg rest fin n :
  length seg = n -> (0 < n)%nat ->
  ReadFull (mkReader (seg :: rest) fin false) n = ((seg, None), mkReader rest fin false).
Proof.
  intros <- Hpos. unfold ReadFull. rewrite readAtLeast_eq. simpl.
  destruct (decide (0 < length seg)%nat) as [_|Hz]; [|lia].
  rewrite Nat.sub_0_r, Read_whole by done. simpl.
  rewrite readAtLeast_eq. destruct (decide (length seg < length seg)%nat); [lia|done].
Qed.

Lemma validKey_32 key : length key = 32%nat -> validKey key = true.
Proof. unfold validKey. by intros ->. Qed.

(** The round trip, for a reader that ends in [io.EOF] and keeps it for a
    [Read] of its own: the encrypted stream is the sub-key nonce, the sealed
    sub-key, the data nonce and the sealed chunks, each of at most 1 KiB of
    plain text, and decrypting it delivers the data. *)
Theorem EncryptStream_DecryptStream
    (G : GCM) (key subkey subkeyNonce dataNonce : list byte) (r : Reader) :
  length key = 32%nat -> length subkey = 32%nat ->
  length subkeyNonce = NonceSize -> length dataNonce = NonceSize ->
  withData r = false -> final r = EOF ->
  exists chunks enc dec,
    EncryptStream G (Ok subkey) (Ok subkeyNonce) (Ok dataNonce) key r = Ok enc /\
    concat chunks = concat (segments r) /\
    Forall (fun c => (length c <= chunkSize)%nat) chunks /\
    ReadAll enc =
      (subkeyNonce ++ Seal G key subkeyNonce subkey ++ dataNonce
         ++ concat (map (Seal G subkey dataNonce) chunks), None) /\
    DecryptStream G key enc = Ok dec /\
    ReadAll dec = ReadAll r /\
    ReadAll r = (concat (segments r), None).
Proof.
  intros Hkey Hsub Hsn Hdn Hwd Hfin.
  pose proof (validKey_32 _ Hkey) as Hvk. pose proof (validKey_32 _ Hsub) as Hvs.
  destruct (encryptLoop_chunks (Seal G subkey dataNonce) r Hwd) as (chunks & Hloop & Hcat & Hall).
  exists chunks. unfold EncryptStream, NewCipher. rewrite Hvk, Hvs, Hloop, Hfin. simpl.
  eexists _, _. split; [reflexivity|]. split; [done|]. split; [done|].
  split.
  { unfold ReadAll, pipe. simpl. done. }
  unfold DecryptStream, NewCipher, pipe. rewrite Hvk. simpl.
  assert (length (Seal G key subkeyNonce subkey) = (Overhead + 32)%nat) as Hes
    by (rewrite Seal_length by done; lia).
  rewrite (ReadFull_whole subkeyNonce) by (done || (unfold NonceSize; lia)).
  rewrite (ReadFull_whole (Seal G key subkeyNonce subkey)) by (done || (unfold Overhead; lia)).
  rewrite Open_Seal by done. rewrite Hvs.
  rewrite (ReadFull_whole dataNonce) by (done || (unfold NonceSize; lia)).
  rewrite decryptLoop_sealed by done.
  split; [reflexivity|]. unfold ReadAll. simpl. by rewrite Hcat, Hfin.
Qed.

Definition key32 : list byte := repeat x2a 32.
Definition subkey32 : list byte := repeat x07 32.
Definition nonceA : list byte := repeat x01 12.
Definition nonceB : list byte := repeat x02 12.

(** [abc] and [de], delivered in two bursts, [io.EOF] on a [Read] of its own. *)
Definition twoBursts : Reader := mkReader [[x61; x62; x63]; [x64; x65]] EOF false.

Lemma EncryptStream_DecryptStream_witness :
  exists enc dec,
    EncryptStream tagGCM (Ok subkey32) (Ok nonceA) (Ok nonceB) key32 twoBursts = Ok enc /\
    DecryptStream tagGCM key32 enc = Ok dec /\
    ReadAll dec = ([x61; x62; x63; x64; x65], None).
Proof.
  destruct (EncryptStream_DecryptStream tagGCM key32 subkey32 nonceA nonceB twoBursts
              eq_refl eq_refl eq_refl eq_refl eq_refl eq_refl)
    as (chunks & enc & dec & H1 & _ & _ & _ & H2 & H3 & H4).
  exists enc, dec. split; [exact H1|]. split; [exact H2|]. by rewrite H3, H4.
Defined.

(** A [Read] that returns the last bytes together with [io.EOF] ends the
    loop of [EncryptStream] with nothing sealed. *)
Lemma encryptLoop_last_with_EOF seal data :
  (length data <= chunkSize)%nat ->
  encryptLoop seal (mkReader [data] EOF true) = ([], None).
Proof.
  intros Hlen. rewrite encryptLoop_eq. unfold Read. simpl.
  by rewrite drop_ge by done.
Qed.

(** [abc] delivered by a [Read] that returns [io.EOF] with it, as
    [iotest.DataErrReader] does. *)
Definition lastWithEOF : Reader := mkReader [[x61; x62; x63]] EOF true.

(** C1, at the failing input.  The reader delivers [abc] in one [Read]
    that returns [io.EOF] with the bytes.  [EncryptStream] writes the two
    nonces and the sealed sub-key and no sealed chunk, and reading all of
    [DecryptStream] of it yields no byte, not [abc]. *)
Theorem EncryptStream_drops_bytes_read_with_EOF :
  ReadAll lastWithEOF = ([x61; x62; x63], None) /\
  exists enc dec,
    EncryptStream tagGCM (Ok subkey32) (Ok nonceA) (Ok nonceB) key32 lastWithEOF = Ok enc /\
    segments enc = [nonceA; Seal tagGCM key32 nonceA subkey32; nonceB] /\
    DecryptStream tagGCM key32 enc = Ok dec /\
    ReadAll dec = ([], None).
Proof.
  split; [reflexivity|]. eexists _, _.
  split; [vm_compute; reflexivity|]. split; [reflexivity|].
  split; [vm_compute; reflexivity|]. reflexivity.
Qed.

(** *** Buffers *)

Lemma validKey_length key : validKey key = true -> (16 <= length key)%nat.
Proof.
  unfold validKey. rewrite !orb_true_iff, !Nat.eqb_eq. lia.
Qed.


(** [Decrypt] on what cannot be a result of [Encrypt].  With a key that is
    not of 16, 24 or 32 bytes it returns the error of [aes.NewCipher]; with
    such a key and fewer than 44 bytes, the two blocks and a nonce, it does
    not return an error: it panics. *)
Theorem Decrypt_short (A : AES) (G : GCM) (key buf : list byte) :
  (validKey key = false -> Decrypt A G key buf = Returns (Err (KeySizeError (length key)))) /\
  (validKey key = true -> (length buf < 44)%nat -> Decrypt A G key buf = Panics).
Proof.
  unfold Decrypt, NewCipher. split; intros Hkey; rewrite Hkey; [done|]. intros Hlen.
  destruct (decide _) as [_|Hge]; [done|]. unfold BlockSize in Hge.
  set (sub := _ ++ _).
  assert (length sub = 32%nat) as Hsub.
  { subst sub. rewrite length_app.
    rewrite !block_Decrypt_length; [done|done| |done|].
    - rewrite length_drop, length_take. unfold BlockSize. lia.
    - rewrite !length_take. unfold BlockSize. lia. }
  rewrite (validKey_32 sub Hsub).
  destruct (decide _) as [_|Hn]; [done|].
  rewrite length_drop in Hn. unfold BlockSize, NonceSize in Hn. lia.
Qed.

(** A stand-in for the block cipher: a block is reversed. *)
Definition revAES : AES.
Proof.
  refine {| block_Encrypt := fun _ src => rev src;
            block_Decrypt := fun _ src => rev src |}.
  - intros. by rewrite length_rev.
  - intros. by rewrite length_rev.
  - intros. by rewrite rev_involutive.
Defined.


Lemma Decrypt_short_witness :
  Decrypt revAES tagGCM [x01] [] = Returns (Err (KeySizeError 1)) /\
  Decrypt revAES tagGCM key32 (repeat x00 43) = Panics.
Proof.
  split.
  - apply (proj1 (Decrypt_short revAES tagGCM [x01] [])). reflexivity.
  - apply (proj2 (Decrypt_short revAES tagGCM key32 (repeat x00 43))); [reflexivity|].
    simpl. lia.
Defined.

(** *** Streams that end early *)

(** The error [io.ReadFull] returns when the reader ends with [fin] before
    the buffer is full, [data] being what it had read: [fin] itself if
    nothing was read, and [io.ErrUnexpectedEOF] for [io.EOF] otherwise. *)
Definition shortError (data : list byte) (fin : error) : error :=
  match data, fin with
  | _ :: _, EOF => ErrUnexpectedEOF
  | _, _ => fin
  end.

Lemma Read_error r n buf err r' :
  Read r n = ((buf, Some err), r') -> err = final r /\ concat (segments r) = buf.
Proof.
  unfold Read. destruct r as [[|seg rest] fin wd]; simpl.
  - by intros [= <- <- <-].
  - destruct (drop n seg) as [|b later] eqn:Hd; [|done].
    destruct rest as [|s rest']; [|done]. destruct wd; [|done].
    intros [= <- <- <-]. split; [done|]. simpl. rewrite app_nil_r.
    rewrite <- (take_drop n seg) at 1. by rewrite Hd, app_nil_r.
Qed.

Lemma readAtLeast_short r got want :
  (length got + length (concat (segments r)) < want)%nat ->
  exists r',
    readAtLeast r got want =
    ((got ++ concat (segments r),
      Some (shortError (got ++ concat (segments r)) (final r))), r').
Proof.
  remember (size r) as k eqn:Hk. revert r got Hk.
  induction k as [k IH] using lt_wf_ind. intros r got -> Hlen.
  rewrite readAtLeast_eq. destruct (decide _) as [Hlt|Hge]; [|lia].
  destruct (Read r (want - length got)) as [[buf [err|]] r'] eqn:E; cbv beta iota zeta.
  - apply Read_error in E as [-> <-].
    destruct (decide _) as [Hge|_]; [rewrite length_app in Hge; lia|].
    exists r'. unfold shortError. by destruct (got ++ concat (segments r)), (final r).
  - pose proof (Read_size r (want - length got) buf r' ltac:(lia) E) as Hsz.
    apply Read_spec in E as (Hc & _ & Hfin & _ & _).
    destruct (IH (size r') Hsz r' (got ++ buf) eq_refl) as [r'' Hr''].
    { rewrite length_app. rewrite Hc, length_app in Hlen. lia. }
    exists r''. rewrite Hr'', Hfin, Hc. by rewrite <- app_assoc.
Qed.

Lemma readAtLeast_enough r got want :
  (length got <= want <= length got + length (concat (segments r)))%nat ->
  exists r',
    readAtLeast r got want =
    ((got ++ take (want - length got) (concat (segments r)), None), r') /\
    concat (segments r') = drop (want - length got) (concat (segments r)) /\
    final r' = final r.
Proof.
  remember (size r) as k eqn:Hk. revert r got Hk.
  induction k as [k IH] using lt_wf_ind. intros r got -> Hlen.
  rewrite readAtLeast_eq. destruct (decide _) as [Hlt|Hge].
  2: { exists r. replace (want - length got)%nat with O by lia.
       rewrite take_0, drop_0, app_nil_r. done. }
  destruct (Read r (want - length got)) as [[buf [err|]] r'] eqn:E; cbv beta iota zeta.
  - pose proof E as He. apply Read_error in E as [-> Hbuf].
    apply Read_spec in He as (Hc & Hb & Hfin & _ & _).
    destruct (decide _) as [Hge|Hlt']; [|rewrite length_app, <- Hbuf in Hlt'; lia].
    exists r'. rewrite length_app in Hge.
    rewrite Hbuf in *. rewrite take_ge by lia. split; [done|]. split; [|done].
    rewrite drop_ge by lia. apply (f_equal (@length _)) in Hc.
    rewrite length_app in Hc. destruct (concat (segments r')); [done|simpl in Hc; lia].
  - pose proof (Read_size r (want - length got) buf r' ltac:(lia) E) as Hsz.
    apply Read_spec in E as (Hc & Hb & Hfin & _ & _).
    destruct (IH (size r') Hsz r' (got ++ buf) eq_refl) as (r'' & Hr'' & Hcat & Hfin'').
    { rewrite length_app. rewrite Hc, length_app in Hlen. lia. }
    exists r''. rewrite Hr'', Hcat, Hfin'', Hfin, Hc, length_app.
    split; [|split; [|done]].
    + rewrite <- app_assoc. do 3 f_equal.
      rewrite take_app. rewrite (take_ge buf) by lia.
      f_equal. f_equal. lia.
    + rewrite drop_app. rewrite (drop_ge buf) by lia. simpl. f_equal. lia.
Qed.

(** [DecryptStream] on what cannot be an encrypted stream.  With a key
    that is not of 16, 24 or 32 bytes it returns the error of
    [aes.NewCipher] and reads nothing.  With such a key and a stream that
    ends before the 60 bytes of the sub-key nonce and the sealed sub-key,
    it returns the error of [io.ReadFull]: the error that ends the stream
    if it ends at the start or right after the nonce, and otherwise
    [io.ErrUnexpectedEOF] for a stream that ends in [io.EOF]. *)
Theorem DecryptStream_truncated (G : GCM) (key : list byte) (r : Reader) :
  (validKey key = false -> DecryptStream G key r = Err (KeySizeError (length key))) /\
  (validKey key = true -> (length (concat (segments r)) < 60)%nat ->
   DecryptStream G key r =
   Err (shortError (if decide (length (concat (segments r)) < 12)%nat
                    then concat (segments r) else drop 12 (concat (segments r)))
                   (final r))).
Proof.
  unfold DecryptStream, NewCipher. split; intros Hkey; rewrite Hkey; [done|].
  intros Hlen. unfold ReadFull, NonceSize, Overhead.
  destruct (decide _) as [Hlt|Hge].
  - destruct (readAtLeast_short r [] 12) as [r' ->]; [simpl; lia|]. done.
  - destruct (readAtLeast_enough r [] 12) as (r1 & -> & Hcat & Hfin); [simpl; lia|].
    cbn [app length Nat.sub].
    destruct (readAtLeast_short r1 [] (16 + 32)) as [r2 ->].
    { rewrite Hcat, length_drop. simpl. lia. }
    cbn [app]. rewrite Hcat, Hfin. done.
Qed.

Lemma DecryptStream_truncated_witness :
  DecryptStream tagGCM [x01] twoBursts = Err (KeySizeError 1) /\
  DecryptStream tagGCM key32 twoBursts = Err ErrUnexpectedEOF /\
  DecryptStream tagGCM key32 (pipe [] None) = Err EOF /\
  DecryptStream tagGCM key32 (pipe [nonceA] None) = Err EOF.
Proof.
  split; [by apply (proj1 (DecryptStream_truncated tagGCM [x01] twoBursts))|].
  split; [|split].
  - apply (proj2 (DecryptStream_truncated tagGCM key32 twoBursts)); [reflexivity|].
    simpl. lia.
  - apply (proj2 (DecryptStream_truncated tagGCM key32 (pipe [] None))); [reflexivity|].
    simpl. lia.
  - apply (proj2 (DecryptStream_truncated tagGCM key32 (pipe [nonceA] None)));
      [reflexivity|]. simpl. lia.
Defined.

(** *** The encrypted keypair *)


(** Stand-ins: the key is the passphrase cut or padded to the length,
    and nothing is compressed. *)
Definition padKey : PBKDF2.
Proof.
  refine {| pbkdf2_Key := fun password _ _ keyLen => take keyLen (password ++ repeat x00 keyLen) |}.
  intros. rewrite length_take, length_app, repeat_length. lia.
Defined.

Definition stored : Compression :=
  {| Deflate := fun data => data; Inflate := fun data => Ok data;
     Inflate_Deflate := fun data => eq_refl |}.


End EncryptionFacts.

(** ** Properties of the S3 backend *)

Module S3Facts.
Import GoStrings S3.

Lemma append_String c s t : String c s +:+ t = String c (s +:+ t).
Proof. reflexivity. Qed.

Lemma append_nil s : "" +:+ s = s.
Proof. reflexivity. Qed.

Lemma length_append s t : String.length (s +:+ t) = (String.length s + String.length t)%nat.
Proof. induction s as [|c s IH]; [done|]. rewrite append_String. simpl. by rewrite IH. Qed.

Lemma sliceFrom_append pre s : sliceFrom (String.length pre) (pre +:+ s) = s.
Proof.
  unfold sliceFrom. rewrite length_append.
  replace (String.length pre + String.length s - String.length pre)%nat
    with (String.length s) by lia.
  induction pre as [|c pre IH]; [apply HeaderFacts.substring_all|].
  by rewrite append_String.
Qed.

Lemma HasPrefix_append pre s : HasPrefix (pre +:+ s) pre = true.
Proof.
  unfold HasPrefix. induction pre as [|c pre IH]; [by destruct s|].
  rewrite append_String. simpl. by destruct (Ascii.ascii_dec c c).
Qed.

(** *** Hexadecimal *)

Lemma hex_byte b :
  fromHexChar (hexDigit (Byte.to_N b / 16)) = Some (Byte.to_N b / 16)%N /\
  fromHexChar (hexDigit (Byte.to_N b mod 16)) = Some (Byte.to_N b mod 16)%N /\
  byteOf (Byte.to_N b / 16) (Byte.to_N b mod 16) = b.
Proof. destruct b; vm_compute; done. Qed.

Lemma DecodeString_fmt_x bs : DecodeString (fmt_x bs) = Ok bs.
Proof.
  induction bs as [|b bs IH]; [done|].
  change (fmt_x (b :: bs)) with
    (String (hexDigit (Byte.to_N b / 16)) (String (hexDigit (Byte.to_N b mod 16)) (fmt_x bs))).
  cbn [DecodeString]. destruct (hex_byte b) as (-> & -> & ->). by rewrite IH.
Qed.

Lemma length_fmt_02x b : String.length (fmt_02x b) = 2%nat.
Proof. reflexivity. Qed.

(** *** Blobs *)

Lemma blobName_split checksum :
  blobName checksum = ("BLOB/" +:+ fmt_02x (hd x00 checksum) +:+ "/") +:+ fmt_x checksum.
Proof. reflexivity. Qed.

Lemma GetBlobs_loop_blobName checksums ret :
  Forall (fun c => length c = 32%nat) checksums ->
  GetBlobs_loop (map blobName checksums) ret = Ok (ret ++ checksums).
Proof.
  intros H. revert ret. induction H as [|c cs Hc _ IH]; intros ret; cbn [map GetBlobs_loop].
  - by rewrite app_nil_r.
  - assert (HasPrefix (blobName c) "BLOB/" = true) as -> by reflexivity.
    assert ((8 <=? String.length (blobName c))%nat = true) as -> by reflexivity.
    assert (sliceFrom 8 (blobName c) = fmt_x c) as ->
      by apply (sliceFrom_append ("BLOB/" +:+ fmt_02x (hd x00 c) +:+ "/") (fmt_x c)).
    rewrite DecodeString_fmt_x, Hc. cbn [Nat.eqb negb andb].
    rewrite IH. by rewrite <- app_assoc.
Qed.

(** [GetBlobs] reads back, from the names [PutBlob] stores under, the
    checksums they were stored for, in the order of the listing. *)
Theorem GetBlobs_blobName (checksums : list (list byte)) :
  Forall (fun c => length c = 32%nat) checksums ->
  GetBlobs (map blobName checksums) = Ok checksums.
Proof. intros H. unfold GetBlobs. by rewrite GetBlobs_loop_blobName. Qed.

Lemma GetBlobs_blobName_witness :
  GetBlobs [blobName (repeat xab 32); blobName (repeat x01 32)]
  = Ok [repeat xab 32; repeat x01 32].
Proof.
  apply (GetBlobs_blobName [repeat xab 32; repeat x01 32]).
  repeat constructor.
Defined.

(** *** Snapshots *)

Lemma length_substring_2 s :
  (2 <= String.length s)%nat -> String.length (String.substring 0 2 s) = 2%nat.
Proof. destruct s as [|a [|b s]]; simpl; [lia|lia|]. intros _. by destruct s. Qed.

Lemma snapshotName_split (U : UUIDs) (id : UUID U) :
  snapshotName U id =
  ("SNAPSHOT/" +:+ String.substring 0 2 (uuid_String U id) +:+ "/") +:+ uuid_String U id /\
  String.length ("SNAPSHOT/" +:+ String.substring 0 2 (uuid_String U id) +:+ "/") = 12%nat.
Proof.
  split.
  - unfold snapshotName. by rewrite !PathFacts.append_assoc.
  - rewrite !length_append, length_substring_2; [done|].
    rewrite uuid_String_length. lia.
Qed.

Lemma snapshotName_read (U : UUIDs) (id : UUID U) :
  HasPrefix (snapshotName U id) "SNAPSHOT/" = true /\
  (12 <=? String.length (snapshotName U id))%nat = true /\
  sliceFrom 12 (snapshotName U id) = uuid_String U id.
Proof.
  destruct (snapshotName_split U id) as [Hs Hl].
  split; [apply (HasPrefix_append "SNAPSHOT/")|]. split.
  - rewrite Hs, length_append, Hl. done.
  - rewrite Hs. rewrite <- Hl at 1. apply sliceFrom_append.
Qed.

Lemma GetSnapshots_loop_snapshotName (U : UUIDs) (ids : list (UUID U)) rest ret :
  GetSnapshots_loop U (map (snapshotName U) ids ++ rest) ret
  = GetSnapshots_loop U rest (ret ++ ids).
Proof.
  revert ret. induction ids as [|id ids IH]; intros ret; cbn [map app GetSnapshots_loop].
  - by rewrite app_nil_r.
  - destruct (snapshotName_read U id) as (-> & -> & ->).
    cbn [andb]. rewrite uuid_Parse_String, IH. by rewrite <- app_assoc.
Qed.

(** [GetSnapshots] reads back, from the names [PutSnapshot] and [Commit]
    store under, the ids they were stored for, in the order of the
    listing.  An object under [SNAPSHOT/] whose name, from the 13th
    character on, is no id makes it panic. *)
Theorem GetSnapshots_snapshotName (U : UUIDs) (ids : list (UUID U)) :
  GetSnapshots U (map (snapshotName U) ids) = Returns ids /\
  forall stray rest,
    HasPrefix stray "SNAPSHOT/" = true -> (12 <= String.length stray)%nat ->
    uuid_Parse U (sliceFrom 12 stray) = None ->
    GetSnapshots U (map (snapshotName U) ids ++ stray :: rest) = Panics.
Proof.
  unfold GetSnapshots. split.
  - rewrite <- (app_nil_r (map _ ids)), GetSnapshots_loop_snapshotName. done.
  - intros stray rest Hp Hl Hparse. rewrite GetSnapshots_loop_snapshotName.
    cbn [GetSnapshots_loop]. rewrite Hp, (proj2 (Nat.leb_le _ _) Hl), Hparse. done.
Qed.

(** A stand-in for the package: two ids. *)
Definition twoIds : UUIDs.
Proof.
  refine {| UUID := bool;
            uuid_String := fun u : bool =>
              if u then "aaaaaaaa-aaaa-aaaa-aaaa-aaaaaaaaaaaa"
              else "bbbbbbbb-bbbb-bbbb-bbbb-bbbbbbbbbbbb";
            uuid_Parse := fun s =>
              if String.eqb s "aaaaaaaa-aaaa-aaaa-aaaa-aaaaaaaaaaaa" then Some true
              else if String.eqb s "bbbbbbbb-bbbb-bbbb-bbbb-bbbbbbbbbbbb" then Some false
              else None |}.
  - by intros [].
  - by intros [].
Defined.

Lemma GetSnapshots_snapshotName_witness :
  GetSnapshots twoIds ["SNAPSHOT/bb/bbbbbbbb-bbbb-bbbb-bbbb-bbbbbbbbbbbb"; "SNAPSHOT/xx/README"]
  = Panics.
Proof.
  apply (proj2 (GetSnapshots_snapshotName twoIds [false]) "SNAPSHOT/xx/README" []);
    [reflexivity|simpl; lia|reflexivity].
Defined.

(** *** Chunks and objects *)

Lemma prefix_trans a b c :
  String.prefix a b = true -> String.prefix b c = true -> String.prefix a c = true.
Proof.
  revert b c. induction a as [|x a IH]; intros b c; [by destruct c|].
  destruct b as [|y b]; [done|]. destruct c as [|z c]; [done|]. simpl.
  destruct (Ascii.ascii_dec x y) as [->|]; [|done].
  destruct (Ascii.ascii_dec y z) as [->|]; [|done]. apply IH.
Qed.

(** The names under which the backend stores: [CONFIG] and those of the
    snapshots, blobs, chunks and objects. *)
Definition storedName (U : UUIDs) (name : string) : Prop :=
  name = "CONFIG" \/ (exists id, name = snapshotName U id) \/
  (exists checksum, name = blobName checksum \/ name = chunkName checksum
                    \/ name = objectName checksum).

Lemma storedName_no_colon (U : UUIDs) name :
  storedName U name ->
  String.prefix "CHUNK:" name = false /\ String.prefix "OBJECT:" name = false.
Proof. intros [->|[[id ->]|[c [->|[->| ->]]]]]; done. Qed.

(** [GetChunks] and [GetObjects] find nothing the backend stored: they
    look for names that begin with [CHUNK:] and [OBJECT:], and [PutChunk]
    and [PutObject] store under [CHUNK/] and [OBJECT/].  So on a listing of
    names the backend stored, or of beginnings of such names, both return
    the empty list. *)
Theorem GetChunks_nothing (U : UUIDs) (listed : list string) :
  Forall (fun key => exists name, storedName U name /\ String.prefix key name = true) listed ->
  GetChunks listed = [] /\ GetObjects listed = [].
Proof.
  induction 1 as [|key rest (name & Hname & Hpre) _ [IH1 IH2]]; [done|].
  destruct (storedName_no_colon U name Hname) as [Hc Ho].
  cbn [GetChunks GetObjects]. unfold HasPrefix.
  destruct (String.prefix "CHUNK:" key) eqn:E1.
  { by rewrite (prefix_trans _ _ _ E1 Hpre) in Hc. }
  destruct (String.prefix "OBJECT:" key) eqn:E2.
  { by rewrite (prefix_trans _ _ _ E2 Hpre) in Ho. }
  done.
Qed.

Lemma GetChunks_nothing_witness :
  GetChunks [chunkName (repeat xab 32); "CHUNK/"; "CONFIG"] = [] /\
  GetObjects [chunkName (repeat xab 32); "CHUNK/"; "CONFIG"] = [].
Proof.
  apply (GetChunks_nothing twoIds).
  repeat constructor.
  - exists (chunkName (repeat xab 32)). split; [|reflexivity]. right. right.
    exists (repeat xab 32). right. by left.
  - exists (chunkName (repeat xab 32)). split; [|reflexivity]. right. right.
    exists (repeat xab 32). right. by left.
  - exists "CONFIG". split; [by left|reflexivity].
Defined.

End S3Facts.
